(** * HTMLBuilder: the indentation-based template compiler of WindowStructure

    A shallow embedding of the [HTMLBuilder] class (the template compiler
    bundled with WindowStructure) and the verification of its line
    splitting, line parsing, tree reconstruction and error behaviour.

    Conventions of the embedding:
    - a JavaScript string is the list of its UTF-16 code units;
    - the document is a store of elements addressed by handle, so that the
      in-place mutations of [prepend] and [appendChild] are visible through
      every reference to a node;
    - a method that may throw runs in a state-and-exception monad whose
      [Thrown] outcome keeps the state reached at the throw;
    - the objects that the caller hands to [bindEvent] live in a store of
      their own and are referred to by reference, as the builder keeps
      and rewrites the caller's object itself;
    - the platform is the DOM of an HTML document: an element has one list
      of attributes, in which its classes and its id live; names are put in
      ASCII lower case; [createElement], [setAttribute] and [classList.add]
      throw on the names that the platform rejects.  Which names it
      rejects has changed between versions of the DOM standard: the two
      name rules are parameters of the development, as is the decoding of
      HTML entities. *)

From Stdlib Require Import FunctionalExtensionality.
From stdpp Require Import base numbers option list strings.

Set Default Proof Using "Type".

(** ** JavaScript strings *)

Module JS.

Abbreviation jsstring := (list N).

(** Code units of an ASCII literal. *)
Fixpoint u (s : string) : jsstring :=
  match s with
  | EmptyString => []
  | String a s' => Ascii.N_of_ascii a :: u s'
  end.

(** WhiteSpace and LineTerminator code points, the set removed by
    [String.prototype.trim]. *)
Definition is_line_terminator (c : N) : bool :=
  ((c =? 10) || (c =? 13) || (c =? 8232) || (c =? 8233))%N.

Definition is_whitespace (c : N) : bool :=
  ((c =? 9) || (c =? 11) || (c =? 12) || (c =? 32) || (c =? 160)
   || (c =? 5760) || ((8192 <=? c) && (c <=? 8202)) || (c =? 8239)
   || (c =? 8287) || (c =? 12288) || (c =? 65279))%N
  || is_line_terminator c.

(** [\d] and [\w] of a regular expression without flags. *)
Definition is_digit (c : N) : bool := ((48 <=? c) && (c <=? 57))%N.

Definition is_word (c : N) : bool :=
  (((65 <=? c) && (c <=? 90)) || ((97 <=? c) && (c <=? 122)) || (c =? 95))%N
  || is_digit c.

Fixpoint trimStart (s : jsstring) : jsstring :=
  match s with
  | c :: s' => if is_whitespace c then trimStart s' else s
  | [] => []
  end.

Definition trimEnd (s : jsstring) : jsstring := rev (trimStart (rev s)).

(** [s.trim()] *)
Definition trim (s : jsstring) : jsstring := trimEnd (trimStart s).

(** [s.startsWith(p)] *)
Fixpoint startsWith (p s : jsstring) : bool :=
  match p, s with
  | [], _ => true
  | a :: p', b :: s' => (a =? b)%N && startsWith p' s'
  | _ :: _, [] => false
  end.

(** The scan of [s.split(sep)] for a non-empty separator: [skip] counts the
    code units of a separator occurrence still to be passed over, [acc]
    holds the current piece in reverse. *)
Fixpoint split_scan (sep : jsstring) (skip : nat) (acc : jsstring)
    (s : jsstring) : list jsstring :=
  match s with
  | [] => [rev acc]
  | c :: s' =>
      match skip with
      | S k => split_scan sep k acc s'
      | O =>
          if startsWith sep s
          then rev acc :: split_scan sep (length sep - 1) [] s'
          else split_scan sep 0 (c :: acc) s'
      end
  end.

(** [s.split(sep)] with a string separator: the empty separator cuts
    between all code units (and gives no piece at all for the empty
    string). *)
Definition split (sep s : jsstring) : list jsstring :=
  match sep with
  | [] => map (fun c => [c]) s
  | _ => split_scan sep 0 [] s
  end.

(** [s.indexOf(c) !== -1] for a one-unit string [c]. *)
Definition includes (c : N) (s : jsstring) : bool :=
  existsb (N.eqb c) s.

(** [s.replace(p, empty)]: the first occurrence of [p] removed. *)
Fixpoint remove_first (p s : jsstring) : jsstring :=
  if startsWith p s then drop (length p) s
  else match s with
       | [] => []
       | c :: s' => c :: remove_first p s'
       end.

(** [/\d/.test(s[0])]: [s[0]] is [undefined] for the empty string, which
    [test] reads as the digit-free text "undefined". *)
Definition first_is_digit (s : jsstring) : bool :=
  match s with
  | c :: _ => is_digit c
  | [] => false
  end.

(** [c.repeat(n)] for a one-unit string. *)
Definition repeat1 (c : N) (n : nat) : jsstring := replicate n c.

(** [ls.join(c)] for a one-unit string [c]: the texts [ls] with [c] between
    one and the next. *)
Fixpoint join (c : N) (ls : list jsstring) : jsstring :=
  match ls with
  | [] => []
  | l :: ls' =>
      match ls' with
      | [] => l
      | _ :: _ => l ++ c :: join c ls'
      end
  end.

End JS.

Import JS.

(** ** Regular expressions

    The backtracking matcher of ECMAScript, in continuation-passing style,
    for the constructs that the builder's pattern uses: character classes,
    concatenation, capture groups and the greedy quantifiers [*], [+] and
    [?]. *)

Module RegExp.

Inductive regex : Type :=
| Chr (p : N -> bool)
| Cat (r1 r2 : regex)
| Capture (i : nat) (r : regex)
| Star (r : regex)
| Opt (r : regex).

(** [r+] runs [r] once and then behaves as [r*]. *)
Definition Plus (r : regex) : regex := Cat r (Star r).

(** A matcher state: the input still to be read and the captures. *)
Record mstate : Type := MState {
  rest : jsstring;
  captures : list (option jsstring)
}.

Definition cont : Type := mstate -> option mstate.
Definition matcher_t : Type := mstate -> cont -> option mstate.

(** The capture groups opened inside [r]. *)
Fixpoint groups (r : regex) : list nat :=
  match r with
  | Chr _ => []
  | Cat r1 r2 => groups r1 ++ groups r2
  | Capture i r' => i :: groups r'
  | Star r' | Opt r' => groups r'
  end.

(** Every iteration of a quantified atom starts with the captures of the
    atom's own groups undefined. *)
Definition clear (gs : list nat) (x : mstate) : mstate :=
  MState (rest x) (foldr (fun i caps => <[i := None]> caps) (captures x) gs).

(** The text consumed between state [x] and the later state [y]. *)
Definition consumed (x y : mstate) : jsstring :=
  take (length (rest x) - length (rest y)) (rest x).

(** RepeatMatcher for [m*]: the atom is tried first, going on with a
    further turn unless the atom consumed nothing, and the continuation is
    tried when that fails.  A turn that goes on runs on a shorter input, so
    that [fuel] turns are enough for an input shorter than [fuel]
    ([star_loop_fuel] below). *)
Fixpoint star_loop (fuel : nat) (m : matcher_t) (gs : list nat)
    (x : mstate) (c : cont) : option mstate :=
  match fuel with
  | O => None
  | S fuel' =>
      match m (clear gs x)
              (fun y => if length (rest y) =? length (rest x)
                        then None else star_loop fuel' m gs y c) with
      | Some z => Some z
      | None => c x
      end
  end.

Fixpoint matcher (r : regex) : matcher_t :=
  match r with
  | Chr p => fun x c =>
      match rest x with
      | ch :: s => if p ch then c (MState s (captures x)) else None
      | [] => None
      end
  | Cat r1 r2 => fun x c => matcher r1 x (fun y => matcher r2 y c)
  | Capture i r' => fun x c =>
      matcher r' x
        (fun y => c (MState (rest y) (<[i := Some (consumed x y)]> (captures y))))
  | Star r' => fun x c =>
      star_loop (S (length (rest x))) (matcher r') (groups r') x c
  | Opt r' => fun x c =>
      match matcher r' (clear (groups r') x)
              (fun y => if length (rest y) =? length (rest x)
                        then None else c y) with
      | Some z => Some z
      | None => c x
      end
  end.

(** [r.exec(s)] for a pattern without flags and with [ngroups] groups:
    the match array of the leftmost position at which [r] matches. *)
Fixpoint exec (ngroups : nat) (r : regex) (s : jsstring)
    : option (list (option jsstring)) :=
  let x := MState s (replicate (S ngroups) None) in
  match matcher r x Some with
  | Some y => Some (<[0 := Some (consumed x y)]> (captures y))
  | None =>
      match s with
      | [] => None
      | _ :: s' => exec ngroups r s'
      end
  end.

End RegExp.

Import RegExp.

(** ** The document

    The platform side of the builder, for an HTML document: elements live
    in a store and are referred to by handle (their position in the store).
    An element has a local name, a list of attributes, a list of child
    nodes and the listeners it was given.  Its classes are the tokens of
    its [class] attribute and its id is its [id] attribute. *)

Module DOM.

(** An entry of a child list: a text node, or a reference to an element. *)
Inductive node : Type :=
| TextNode (data : jsstring)
| ElemRef (handle : nat).

#[export] Instance node_eq_dec : EqDecision node.
Proof. solve_decision. Defined.

(** The arguments of a call to [addEventListener]; callbacks and options
    are opaque values, represented by tokens, and an argument that is
    undefined is [None]. *)
Record listener_entry : Type := ListenerEntry {
  l_type : option jsstring;
  l_callback : option nat;
  l_options : option nat
}.

(** An element.  [localName] is the name that [createElement] was given,
    in lower case ([tagName] is the same name in upper case);
    [attributes] holds the attributes in the order in which they were
    first set; [listeners] holds the calls to [addEventListener] that the
    element received, in order. *)
Record element : Type := Element {
  localName : jsstring;
  attributes : list (jsstring * jsstring);
  childNodes : list node;
  listeners : list listener_entry
}.

Abbreviation document := (list element).

Definition set_attributes (f : list (jsstring * jsstring) -> list (jsstring * jsstring))
    (e : element) : element :=
  Element (localName e) (f (attributes e)) (childNodes e) (listeners e).
Definition set_childNodes (f : list node -> list node) (e : element) : element :=
  Element (localName e) (attributes e) (f (childNodes e)) (listeners e).
Definition set_listeners (f : list listener_entry -> list listener_entry)
    (e : element) : element :=
  Element (localName e) (attributes e) (childNodes e) (f (listeners e)).

(** The exceptions of the platform that the builder can meet. *)
Inductive dom_exception : Type :=
| InvalidCharacterError
| SyntaxError.

(** The names that [createElement] and [setAttribute] accept. *)
Record name_rules : Type := NameRules {
  valid_element_name : jsstring -> bool;
  valid_attribute_name : jsstring -> bool
}.

(** ASCII white space and ASCII lower case, as the DOM standard has
    them. *)
Definition ascii_whitespace (c : N) : bool :=
  ((c =? 9) || (c =? 10) || (c =? 12) || (c =? 13) || (c =? 32))%N.

Definition to_lower (s : jsstring) : jsstring :=
  map (fun c => if ((65 <=? c) && (c <=? 90))%N then (c + 32)%N else c) s.

(** Setting the value of the attribute of a given name: the value of an
    attribute that is already there is replaced, the attribute is appended
    otherwise. *)
Fixpoint set_value (name value : jsstring) (attrs : list (jsstring * jsstring))
    : list (jsstring * jsstring) :=
  match attrs with
  | [] => [(name, value)]
  | (n, v) :: attrs' =>
      if decide (n = name) then (name, value) :: attrs'
      else (n, v) :: set_value name value attrs'
  end.

(** The value of the attribute of a given name. *)
Fixpoint get_value (name : jsstring) (attrs : list (jsstring * jsstring))
    : option jsstring :=
  match attrs with
  | [] => None
  | (n, v) :: attrs' => if decide (n = name) then Some v else get_value name attrs'
  end.

(** [document.createElement(tag)]: a fresh, detached, empty element whose
    local name is [tag] in lower case; an InvalidCharacterError when [tag]
    is not a valid element name. *)
Definition createElement (rules : name_rules) (tag : jsstring) (d : document)
    : dom_exception + nat * document :=
  if valid_element_name rules tag
  then inr (length d, d ++ [Element (to_lower tag) [] [] []])
  else inl InvalidCharacterError.

(** [e.setAttribute(name, value)]: an InvalidCharacterError when [name] is
    not a valid attribute name; the name is put in lower case. *)
Definition setAttribute (rules : name_rules) (name value : jsstring) (e : element)
    : dom_exception + element :=
  if valid_attribute_name rules name
  then inr (set_attributes (set_value (to_lower name) value) e)
  else inl InvalidCharacterError.

(** [e.getAttribute(name)] *)
Definition getAttribute (name : jsstring) (e : element) : option jsstring :=
  get_value (to_lower name) (attributes e).

(** [e.id = value] *)
Definition set_id (value : jsstring) (e : element) : element :=
  set_attributes (set_value (u "id") value) e.

(** The tokens of a text: its maximal runs of characters other than ASCII
    white space.  [acc] holds the current run in reverse. *)
Fixpoint tokens_scan (acc : jsstring) (s : jsstring) : list jsstring :=
  match s with
  | [] => match acc with [] => [] | _ :: _ => [rev acc] end
  | c :: s' =>
      if ascii_whitespace c
      then match acc with
           | [] => tokens_scan [] s'
           | _ :: _ => rev acc :: tokens_scan [] s'
           end
      else tokens_scan (c :: acc) s'
  end.

(** An ordered set: each token once, at its first position. *)
Definition ordered_set (ts : list jsstring) : list jsstring :=
  foldl (fun set t => if decide (t ∈ set) then set else set ++ [t]) [] ts.

(** [e.classList]: the token set of the [class] attribute. *)
Definition classList (e : element) : list jsstring :=
  ordered_set (tokens_scan [] (default [] (get_value (u "class") (attributes e)))).

(** [e.classList.add(token)]: a SyntaxError on the empty token and an
    InvalidCharacterError on a token with ASCII white space; the token is
    added to the set unless it is there, and the [class] attribute is set
    to the tokens of the set joined by spaces. *)
Definition classList_add (token : jsstring) (e : element) : dom_exception + element :=
  if decide (token = []) then inl SyntaxError
  else if existsb ascii_whitespace token then inl InvalidCharacterError
  else
    let set := classList e in
    let set := if decide (token ∈ set) then set else set ++ [token] in
    inr (set_attributes (set_value (u "class") (join 32 set)) e).

(** [e.appendChild(document.createTextNode(data))] *)
Definition appendText (data : jsstring) (e : element) : element :=
  set_childNodes (fun ns => ns ++ [TextNode data]) e.

(** [e.addEventListener(type, callback, options)] *)
Definition addEventListener (type : option jsstring) (callback options : option nat)
    (e : element) : element :=
  set_listeners (fun ls => ls ++ [ListenerEntry type callback options]) e.

(** Inserting a node somewhere first removes it from the child list it is in. *)
Definition detach (c : nat) (d : document) : document :=
  map (set_childNodes (filter (fun n => n ≠ ElemRef c))) d.

(** [p.prepend(c)] *)
Definition prepend (p c : nat) (d : document) : document :=
  alter (set_childNodes (fun ns => ElemRef c :: ns)) p (detach c d).

(** [p.appendChild(c)] *)
Definition appendChild (p c : nat) (d : document) : document :=
  alter (set_childNodes (fun ns => ns ++ [ElemRef c])) p (detach c d).

(** The element children of a node ([e.children]). *)
Definition children (e : element) : list nat :=
  omap (fun n => match n with ElemRef h => Some h | TextNode _ => None end) (childNodes e).

End DOM.

Import DOM.

(** ** The builder *)

(** An object [{name, type, callback, options}] as the caller of
    [bindEvent] built it; a property that is missing is [None]. *)
Record Listener : Type := MkListener {
  name : option jsstring;
  type : option jsstring;
  callback : option nat;
  options : option nat
}.

Definition set_name (v : option jsstring) (o : Listener) : Listener :=
  MkListener v (type o) (callback o) (options o).

(** The fields of the builder, together with the document it works on, the
    lines written by [console.error] and the objects of the caller:
    [EVENTS] holds references to these objects. *)
Record state : Type := State {
  doc : document;
  console : list jsstring;
  parent : nat;
  SYMBOL_BETWEEN_ATTRIBUTES : jsstring;
  EVENTS : list nat;
  objects : list Listener
}.

Definition set_doc (f : document -> document) (s : state) : state :=
  State (f (doc s)) (console s) (parent s) (SYMBOL_BETWEEN_ATTRIBUTES s) (EVENTS s)
        (objects s).
Definition set_console (f : list jsstring -> list jsstring) (s : state) : state :=
  State (doc s) (f (console s)) (parent s) (SYMBOL_BETWEEN_ATTRIBUTES s) (EVENTS s)
        (objects s).
Definition set_EVENTS (f : list nat -> list nat) (s : state) : state :=
  State (doc s) (console s) (parent s) (SYMBOL_BETWEEN_ATTRIBUTES s) (f (EVENTS s))
        (objects s).
Definition set_objects (f : list Listener -> list Listener) (s : state) : state :=
  State (doc s) (console s) (parent s) (SYMBOL_BETWEEN_ATTRIBUTES s) (EVENTS s)
        (f (objects s)).

(** The object behind a reference; a reference to an object that the store
    does not hold reads as an object without properties. *)
Definition get_object (objs : list Listener) (r : nat) : Listener :=
  default (MkListener None None None None) (objs !! r).

Inductive exn : Type :=
| Error (message : jsstring)
| TypeError
| RangeError
| DOMException (e : dom_exception).

(** What running a method from a state gives: a value and the new state, an
    exception and the state reached when it was thrown, or no result within
    the iterations allowed to a [while] loop. *)
Inductive outcome (A : Type) : Type :=
| Returned (a : A) (s : state)
| Thrown (e : exn) (s : state)
| Diverged.
Arguments Returned {A} a s.
Arguments Thrown {A} e s.
Arguments Diverged {A}.

Definition M (A : Type) : Type := state -> outcome A.

Definition ret {A} (a : A) : M A := fun s => Returned a s.
Definition bind {A B} (m : M A) (k : A -> M B) : M B :=
  fun s => match m s with
           | Returned a s' => k a s'
           | Thrown e s' => Thrown e s'
           | Diverged => Diverged
           end.
Definition throw {A} (e : exn) : M A := fun s => Thrown e s.
Definition gets {A} (f : state -> A) : M A := fun s => Returned (f s) s.
Definition modify (f : state -> state) : M unit := fun s => Returned tt (f s).

Declare Scope js_scope.
Delimit Scope js_scope with js.
Notation "x <- m ;; k" := (bind m (fun x => k))
  (at level 100, m at next level, right associativity) : js_scope.
Notation "m ;; k" := (bind m (fun _ => k))
  (at level 100, right associativity) : js_scope.
Local Open Scope js_scope.

(** [for (var x of l) body] *)
Fixpoint for_of {A} (l : list A) (body : A -> M unit) : M unit :=
  match l with
  | [] => ret tt
  | x :: l' => body x ;; for_of l' body
  end.

(** Reading a property of [a[i]]: a TypeError when [a[i]] is undefined. *)
Definition at_index {A} (a : list A) (i : nat) : M A :=
  match a !! i with
  | Some x => ret x
  | None => throw TypeError
  end.

(** The value of [v] in a condition or before [||]: undefined and the
    empty string count as absent. *)
Definition truthy (v : option jsstring) : option jsstring :=
  match v with
  | Some (c :: s) => Some (c :: s)
  | _ => None
  end.

Definition console_error (msg : jsstring) : M unit :=
  modify (set_console (fun out => out ++ [msg])).

(** A method of the element [element], called for its effect on that
    element: the exception of the platform is thrown as it comes. *)
Definition on_element (element : nat) (method : DOM.element -> dom_exception + DOM.element)
    : M unit :=
  fun s => match doc s !! element with
           | Some e =>
               match method e with
               | inr e' => Returned tt (set_doc (fun d => <[element := e']> d) s)
               | inl x => Thrown (DOMException x) s
               end
           | None => Thrown TypeError s
           end.

(** The builder's pattern, group by group: the tag, one or more word
    characters (group 1); any number of runs of dot-prefixed tokens of word
    characters and dashes (group 2, the classes); optionally a hash sign and
    such a token (group 3, the id); optionally a parenthesised text (group
    4, the content); optionally a bracketed text (group 5, the attributes);
    any number of at-signs, each followed by word characters and semicolons
    (group 6, the events). *)
Definition lit (s : string) : regex := Chr (fun c => bool_decide ([c] = u s)).
Definition word : regex := Chr is_word.
Definition word_or_dash : regex := Chr (fun c => is_word c || bool_decide ([c] = u "-")).
Definition word_or_semicolon : regex := Chr (fun c => is_word c || bool_decide ([c] = u ";")).
Definition any : regex := Chr (fun c => negb (is_line_terminator c)).

Definition REGEX : regex :=
  Cat (Capture 1 (Plus word))
 (Cat (Star (Capture 2 (Star (Cat (lit ".") (Star word_or_dash)))))
 (Cat (Opt (Capture 3 (Cat (lit "#") (Star word_or_dash))))
 (Cat (Opt (Cat (lit "(") (Cat (Capture 4 (Star any)) (lit ")"))))
 (Cat (Opt (Cat (lit "[") (Cat (Capture 5 (Star any)) (lit "]"))))
      (Star (Cat (lit "@") (Capture 6 (Star word_or_semicolon)))))))).

Section HTMLBuilder.

(** The name rules of the platform. *)
Variable rules : name_rules.

(** [_decodeHTMLEntities] hands its argument to the platform's HTML parser
    and reads the text back; the parser is a parameter of the development. *)
Variable _decodeHTMLEntities : jsstring -> jsstring.

(** [setParent(parent)] *)
Definition setParent (p : nat) : M unit :=
  modify (fun s => State (doc s) (console s) p (SYMBOL_BETWEEN_ATTRIBUTES s) (EVENTS s)
                         (objects s)).

(** [changeSymbolBetweenAttributes(symbol)] *)
Definition changeSymbolBetweenAttributes (symbol : jsstring) : M unit :=
  modify (fun s => State (doc s) (console s) (parent s) symbol (EVENTS s) (objects s)).

(** [bindEvent(event)]: [event] refers to an object of the caller.  The
    name is rewritten in that object, and the registry receives the
    reference. *)
Definition bindEvent (event : nat) : M unit :=
  o <- gets (fun s => get_object (objects s) event) ;;
  match truthy (name o) with
  | None => throw (Error (u "bindEvent(): cannot bind an event without a name."))
  | Some n =>
    match truthy (type o) with
    | None => throw (Error (u "bindEvent(): cannot bind an event without a precise type."))
    | Some t =>
      match callback o with
      | None =>
          throw (Error (u "bindEvent(): cannot bind an event without a callback function."))
      | Some cb =>
          (if startsWith (u "on") n
           then modify (set_objects (alter (set_name (Some (remove_first (u "on") n))) event))
           else ret tt) ;;
          modify (set_EVENTS (fun evs => evs ++ [event]))
      end
    end
  end.

(** [_level(line)]: the number of [>] that open the line. *)
Fixpoint _level (line : jsstring) : nat :=
  match line with
  | c :: line' => if bool_decide ([c] = u ">") then S (_level line') else 0
  | [] => 0
  end.

(** [_extractLinesFrom(template)] *)
Definition _extractLinesFrom (template : jsstring) : list jsstring :=
  map trim (split [10%N] (trim template)).

(** The loop of [indentTemplate]; [repeat] throws a RangeError on a
    negative count. *)
Fixpoint indent_loop (indentation : Z) (lines : list jsstring) (newTemplate : jsstring)
    : exn + jsstring :=
  match lines with
  | [] => inr newTemplate
  | line :: lines' =>
      if (indentation <? 0)%Z then inl RangeError
      else indent_loop indentation lines'
             (newTemplate ++ repeat1 62 (Z.to_nat indentation) ++ line ++ [10%N])
  end.

(** [indentTemplate(template, indentation)] *)
Definition indentTemplate (template : jsstring) (indentation : Z) : exn + jsstring :=
  match indent_loop indentation (_extractLinesFrom template) [] with
  | inl e => inl e
  | inr newTemplate => inr (trim newTemplate)
  end.

(** [_searchForEvent(name)]: the first object of the registry whose name
    is [n], as the objects are when the search is made. *)
Fixpoint _searchForEvent (objs : list Listener) (events : list nat) (n : jsstring)
    : option nat :=
  match events with
  | [] => None
  | event :: events' =>
      if decide (Some n = name (get_object objs event)) then Some event
      else _searchForEvent objs events' n
  end.

(** The three loops of [_createElementFromLine], on the element [element]. *)
Definition add_class (element : nat) (c : jsstring) : M unit :=
  if first_is_digit c
  then console_error (u "HTMLBuilder: invalid syntax for class name '" ++ c ++ u "'")
  else on_element element (classList_add c).

Definition add_attribute (element : nat) (attr : jsstring) : M unit :=
  if first_is_digit attr
  then console_error (u "HTMLBuilder: invalid syntax for attribute name '" ++ attr ++ u "'")
  else
    let attr := trim attr in
    if includes 61 attr
    then
      let name := default [] (split (u "=") attr !! 0) in
      let value := default [] (split (u "=") attr !! 1) in
      on_element element (setAttribute rules name value)
    else on_element element (setAttribute rules attr []).

Definition add_event (element : nat) (n : jsstring) : M unit :=
  if first_is_digit n
  then console_error (u "HTMLBuilder: invalid syntax for event name '" ++ n ++ u "'")
  else
    objs <- gets objects ;;
    events <- gets EVENTS ;;
    match _searchForEvent objs events n with
    | Some event =>
        let ev := get_object objs event in
        on_element element
          (fun e => inr (addEventListener (type ev) (callback ev) (options ev) e))
    | None => ret tt
    end.

(** The declarations that open [_createElementFromLine]: the match array
    ([this.REGEX.exec(line) || []]), a group of it (undefined when the array
    is too short), and the six variables read off the groups. *)
Definition matches (line : jsstring) : list (option jsstring) :=
  default [] (exec 6 REGEX line).

Definition group (line : jsstring) (i : nat) : option jsstring :=
  mjoin (matches line !! i).

Definition line_tagname (line : jsstring) : option jsstring :=
  truthy (group line 1).

Definition line_classes (line : jsstring) : option (list jsstring) :=
  (fun m => filter (fun v => v ≠ []) (split (u ".") m)) <$> truthy (group line 2).

Definition line_id (line : jsstring) : option jsstring :=
  remove_first (u "#") <$> truthy (group line 3).

Definition line_content (line : jsstring) : option jsstring :=
  truthy (group line 4).

Definition line_attributes (symbol line : jsstring) : option (list jsstring) :=
  split symbol <$> truthy (group line 5).

Definition line_events (line : jsstring) : option (list jsstring) :=
  (fun m => filter (fun v => v ≠ []) (split (u ";") m)) <$> truthy (group line 6).

Definition parse_error (line : jsstring) : exn :=
  Error (u "HTMLBuilder: unable to parse a line: " ++ [34%N] ++ line ++ [34%N]).

(** [document.createElement(tagname)], as a step of the builder. *)
Definition new_element (tagname : jsstring) : M nat :=
  fun s => match createElement rules tagname (doc s) with
           | inr (h, d) => Returned h (set_doc (fun _ => d) s)
           | inl x => Thrown (DOMException x) s
           end.

(** [_createElementFromLine(line)] *)
Definition _createElementFromLine (line : jsstring) : M nat :=
  symbol <- gets SYMBOL_BETWEEN_ATTRIBUTES ;;
  match line_tagname line with
  | None => throw (parse_error line)
  | Some tagname =>
      element <- new_element tagname ;;
      for_of (default [] (line_classes line)) (add_class element) ;;
      for_of (default [] (line_attributes symbol line)) (add_attribute element) ;;
      match line_id line ≫= (fun i => truthy (Some i)) with
      | Some i => on_element element (fun e => inr (set_id i e))
      | None => ret tt
      end ;;
      match line_content line with
      | Some text =>
          on_element element (fun e => inr (appendText (_decodeHTMLEntities text) e))
      | None => ret tt
      end ;;
      for_of (default [] (line_events line)) (add_event element) ;;
      ret element
  end.

(** [_maxLevel(children)]; reading [children[0][1]] of an empty list is a
    TypeError. *)
Definition _maxLevel (children : list (nat * nat)) : M nat :=
  first <- at_index children 0 ;;
  ret (foldl (fun max child => if max <? child.2 then child.2 else max) first.2 children).

(** The loop [for (i = from; ...)] of the two index searches: the last
    position, counted from [i], of an entry whose level satisfies [p]. *)
Fixpoint last_index_where {A} (p : nat -> bool) (i : nat) (children : list (nat * nat))
    (lastIndex : A) (found : nat -> A) : A :=
  match children with
  | [] => lastIndex
  | child :: children' =>
      last_index_where p (S i) children' (if p child.2 then found i else lastIndex) found
  end.

(** [_getIndexOfDeepestElement(children)] *)
Definition _getIndexOfDeepestElement (children : list (nat * nat)) : M nat :=
  max <- _maxLevel children ;;
  if max =? 1 then ret (length children - 1)
  else ret (last_index_where (fun level => level =? max) 0 children 1 (fun i => i)).

(** [_getIndexOfNearestParentElementOf(indexOfDeepest, children)]; the
    levels are compared as numbers, so an entry of level 0 has no candidate
    parent (none has level -1). *)
Definition _getIndexOfNearestParentElementOf (indexOfDeepest : nat)
    (children : list (nat * nat)) : M (option nat) :=
  deepest <- at_index children indexOfDeepest ;;
  ret (last_index_where (fun level => (Z.of_nat level =? Z.of_nat deepest.2 - 1)%Z)
         0 (take indexOfDeepest children) None Some).

(** One turn of the [while] loop of [generate]: the deepest pending entry is
    prepended to its nearest parent, or to the main element, and spliced out
    of the pending list. *)
Definition attach_step (mainElement : nat) (childrenElements : list (nat * nat))
    : M (list (nat * nat)) :=
  indexOfDeepest <- _getIndexOfDeepestElement childrenElements ;;
  indexOfNearestParent <- _getIndexOfNearestParentElementOf indexOfDeepest childrenElements ;;
  match indexOfNearestParent with
  | Some j =>
      nearest <- at_index childrenElements j ;;
      deepest <- at_index childrenElements indexOfDeepest ;;
      modify (set_doc (prepend nearest.1 deepest.1))
  | None =>
      deepest <- at_index childrenElements indexOfDeepest ;;
      modify (set_doc (prepend mainElement deepest.1))
  end ;;
  ret (delete indexOfDeepest childrenElements).

(** [while (childrenElements.length > 0) ...], allowed [fuel] turns. *)
Fixpoint attach_loop (fuel : nat) (mainElement : nat) (childrenElements : list (nat * nat))
    : M unit :=
  match childrenElements with
  | [] => ret tt
  | _ :: _ =>
      match fuel with
      | O => fun _ => Diverged
      | S fuel' =>
          childrenElements' <- attach_step mainElement childrenElements ;;
          attach_loop fuel' mainElement childrenElements'
      end
  end.

(** The first loop of [generate]: the lines without indentation, each with
    its index among all the lines. *)
Fixpoint mainLines_from (i : nat) (lines : list jsstring) : list (jsstring * nat) :=
  match lines with
  | [] => []
  | line :: lines' =>
      if _level line =? 0 then (line, i) :: mainLines_from (S i) lines'
      else mainLines_from (S i) lines'
  end.

(** The loop over [k]: one element per line, paired with the line's level. *)
Fixpoint children_loop (lines : list jsstring) (childrenElements : list (nat * nat))
    : M (list (nat * nat)) :=
  match lines with
  | [] => ret childrenElements
  | line :: lines' =>
      child <- _createElementFromLine line ;;
      children_loop lines' (childrenElements ++ [(child, _level line)])
  end.

(** The body of the loop over the main lines, for the main line [mainLine]
    and the lines [between] it and the next main line. *)
Definition block (mainLine : jsstring) (between : list jsstring) : M unit :=
  mainElement <- _createElementFromLine mainLine ;;
  childrenElements <- children_loop between [] ;;
  attach_loop (length childrenElements) mainElement childrenElements ;;
  p <- gets parent ;;
  modify (set_doc (appendChild p mainElement)).

(** The loop over the main lines: [mainLines[i]] heads the list and
    [mainLines[i + 1]], when there is one, comes next; the lines of index
    [mainLevel + 1] to [nextMainLevel - 1] are those between the two. *)
Fixpoint blocks_loop (lines : list jsstring) (mainLines : list (jsstring * nat)) : M unit :=
  match mainLines with
  | [] => ret tt
  | (mainLine, mainLevel) :: mainLines' =>
      let nextMainLevel :=
        match mainLines' with
        | (_, next) :: _ => next
        | [] => length lines
        end in
      block mainLine (take (nextMainLevel - (mainLevel + 1)) (drop (mainLevel + 1) lines)) ;;
      blocks_loop lines mainLines'
  end.

(** [generate(template)], from the extraction of the lines on. *)
Definition generate_lines (lines : list jsstring) : M unit :=
  blocks_loop lines (mainLines_from 0 lines).

(** [generate(template)] *)
Definition generate (template : jsstring) : M unit :=
  if decide (length (trim template) = 0) then ret tt
  else generate_lines (_extractLinesFrom template).

End HTMLBuilder.

(** ** Notions used in the statements

    What follows is not part of the builder: it is the vocabulary of the
    properties proved about it. *)

(** *** Steps on one element *)

Definition lift (r : dom_exception + element) : exn + element :=
  match r with
  | inl x => inl (DOMException x)
  | inr e => inr e
  end.

(** The state [st] with the element of handle [h] replaced by [e] and
    [log] written on the console. *)
Definition with_element (h : nat) (e : element) (log : list jsstring) (st : state) : state :=
  State (<[h := e]> (doc st)) (console st ++ log) (parent st)
        (SYMBOL_BETWEEN_ATTRIBUTES st) (EVENTS st) (objects st).

(** A step of the builder that works on the element of handle [h] alone,
    in a builder whose objects are [objs] and whose registry is [events]:
    it does to that element what [f] does, writing [log] on the console,
    and throws what [f] fails with, the element children of the element
    being as they were in both cases. *)
Definition local_step (objs : list Listener) (events : list nat) (h : nat)
    (f : element -> exn + element) (log : list jsstring) (m : M unit) : Prop :=
  ∀ st e, objects st = objs -> EVENTS st = events -> doc st !! h = Some e ->
    match f e with
    | inr e' => m st = Returned tt (with_element h e' log st) ∧ children e' = children e
    | inl x => ∃ e' log', m st = Thrown x (with_element h e' log' st)
                          ∧ children e' = children e
    end.

(** One function after the other, and one function per item of a list,
    up to the first failure. *)
Definition and_then (f g : element -> exn + element) (e : element) : exn + element :=
  match f e with
  | inr e' => g e'
  | inl x => inl x
  end.

Fixpoint steps {A} (step : A -> element -> exn + element) (l : list A) (e : element)
    : exn + element :=
  match l with
  | [] => inr e
  | a :: l' => and_then (step a) (steps step l') e
  end.

(** The listeners that the names of a line bring: for each name that does
    not start with a digit, the first object of the registry that has that
    very name, if there is one. *)
Definition resolved (objs : list Listener) (events : list nat) (names : list jsstring)
    : list listener_entry :=
  omap (fun n => if first_is_digit n then None
                 else (fun r => ListenerEntry (type (get_object objs r))
                                              (callback (get_object objs r))
                                              (options (get_object objs r)))
                        <$> _searchForEvent objs events n) names.

(** [st'] is [st] with more elements in the document, none of which has an
    element child, and more lines on the console: nothing that exists in
    [st] has changed. *)
Definition extends (st st' : state) : Prop :=
  ∃ es log,
    st' = State (doc st ++ es) (console st ++ log) (parent st)
                (SYMBOL_BETWEEN_ATTRIBUTES st) (EVENTS st) (objects st)
    ∧ Forall (fun e => children e = []) es.


(** *** Blocks, read off the lines

    [generate] finds the blocks by index: the main lines first, then the
    lines between two successive main lines.  The same blocks are obtained
    by going through the lines once, from the last line to the first. *)

Definition group_line (line : jsstring)
    (acc : list jsstring * list (jsstring * list jsstring))
    : list jsstring * list (jsstring * list jsstring) :=
  if _level line =? 0 then ([], (line, acc.1) :: acc.2) else (line :: acc.1, acc.2).

(** The lines before the first main line, and the blocks. *)
Definition split_blocks (lines : list jsstring)
    : list jsstring * list (jsstring * list jsstring) :=
  foldr group_line ([], []) lines.

Arguments split_blocks : simpl never.

Definition flatten (bs : list (jsstring * list jsstring)) : list jsstring :=
  concat (map (fun b => b.1 :: b.2) bs).

(** The blocks, run one after the other. *)
Definition run_blocks (rules : name_rules) (decode : jsstring -> jsstring)
    (bs : list (jsstring * list jsstring)) : M unit :=
  for_of bs (fun b => block rules decode b.1 b.2).

(** *** Matching and texts *)

(** The continuation [c], cut down to the states that are no earlier in
    the input than [x]. *)
Definition guard (x : mstate) (c : cont) : cont :=
  fun y => if length (rest y) <=? length (rest x) then c y else None.

(** A matcher that only moves forward in the input. *)
Definition forward (m : matcher_t) : Prop := ∀ x c, m x c = m x (guard x c).

(** A match goes on, through the continuation, from a state that is no
    earlier in the input and that has the captures of the start outside
    the groups of the expression. *)
Definition carries_on (gs : list nat) (x : mstate) (c : cont) (z : mstate) : Prop :=
  ∃ y, c y = Some z
    ∧ length (rest y) ≤ length (rest x)
    ∧ ∀ i, i ∉ gs -> captures y !! i = captures x !! i.

(** The characters that an expression can consume. *)
Fixpoint alphabet (r : regex) (c : N) : bool :=
  match r with
  | Chr p => p c
  | Cat r1 r2 => alphabet r1 c || alphabet r2 c
  | Capture _ r' | Star r' | Opt r' => alphabet r' c
  end.

(** The text that group [i] has captured, if any, is made of characters
    of [P]. *)
Definition captured_in (P : N -> bool) (i : nat) (caps : list (option jsstring)) : Prop :=
  ∀ t, caps !! i = Some (Some t) -> Forall (fun ch => P ch = true) t.

(** The groups [i] of an expression enclose expressions that consume
    characters of [P] only. *)
Fixpoint group_within (P : N -> bool) (i : nat) (r : regex) : Prop :=
  match r with
  | Chr _ => True
  | Cat r1 r2 => group_within P i r1 ∧ group_within P i r2
  | Capture j r' => (j = i -> ∀ ch, alphabet r' ch = true -> P ch = true)
                    ∧ group_within P i r'
  | Star r' | Opt r' => group_within P i r'
  end.

(** A match goes on, through the continuation, from a state reached by
    consuming characters of the expression, in which group [i] still holds
    characters of [P] only. *)
Definition runs_on (r : regex) (P : N -> bool) (i : nat) (x : mstate) (c : cont)
    (z : mstate) : Prop :=
  ∃ y w, c y = Some z
    ∧ rest x = w ++ rest y
    ∧ Forall (fun ch => alphabet r ch = true) w
    ∧ (captured_in P i (captures x) -> captured_in P i (captures y)).

(** The characters of the class tokens of a line. *)
Definition class_char (c : N) : bool :=
  bool_decide ([c] = u ".") || (is_word c || bool_decide ([c] = u "-")).

(** The text of [s] before the first [c] and the text after it. *)
Fixpoint before_first (c : N) (s : jsstring) : jsstring :=
  match s with
  | [] => []
  | x :: s' => if (c =? x)%N then [] else x :: before_first c s'
  end.

Fixpoint after_first (c : N) (s : jsstring) : jsstring :=
  match s with
  | [] => []
  | x :: s' => if (c =? x)%N then s' else after_first c s'
  end.

Definition nonws_head (s : jsstring) : Prop :=
  match s with
  | c :: _ => is_whitespace c = false
  | [] => True
  end.

(** A text with no whitespace at either end. *)
Definition trimmed (s : jsstring) : Prop := nonws_head s ∧ nonws_head (rev s).

(** *** Sample documents and templates *)

(** The name rules of the DOM standard: an element name starts with an
    ASCII letter and has no ASCII white space, NUL, slash or
    greater-than sign, or starts with a colon, an underscore or a
    character from U+0080 on and goes on with ASCII letters and digits,
    dashes, dots, colons, underscores or characters from U+0080 on; an
    attribute name is not empty and has no ASCII white space, NUL, slash,
    equals sign or greater-than sign.  Earlier versions of the standard
    asked for a name of XML, which fewer texts are; the worked instances
    use names on which the two agree. *)
Definition is_alpha (c : N) : bool :=
  (((65 <=? c) && (c <=? 90)) || ((97 <=? c) && (c <=? 122)))%N.

Definition dom_element_name (name : jsstring) : bool :=
  match name with
  | [] => false
  | c :: s =>
      if is_alpha c
      then forallb (fun x => negb (ascii_whitespace x || (x =? 0) || (x =? 47)
                                   || (x =? 62))%N) name
      else ((c =? 58) || (c =? 95) || (128 <=? c))%N
           && forallb (fun x => is_alpha x || is_digit x
                                || ((x =? 45) || (x =? 46) || (x =? 58) || (x =? 95)
                                    || (128 <=? x))%N) s
  end.

Definition dom_attribute_name (name : jsstring) : bool :=
  match name with
  | [] => false
  | _ :: _ => forallb (fun x => negb (ascii_whitespace x || (x =? 0) || (x =? 47)
                                      || (x =? 61) || (x =? 62))%N) name
  end.

Definition dom_names : name_rules := NameRules dom_element_name dom_attribute_name.

(** A document that holds only the container, with one registered event. *)
Definition example_state : state :=
  State [Element (u "body") [] [] []] [] 0 (u ";") [0]
        [MkListener (Some (u "click")) (Some (u "click")) (Some 7) None].

(** The same builder with three more objects of the caller, none of
    which is registered. *)
Definition example_registry_state : state :=
  State [Element (u "body") [] [] []] [] 0 (u ";") [0]
        [MkListener (Some (u "click")) (Some (u "click")) (Some 7) None;
         MkListener (Some (u "extend")) (Some (u "click")) (Some 8) None;
         MkListener (Some (u "onclose")) (Some (u "click")) (Some 9) None;
         MkListener (Some (u "ononx")) (Some (u "click")) (Some 10) None].

(** A document with the container and two detached elements. *)
Definition example_block_state : state :=
  State [Element (u "body") [] [] []; Element (u "div") [] [] [];
         Element (u "p") [] [] []] [] 0 (u ";") [] [].

Definition no_decoding (s : jsstring) : jsstring := s.

(** Templates: [a], an empty line, [b]; two indented lines before the
    block of [div]; that block alone; a block followed by a block with a
    line of markers only; two main lines; a line of markers only before a
    main line; a second line with a leading space. *)
Definition template_blank : jsstring := u "a" ++ [10; 10]%N ++ u "b".
Definition template_skipped : jsstring :=
  u ">>x" ++ [10%N] ++ u ">" ++ [10%N] ++ u "div" ++ [10%N] ++ u ">p".
Definition template_main : jsstring := u "div" ++ [10%N] ++ u ">p".
Definition template_indented : jsstring := u "a" ++ [10%N] ++ u " b".

(** *** Texts made of lines *)

(** A text that is not empty and has no whitespace at either end. *)
Definition solid (s : jsstring) : Prop := s ≠ [] ∧ trimmed s.

(** A template with three lines, the second one indented in the source
    text and the third one nested. *)
Definition template_body : jsstring :=
  u "h1(Title)" ++ [10%N] ++ u "  div" ++ [10%N] ++ u ">button(Go)".

(** *** The tag of a line *)

(** The longest prefix of [s] made of characters in [p], and what follows it. *)
Fixpoint run (p : N -> bool) (s : jsstring) : jsstring :=
  match s with
  | c :: s' => if p c then c :: run p s' else []
  | [] => []
  end.

Fixpoint after_run (p : N -> bool) (s : jsstring) : jsstring :=
  match s with
  | c :: s' => if p c then after_run p s' else s
  | [] => []
  end.

(** The first word of a line: the word characters from the first word
    character of the line on, up to the next character of another kind. *)
Fixpoint first_word (s : jsstring) : jsstring :=
  match s with
  | c :: s' => if is_word c then c :: run is_word s' else first_word s'
  | [] => []
  end.

(** Expressions that match the empty text at any position. *)
Fixpoint optional (r : regex) : bool :=
  match r with
  | Chr _ => false
  | Cat r1 r2 => optional r1 && optional r2
  | Capture _ r' => optional r'
  | Star _ | Opt _ => true
  end.

(** *** The element of a line *)

(** What one class token and one attribute item do to an element. *)
Definition class_step (c : jsstring) (e : element) : exn + element :=
  if first_is_digit c then inr e else lift (classList_add c e).

Definition attribute_name (item : jsstring) : jsstring := before_first 61 (trim item).

Definition attribute_value (item : jsstring) : jsstring :=
  before_first 61 (after_first 61 (trim item)).

Definition attribute_step (rules : name_rules) (item : jsstring) (e : element)
    : exn + element :=
  if first_is_digit item then inr e
  else lift (setAttribute rules (attribute_name item) (attribute_value item) e).

(** The diagnostics of the tokens that start with a digit. *)
Definition syntax_log (kind : string) (tokens : list jsstring) : list jsstring :=
  omap (fun n => if first_is_digit n
                 then Some (u "HTMLBuilder: invalid syntax for " ++ u kind ++ u " name '"
                            ++ n ++ u "'")
                 else None) tokens.

(** What the line gives to its element once the classes and the
    attributes are set: the id, the text and the listeners. *)
Definition finish (decode : jsstring -> jsstring) (objs : list Listener)
    (events : list nat) (line : jsstring) (e : element) : element :=
  let e3 := match line_id line ≫= (fun i => truthy (Some i)) with
            | Some i => set_id i e
            | None => e
            end in
  let e4 := match line_content line with
            | Some text => appendText (decode text) e3
            | None => e3
            end in
  set_listeners (fun ls => ls ++ resolved objs events (default [] (line_events line))) e4.

(** The element that a line with tag [tag] describes, or the exception
    that the platform throws on the way. *)
Definition materialise (rules : name_rules) (decode : jsstring -> jsstring)
    (symbol : jsstring) (objs : list Listener) (events : list nat)
    (line tag : jsstring) : exn + element :=
  match and_then (steps class_step (default [] (line_classes line)))
                 (steps (attribute_step rules) (default [] (line_attributes symbol line)))
                 (Element (to_lower tag) [] [] []) with
  | inr e => inr (finish decode objs events line e)
  | inl x => inl x
  end.

Definition materialise_log (symbol line : jsstring) : list jsstring :=
  syntax_log "class" (default [] (line_classes line))
  ++ syntax_log "attribute" (default [] (line_attributes symbol line))
  ++ syntax_log "event" (default [] (line_events line)).

(** The exception that a line makes [_createElementFromLine] throw, if
    any: the parse error when the line has no tag, and the platform's
    InvalidCharacterError when the tag is not a valid element name or when
    an attribute item that does not start with a digit has a name that is
    not a valid attribute name. *)
Definition rejection (rules : name_rules) (symbol line : jsstring) : option exn :=
  match line_tagname line with
  | None => Some (parse_error line)
  | Some tag =>
      if valid_element_name rules tag
         && forallb (fun item => first_is_digit item
                                 || valid_attribute_name rules (attribute_name item))
                    (default [] (line_attributes symbol line))
      then None
      else Some (DOMException InvalidCharacterError)
  end.

(** A line that [_createElementFromLine] turns into an element. *)
Definition accepted (rules : name_rules) (symbol line : jsstring) : Prop :=
  rejection rules symbol line = None.

(** The class tokens and the attribute items of a line that count: those
    that do not start with a digit. *)
Definition class_tokens (line : jsstring) : list jsstring :=
  filter (fun c => first_is_digit c = false) (default [] (line_classes line)).

Definition attribute_items (symbol line : jsstring) : list jsstring :=
  filter (fun item => first_is_digit item = false) (default [] (line_attributes symbol line)).

(** A class token as the platform wants it: not empty, and without ASCII
    white space. *)
Definition token_ok (t : jsstring) : Prop :=
  t ≠ [] ∧ Forall (fun c => ascii_whitespace c = false) t.

(** The attribute list of an element that has the classes [set] and
    nothing else. *)
Definition class_attr (set : list jsstring) : list (jsstring * jsstring) :=
  match set with
  | [] => []
  | _ :: _ => [(u "class", join 32 set)]
  end.

(** The attributes that a line gives to its element before the id is
    set: the classes first, then the items in their order. *)
Definition line_attribute_list (symbol line : jsstring) : list (jsstring * jsstring) :=
  foldl (fun attrs item => set_value (to_lower (attribute_name item)) (attribute_value item)
                             attrs)
        (class_attr (ordered_set (class_tokens line)))
        (attribute_items symbol line).

(** What one event name does to an element. *)
Definition event_step (objs : list Listener) (events : list nat) (n : jsstring)
    (e : element) : element :=
  if first_is_digit n then e
  else match _searchForEvent objs events n with
       | Some r => addEventListener (type (get_object objs r)) (callback (get_object objs r))
                     (options (get_object objs r)) e
       | None => e
       end.

(** The value that the items [items] leave to the attribute [q]: the
    value of the last item whose name is [q] in lower case. *)
Definition last_value (q : jsstring) (items : list jsstring) : option jsstring :=
  attribute_value <$> last (filter (fun item => to_lower (attribute_name item) = q) items).

(** A line with classes, an id, a text, attributes and events, some of
    them malformed or repeated. *)
Definition line_rich : jsstring :=
  u "tag.a.1bad.b.a#myid(Hello)[x=1;2y; Hidden ;x=2=3]@click;9;nope".

(** *** The tree that a pending list describes *)

(** The parent of a node of depth [depth] that comes after the entries
    [before]: the node of the last of these entries that is one level up,
    or the root when none is. *)
Definition parent_handle (root : nat) (before : list (nat * nat)) (depth : nat) : nat :=
  from_option fst root (last (filter (fun e => e.2 + 1 = depth) before)).

(** The nodes of [pending], in order, whose parent is [x]; [before] holds
    the entries that come before [pending]. *)
Fixpoint kids_from (root x : nat) (before pending : list (nat * nat)) : list nat :=
  match pending with
  | [] => []
  | e :: pending' =>
      (if decide (parent_handle root before e.2 = x) then [e.1] else [])
      ++ kids_from root x (before ++ [e]) pending'
  end.

Definition kids (root x : nat) (pending : list (nat * nat)) : list nat :=
  kids_from root x [] pending.

(** Every entry of depth 2 or more comes after an entry one level up. *)
Definition parents_present (pending : list (nat * nat)) : Prop :=
  ∀ i e, pending !! i = Some e -> 2 ≤ e.2 ->
         ∃ j e', j < i ∧ pending !! j = Some e' ∧ e'.2 + 1 = e.2.

(** No element of the document has a node of [pending] among its children. *)
Definition unattached (pending : list (nat * nat)) (d : document) : Prop :=
  Forall (fun el => ∀ e, e ∈ pending -> e.1 ∉ children el) d.

(** The pending list of the nesting example, over [example_tree_state]:
    a span, a div, and a paragraph under the div. *)
Definition example_pending : list (nat * nat) := [(2, 1); (3, 1); (4, 2)].

Definition example_tree_state : state :=
  State [Element (u "body") [] [] [];
         Element (u "div") [] [] [];
         Element (u "span") [] [TextNode (u "A")] [];
         Element (u "div") [] [] [];
         Element (u "p") [] [TextNode (u "B")] []] [] 0 (u ";") [] [].

(** *** The tree that the lines of a block describe *)

(** The element that an accepted line describes, taken alone. *)
Definition element_of (rules : name_rules) (decode : jsstring -> jsstring)
    (symbol : jsstring) (objs : list Listener) (events : list nat) (line : jsstring)
    : element :=
  match materialise rules decode symbol objs events line
          (default [] (line_tagname line)) with
  | inr e => e
  | inl _ => Element [] [] [] []
  end.

(** The pending list of the lines under a main line: the elements get the
    handles from [n] on, in the order of the lines. *)
Fixpoint pending_from (n : nat) (lines : list jsstring) : list (nat * nat) :=
  match lines with
  | [] => []
  | line :: lines' => (n, _level line) :: pending_from (S n) lines'
  end.


(** A container, and a block of four lines. *)
Definition example_container_state : state :=
  State [Element (u "body") [] [] []] [] 0 (u ";") [] [].

Definition example_block_lines : list jsstring :=
  [u ">span(A)"; u ">div.box"; u ">>p(B)"; u ">>p(C)"].




(** A template of two blocks after a line that is skipped. *)
Definition template_forest : jsstring :=
  u ">lost" ++ [10%N] ++ u "ul#list" ++ [10%N] ++ u ">li(one)" ++ [10%N]
  ++ u ">li(two)" ++ [10%N] ++ u ">>b(!)" ++ [10%N] ++ u "p(end)".

(** * Properties *)

(** ** Searching the pending list *)

Section IndexSearch.

Context {A : Type}.
Implicit Types (p : nat -> bool) (children : list (nat * nat)).

(** The search returns its initial value when no level satisfies [p], and
    otherwise the position of the last entry whose level does. *)
Lemma last_index_where_spec p i children (lastIndex : A) found :
  (Forall (fun c => p c.2 = false) children
   ∧ last_index_where p i children lastIndex found = lastIndex)
  ∨ (∃ k c, children !! k = Some c ∧ p c.2 = true
       ∧ (∀ k' c', k < k' -> children !! k' = Some c' -> p c'.2 = false)
       ∧ last_index_where p i children lastIndex found = found (i + k)).
Proof.
  revert i lastIndex. induction children as [|c children IH]; intros i lastIndex.
  - left. split; [constructor | reflexivity].
  - simpl. destruct (IH (S i) (if p c.2 then found i else lastIndex))
      as [[Hall Heq] | (k & c0 & Hk & Hp & Hlast & Heq)].
    + destruct (p c.2) eqn:Hpc.
      * right. exists 0, c. split; [reflexivity|]. split; [exact Hpc|]. split.
        -- intros [|k'] c' Hlt Hlook; [lia|]. simpl in Hlook.
           rewrite Forall_lookup in Hall. exact (Hall _ _ Hlook).
        -- rewrite Heq. f_equal. lia.
      * left. split; [constructor; assumption | exact Heq].
    + right. exists (S k), c0. split; [exact Hk|]. split; [exact Hp|]. split.
      * intros [|k'] c' Hlt Hlook; [lia|]. simpl in Hlook.
        apply (Hlast k'); [lia | exact Hlook].
      * rewrite Heq. f_equal. lia.
Qed.

End IndexSearch.

(** The fold of [_maxLevel] computes an upper bound of the start value and
    of all levels, which is one of them. *)
Lemma maxLevel_fold_spec (children : list (nat * nat)) (m : nat) :
  let r := foldl (fun max child => if max <? child.2 then child.2 else max) m children in
  m ≤ r ∧ Forall (fun c => c.2 ≤ r) children ∧ (r = m ∨ ∃ c, c ∈ children ∧ c.2 = r).
Proof.
  revert m. induction children as [|c children IH]; intros m; simpl.
  - split; [lia|]. split; [constructor | left; reflexivity].
  - specialize (IH (if m <? c.2 then c.2 else m)). simpl in IH.
    destruct IH as (Hle & Hall & Hor).
    destruct (Nat.ltb_spec m c.2) as [Hlt | Hge].
    + split; [lia|]. split; [constructor; [exact Hle | exact Hall] |].
      right. destruct Hor as [-> | (c' & Hin & Hc')].
      * exists c. split; [left | reflexivity].
      * exists c'. split; [right; exact Hin | exact Hc'].
    + split; [exact Hle|]. split; [constructor; [lia | exact Hall] |].
      destruct Hor as [-> | (c' & Hin & Hc')]; [left; reflexivity|].
      right. exists c'. split; [right; exact Hin | exact Hc'].
Qed.

(** [_maxLevel] of a non-empty list returns the greatest level of the list
    and leaves the state alone. *)
Lemma _maxLevel_spec (children : list (nat * nat)) (st : state) :
  children ≠ [] ->
  ∃ max, _maxLevel children st = Returned max st
    ∧ Forall (fun c => c.2 ≤ max) children
    ∧ ∃ c, c ∈ children ∧ c.2 = max.
Proof.
  destruct children as [|c0 children]; [congruence|]. intros _.
  eexists. split; [reflexivity|].
  pose proof (maxLevel_fold_spec (c0 :: children) c0.2) as (Hle & Hall & Hor).
  split; [exact Hall|].
  destruct Hor as [Heq | Hex]; [|exact Hex].
  exists c0. split; [left | symmetry; exact Heq].
Qed.

(** [_getIndexOfDeepestElement] of a non-empty list returns a valid index:
    the last one when the greatest level is 1, and otherwise the index of
    the last entry at the greatest level. *)
Lemma _getIndexOfDeepestElement_spec (children : list (nat * nat)) (st : state) :
  children ≠ [] ->
  ∃ max i e, _maxLevel children st = Returned max st
    ∧ Forall (fun c => c.2 ≤ max) children
    ∧ _getIndexOfDeepestElement children st = Returned i st
    ∧ children !! i = Some e
    ∧ (max = 1 -> i = length children - 1)
    ∧ (max ≠ 1 -> e.2 = max
                  ∧ ∀ j c, i < j -> children !! j = Some c -> c.2 ≠ max).
Proof.
  intros Hne. destruct (_maxLevel_spec children st Hne) as (max & Hmax & Hall & c & Hin & Hc).
  unfold _getIndexOfDeepestElement, bind. rewrite Hmax.
  destruct (Nat.eqb_spec max 1) as [-> | Hn1].
  - destruct (children !! (length children - 1)) as [e|] eqn:He.
    + exists 1, (length children - 1), e. repeat split; try assumption; congruence.
    + apply lookup_ge_None in He. destruct children; [congruence | simpl in He; lia].
  - destruct (last_index_where_spec (fun level => level =? max) 0 children 1 (fun i => i))
      as [[Hnone _] | (k & e & Hk & Hp & Hlast & Heq)].
    + rewrite Forall_forall in Hnone. specialize (Hnone c Hin). simpl in Hnone.
      apply Nat.eqb_neq in Hnone. congruence.
    + exists max, k, e. rewrite Heq. simpl. repeat split; try assumption.
      * congruence.
      * apply Nat.eqb_eq in Hp. exact Hp.
      * intros j c' Hlt Hj. specialize (Hlast j c' Hlt Hj). apply Nat.eqb_neq in Hlast.
        exact Hlast.
Qed.

(** C1. In the pending list of a block, which is not empty and in which
    every depth is at least 1, the entry selected for attachment holds the
    greatest depth, and it is the entry of highest index among those that
    do; when the greatest depth is 1 it is the last entry of the whole
    list. *)
Theorem deepest_element_selection (children : list (nat * nat)) (st : state) :
  children ≠ [] ->
  Forall (fun c => 1 ≤ c.2) children ->
  ∃ max i e,
    _maxLevel children st = Returned max st
    ∧ Forall (fun c => c.2 ≤ max) children
    ∧ _getIndexOfDeepestElement children st = Returned i st
    ∧ children !! i = Some e
    ∧ e.2 = max
    ∧ (∀ j c, i < j -> children !! j = Some c -> c.2 ≠ max)
    ∧ (max = 1 -> i = length children - 1).
Proof.
  intros Hne Hblock.
  destruct (_getIndexOfDeepestElement_spec children st Hne)
    as (max & i & e & Hmax & Hall & Hidx & He & H1 & Hn1).
  exists max, i, e. do 4 (split; [assumption|]).
  destruct (decide (max = 1)) as [-> | Hne1].
  - split; [|split; [|exact H1]].
    + rewrite Forall_lookup in Hall, Hblock.
      specialize (Hall _ _ He). specialize (Hblock _ _ He). simpl in *. lia.
    + intros j c Hlt Hj. specialize (H1 eq_refl). apply lookup_lt_Some in Hj. lia.
  - destruct (Hn1 Hne1) as [Hdepth Hlast].
    split; [exact Hdepth|]. split; [exact Hlast | contradiction].
Qed.

(** The nearest parent of the entry at index [i] is the last entry before
    it that is exactly one level up; there is none when no earlier entry is
    one level up. *)
Lemma _getIndexOfNearestParentElementOf_spec (children : list (nat * nat)) (i : nat)
    (deepest : nat * nat) (st : state) :
  children !! i = Some deepest ->
  ∃ r, _getIndexOfNearestParentElementOf i children st = Returned r st
    ∧ match r with
      | Some j => ∃ nearest, j < i ∧ children !! j = Some nearest
          ∧ Z.of_nat nearest.2 = (Z.of_nat deepest.2 - 1)%Z
          ∧ ∀ k c, j < k < i -> children !! k = Some c ->
                   Z.of_nat c.2 ≠ (Z.of_nat deepest.2 - 1)%Z
      | None => ∀ k c, k < i -> children !! k = Some c ->
                   Z.of_nat c.2 ≠ (Z.of_nat deepest.2 - 1)%Z
      end.
Proof.
  intros Hi. unfold _getIndexOfNearestParentElementOf, bind, at_index. rewrite Hi. simpl.
  eexists. split; [reflexivity|].
  destruct (last_index_where_spec
              (fun level => (Z.of_nat level =? Z.of_nat deepest.2 - 1)%Z)
              0 (take i children) None Some)
    as [[Hnone ->] | (k & c & Hk & Hp & Hlast & ->)].
  - intros k c Hlt Hk. rewrite Forall_lookup in Hnone.
    specialize (Hnone k c). rewrite lookup_take_lt in Hnone by exact Hlt.
    specialize (Hnone Hk). simpl in Hnone. apply Z.eqb_neq in Hnone. exact Hnone.
  - apply lookup_take_Some in Hk as [Hk Hlt]. simpl.
    exists c. split; [exact Hlt|]. split; [exact Hk|]. split; [apply Z.eqb_eq; exact Hp|].
    intros k' c' [Hlo Hhi] Hk'. apply Z.eqb_neq. apply (Hlast k' c' Hlo).
    rewrite lookup_take_lt by exact Hhi. exact Hk'.
Qed.

(** After [p.prepend(c)] the child list of [p] starts with [c] and goes on
    with the children that [p] had, [c] itself excepted. *)
Lemma prepend_lookup (p c : nat) (d : document) (e : element) :
  d !! p = Some e ->
  prepend p c d !! p
  = Some (set_childNodes (fun ns => ElemRef c :: filter (fun n => n ≠ ElemRef c) ns) e).
Proof.
  intros He. unfold prepend, detach.
  rewrite list_lookup_alter_eq, list_lookup_fmap, He. reflexivity.
Qed.

(** One turn of the reconstruction loop on a non-empty pending list: the
    indices found, and the effect on the document and on the list. *)
Lemma attach_step_spec (mainElement : nat) (children : list (nat * nat)) (st : state) :
  children ≠ [] ->
  ∃ i deepest r par,
    _getIndexOfDeepestElement children st = Returned i st
    ∧ children !! i = Some deepest
    ∧ _getIndexOfNearestParentElementOf i children st = Returned r st
    ∧ match r with
      | Some j => ∃ nearest, children !! j = Some nearest ∧ par = nearest.1
      | None => par = mainElement
      end
    ∧ attach_step mainElement children st
      = Returned (delete i children) (set_doc (prepend par deepest.1) st).
Proof.
  intros Hne.
  destruct (_getIndexOfDeepestElement_spec children st Hne)
    as (max & i & deepest & _ & _ & Hidx & Hi & _).
  destruct (_getIndexOfNearestParentElementOf_spec children i deepest st Hi)
    as (r & Hr & Hspec).
  exists i, deepest, r.
  destruct r as [j|].
  - destruct Hspec as (nearest & _ & Hj & _). exists nearest.1.
    do 3 (split; [assumption|]). split; [exists nearest; split; [exact Hj|reflexivity]|].
    unfold attach_step, bind, at_index. rewrite Hidx, Hr, Hj, Hi. reflexivity.
  - exists mainElement. do 3 (split; [assumption|]). split; [reflexivity|].
    unfold attach_step, bind, at_index. rewrite Hidx, Hr, Hi. reflexivity.
Qed.

(** C2. In one turn of the reconstruction loop the parent of the selected
    entry is the last entry strictly before it whose depth is the selected
    depth minus 1, or the block's root when there is no such entry; the
    selected node becomes the first child of that parent, ahead of the
    children the parent already had, and the selected entry alone leaves
    the pending list, in which the parent stays. *)
Theorem attach_step_nearest_parent_prepend (mainElement : nat)
    (children : list (nat * nat)) (st : state) :
  children ≠ [] ->
  mainElement < length (doc st) ->
  Forall (fun c => c.1 < length (doc st)) children ->
  ∃ i deepest par e st',
    _getIndexOfDeepestElement children st = Returned i st
    ∧ children !! i = Some deepest
    ∧ ((∃ j nearest, j < i ∧ children !! j = Some nearest
          ∧ Z.of_nat nearest.2 = (Z.of_nat deepest.2 - 1)%Z
          ∧ (∀ k c, j < k < i -> children !! k = Some c ->
                    Z.of_nat c.2 ≠ (Z.of_nat deepest.2 - 1)%Z)
          ∧ par = nearest.1
          ∧ delete i children !! j = Some nearest)
       ∨ ((∀ k c, k < i -> children !! k = Some c ->
                  Z.of_nat c.2 ≠ (Z.of_nat deepest.2 - 1)%Z)
          ∧ par = mainElement))
    ∧ doc st !! par = Some e
    ∧ attach_step mainElement children st = Returned (delete i children) st'
    ∧ length (delete i children) + 1 = length children
    ∧ doc st' !! par
      = Some (set_childNodes
                (fun ns => ElemRef deepest.1 :: filter (fun n => n ≠ ElemRef deepest.1) ns) e).
Proof.
  intros Hne Hmain Hvalid.
  destruct (attach_step_spec mainElement children st Hne)
    as (i & deepest & r & par & Hidx & Hi & Hr & Hpar & Hstep).
  destruct (_getIndexOfNearestParentElementOf_spec children i deepest st Hi)
    as (r' & Hr' & Hspec).
  rewrite Hr in Hr'. injection Hr' as <-.
  assert (Hlen : length (delete i children) + 1 = length children).
  { rewrite length_delete by eauto. apply lookup_lt_Some in Hi. lia. }
  assert (Hparlt : par < length (doc st)).
  { destruct r as [j|].
    - destruct Hpar as (nearest & Hj & ->).
      rewrite Forall_lookup in Hvalid. exact (Hvalid _ _ Hj).
    - subst par. exact Hmain. }
  destruct (lookup_lt_is_Some_2 _ _ Hparlt) as [e He].
  exists i, deepest, par, e, (set_doc (prepend par deepest.1) st).
  split; [exact Hidx|]. split; [exact Hi|]. split.
  - destruct r as [j|].
    + left. destruct Hspec as (nearest & Hlt & Hj & Hlevel & Hlast).
      destruct Hpar as (nearest' & Hj' & ->).
      rewrite Hj in Hj'. injection Hj' as <-.
      exists j, nearest. do 5 (split; [first [assumption | reflexivity]|]).
      rewrite list_lookup_delete_lt by exact Hlt. exact Hj.
    + right. split; [exact Hspec | exact Hpar].
  - split; [exact He|]. split; [exact Hstep|]. split; [exact Hlen|].
    simpl. apply prepend_lookup. exact He.
Qed.

(** ** The pattern *)

Section Matcher.

Lemma clear_lookup (gs : list nat) (x : mstate) (i : nat) :
  i ∉ gs -> captures (clear gs x) !! i = captures x !! i.
Proof.
  unfold clear. simpl. induction gs as [|g gs IH]; intros Hi; [reflexivity|].
  apply not_elem_of_cons in Hi as [Hne Hi]. simpl.
  rewrite list_lookup_insert_ne by congruence. apply IH. exact Hi.
Qed.

Lemma star_loop_carries_on (fuel : nat) (m : matcher_t) (gs : list nat) :
  (∀ x c z, m x c = Some z -> carries_on gs x c z) ->
  ∀ x c z, star_loop fuel m gs x c = Some z -> carries_on gs x c z.
Proof.
  intros Hm. induction fuel as [|fuel IH]; intros x c z; [discriminate|].
  cbn [star_loop].
  destruct (m (clear gs x) _) as [z'|] eqn:Hiter.
  - intros [= ->]. apply Hm in Hiter as (y & Hy & Hlen & Hcaps).
    destruct (length (rest y) =? length (rest x)); [discriminate|].
    apply IH in Hy as (y' & Hy' & Hlen' & Hcaps').
    exists y'. split; [exact Hy'|]. split; [simpl in Hlen; lia|].
    intros i Hi. rewrite Hcaps', Hcaps by exact Hi. apply clear_lookup. exact Hi.
  - intros Hc. exists x. split; [exact Hc|]. split; [lia | reflexivity].
Qed.

Lemma matcher_carries_on (r : regex) (x : mstate) (c : cont) (z : mstate) :
  matcher r x c = Some z -> carries_on (groups r) x c z.
Proof.
  revert x c z. induction r as [p | r1 IH1 r2 IH2 | g r IH | r IH | r IH]; intros x c z;
    cbn [matcher groups].
  - destruct (rest x) as [|ch s] eqn:Hrest; [discriminate|].
    destruct (p ch); [|discriminate]. intros Hc.
    exists (MState s (captures x)). split; [exact Hc|]. simpl. rewrite Hrest. simpl.
    split; [lia | reflexivity].
  - intros H. apply IH1 in H as (y1 & H & Hlen1 & Hcaps1).
    apply IH2 in H as (y2 & H & Hlen2 & Hcaps2).
    exists y2. split; [exact H|]. split; [lia|].
    intros i Hi. apply not_elem_of_app in Hi as [Hi1 Hi2].
    rewrite Hcaps2, Hcaps1 by assumption. reflexivity.
  - intros H. apply IH in H as (y & H & Hlen & Hcaps).
    eexists. split; [exact H|]. simpl. split; [exact Hlen|].
    intros i Hi. apply not_elem_of_cons in Hi as [Hne Hi].
    rewrite list_lookup_insert_ne by congruence. apply Hcaps. exact Hi.
  - apply star_loop_carries_on. exact IH.
  - destruct (matcher r (clear (groups r) x) _) as [z'|] eqn:Hiter.
    + intros [= ->]. apply IH in Hiter as (y & Hy & Hlen & Hcaps).
      destruct (length (rest y) =? length (rest x)); [discriminate|].
      exists y. split; [exact Hy|]. split; [exact Hlen|].
      intros i Hi. rewrite Hcaps by exact Hi. apply clear_lookup. exact Hi.
    + intros Hc. exists x. split; [exact Hc|]. split; [lia | reflexivity].
Qed.

(** *** The matcher only moves forward *)

Lemma guard_guard (x y : mstate) (c : cont) :
  length (rest y) ≤ length (rest x) -> guard y (guard x c) = guard y c.
Proof.
  intros Hle. apply functional_extensionality. intros z. unfold guard.
  destruct (Nat.leb_spec (length (rest z)) (length (rest y))); [|reflexivity].
  destruct (Nat.leb_spec (length (rest z)) (length (rest x))); [reflexivity | lia].
Qed.

(** Two continuations that agree on the states no earlier than [x] are
    the same to a forward matcher started in [x]. *)
Lemma forward_ext (m : matcher_t) (x : mstate) (c1 c2 : cont) :
  forward m ->
  (∀ y, length (rest y) ≤ length (rest x) -> c1 y = c2 y) ->
  m x c1 = m x c2.
Proof.
  intros Hm Hc. rewrite (Hm x c1), (Hm x c2). f_equal.
  apply functional_extensionality. intros y. unfold guard.
  destruct (Nat.leb_spec (length (rest y)) (length (rest x))); [|reflexivity].
  apply Hc. assumption.
Qed.

Lemma forward_guard (m : matcher_t) (x y : mstate) (c : cont) :
  forward m -> length (rest y) ≤ length (rest x) -> m y (guard x c) = m y c.
Proof.
  intros Hm Hle. rewrite (Hm y (guard x c)), (Hm y c), guard_guard by exact Hle.
  reflexivity.
Qed.

Lemma star_loop_forward (fuel : nat) (m : matcher_t) (gs : list nat) :
  forward m -> forward (star_loop fuel m gs).
Proof.
  intros Hm. induction fuel as [|fuel IH]; intros x c; [reflexivity|].
  cbn [star_loop].
  rewrite (forward_ext m (clear gs x) _
             (fun y => if length (rest y) =? length (rest x)
                       then None else star_loop fuel m gs y (guard x c)) Hm).
  - destruct (m (clear gs x) _); [reflexivity|]. unfold guard.
    rewrite Nat.leb_refl. reflexivity.
  - intros y Hle. simpl in Hle.
    destruct (length (rest y) =? length (rest x)); [reflexivity|].
    symmetry. apply (forward_guard (star_loop fuel m gs)); assumption.
Qed.

Lemma matcher_forward (r : regex) : forward (matcher r).
Proof.
  induction r as [p | r1 IH1 r2 IH2 | g r IH | r IH | r IH]; intros x c; cbn [matcher].
  - destruct (rest x) as [|ch s] eqn:Hrest; [reflexivity|].
    destruct (p ch); [|reflexivity]. unfold guard. simpl. rewrite Hrest. simpl.
    destruct (Nat.leb_spec (length s) (S (length s))); [reflexivity | lia].
  - apply (forward_ext _ _ _ _ IH1). intros y Hle. symmetry.
    apply (forward_guard _ _ _ _ IH2 Hle).
  - apply (forward_ext _ _ _ _ IH). intros y Hle. unfold guard. simpl.
    destruct (Nat.leb_spec (length (rest y)) (length (rest x))); [reflexivity | lia].
  - apply star_loop_forward. exact IH.
  - rewrite (forward_ext _ (clear (groups r) x) _
               (fun y => if length (rest y) =? length (rest x)
                         then None else guard x c y) IH).
    + destruct (matcher r (clear (groups r) x) _); [reflexivity|]. unfold guard.
      rewrite Nat.leb_refl. reflexivity.
    + intros y Hle. simpl in Hle. unfold guard.
      destruct (length (rest y) =? length (rest x)); [reflexivity|].
      destruct (Nat.leb_spec (length (rest y)) (length (rest x))); [reflexivity | lia].
Qed.

(** The turns that [matcher] allows to [star_loop] are never used up: with
    a forward atom, any number of turns above the length of the input
    gives the same result. *)
Lemma star_loop_fuel (fuel1 fuel2 : nat) (m : matcher_t) (gs : list nat)
    (x : mstate) (c : cont) :
  forward m ->
  length (rest x) < fuel1 -> length (rest x) < fuel2 ->
  star_loop fuel1 m gs x c = star_loop fuel2 m gs x c.
Proof.
  intros Hm. revert fuel2 x. induction fuel1 as [|fuel1 IH]; intros fuel2 x H1 H2; [lia|].
  destruct fuel2 as [|fuel2]; [lia|]. cbn [star_loop].
  rewrite (forward_ext m (clear gs x) _
             (fun y => if length (rest y) =? length (rest x)
                       then None else star_loop fuel2 m gs y c) Hm); [reflexivity|].
  intros y Hle. simpl in Hle.
  destruct (Nat.eqb_spec (length (rest y)) (length (rest x))); [reflexivity|].
  apply IH; lia.
Qed.

(** A pattern that opens with the group of the tag captures a non-empty
    tag, whatever follows the group. *)
Lemma tag_captured (r2 : regex) (x z : mstate) :
  1 ∉ groups r2 ->
  1 < length (captures x) ->
  matcher (Cat (Capture 1 (Plus word)) r2) x Some = Some z ->
  ∃ ch tag, captures z !! 1 = Some (Some (ch :: tag)).
Proof.
  intros Hr2 Hcaps. cbn [matcher Plus word].
  destruct (rest x) as [|ch s] eqn:Hrest; [discriminate|].
  destruct (is_word ch); [|discriminate].
  intros H. apply star_loop_carries_on in H;
    [|intros x' c' z'; apply (matcher_carries_on (Chr is_word))].
  destruct H as (y & H & Hlen & Hcapsy). simpl in Hlen.
  apply matcher_carries_on in H as (y' & [= ->] & _ & Hcaps').
  rewrite Hcaps' by exact Hr2.
  simpl. rewrite list_lookup_insert_eq.
  - unfold consumed. rewrite Hrest. simpl.
    destruct (S (length s) - length (rest y)) as [|n] eqn:Hn; [lia|].
    simpl. eauto.
  - specialize (Hcapsy 1). simpl in Hcapsy.
    apply lookup_lt_is_Some. rewrite Hcapsy by apply not_elem_of_nil.
    apply lookup_lt_is_Some. exact Hcaps.
Qed.

(** A match of the builder's pattern captures a non-empty tag. *)
Lemma REGEX_tag (x z : mstate) :
  1 < length (captures x) ->
  matcher REGEX x Some = Some z ->
  ∃ ch tag, captures z !! 1 = Some (Some (ch :: tag)).
Proof.
  unfold REGEX. apply tag_captured. cbn.
  intros H. repeat (apply elem_of_cons in H as [H | H]; [discriminate|]).
  inversion H.
Qed.

(** [exec] gives the captures of a match at some position of the input. *)
Lemma exec_Some (ngroups : nat) (r : regex) (s : jsstring) (caps : list (option jsstring)) :
  exec ngroups r s = Some caps ->
  ∃ s' y, matcher r (MState s' (replicate (S ngroups) None)) Some = Some y
    ∧ caps = <[0 := Some (consumed (MState s' (replicate (S ngroups) None)) y)]> (captures y).
Proof.
  induction s as [|c s IH]; cbn [exec].
  - destruct (matcher r (MState [] (replicate (S ngroups) None)) Some) as [y|] eqn:Hm;
      [|discriminate].
    intros [= <-]. eauto.
  - destruct (matcher r (MState (c :: s) (replicate (S ngroups) None)) Some) as [y|] eqn:Hm;
      [|exact IH].
    intros [= <-]. eauto.
Qed.

Lemma exec_REGEX_tag (line : jsstring) (caps : list (option jsstring)) :
  exec 6 REGEX line = Some caps ->
  ∃ ch tag, caps !! 1 = Some (Some (ch :: tag)).
Proof.
  intros (s' & y & Hm & ->)%exec_Some.
  apply REGEX_tag in Hm; [|simpl; lia].
  rewrite list_lookup_insert_ne by lia. exact Hm.
Qed.

(** A line in which the pattern finds anything at all has a tag. *)
Lemma group_tagname (line : jsstring) (i : nat) (v : jsstring) :
  group line i = Some v -> is_Some (line_tagname line).
Proof.
  unfold group, line_tagname, group, matches.
  destruct (exec 6 REGEX line) as [caps|] eqn:Hexec; [|simpl; discriminate].
  intros _. destruct (exec_REGEX_tag line caps Hexec) as (ch & tag & Htag).
  simpl. rewrite Htag. simpl. eauto.
Qed.

(** *** What a group can capture *)

Lemma clear_captured_in (P : N -> bool) (i : nat) (gs : list nat) (x : mstate) :
  captured_in P i (captures x) -> captured_in P i (captures (clear gs x)).
Proof.
  unfold clear. cbn [captures]. induction gs as [|g gs IH]; intros H; [exact H|].
  cbn [foldr]. intros t Ht.
  apply list_lookup_insert_Some in Ht as [(_ & Ht & _) | [_ Ht]]; [discriminate|].
  exact (IH H t Ht).
Qed.

Lemma star_loop_runs_on (fuel : nat) (r : regex) (P : N -> bool) (i : nat)
    (m : matcher_t) (gs : list nat) :
  (∀ x c z, m x c = Some z -> runs_on r P i x c z) ->
  ∀ x c z, star_loop fuel m gs x c = Some z -> runs_on (Star r) P i x c z.
Proof.
  intros Hm. induction fuel as [|fuel IH]; intros x c z; [discriminate|].
  cbn [star_loop].
  destruct (m (clear gs x) _) as [z'|] eqn:Hiter.
  - intros [= ->]. apply Hm in Hiter as (y & w & Hy & Hw & Hall & Hcap).
    destruct (length (rest y) =? length (rest x)); [discriminate|].
    apply IH in Hy as (y' & w' & Hy' & Hw' & Hall' & Hcap').
    exists y', (w ++ w'). split; [exact Hy'|]. split.
    + cbn [clear rest] in Hw. rewrite Hw, Hw', app_assoc. reflexivity.
    + split; [apply Forall_app; split; assumption|].
      intros H. apply Hcap', Hcap, clear_captured_in, H.
  - intros Hc. exists x, []. split; [exact Hc|]. split; [reflexivity|].
    split; [constructor | auto].
Qed.

(** A match consumes characters of the expression, and leaves in a group
    characters that the expression under the group can consume. *)
Lemma matcher_runs_on (r : regex) (P : N -> bool) (i : nat) :
  group_within P i r ->
  ∀ x c z, matcher r x c = Some z -> runs_on r P i x c z.
Proof.
  induction r as [p | r1 IH1 r2 IH2 | g r IH | r IH | r IH]; intros Hin x c z;
    cbn [matcher].
  - destruct (rest x) as [|ch s] eqn:Hrest; [discriminate|].
    destruct (p ch) eqn:Hp; [|discriminate]. intros Hc.
    exists (MState s (captures x)), [ch]. split; [exact Hc|].
    split; [rewrite Hrest; reflexivity|].
    split; [repeat constructor; exact Hp | auto].
  - destruct Hin as [Hin1 Hin2]. intros H.
    apply (IH1 Hin1) in H as (y1 & w1 & H & Hw1 & Hall1 & Hcap1).
    apply (IH2 Hin2) in H as (y2 & w2 & H & Hw2 & Hall2 & Hcap2).
    exists y2, (w1 ++ w2). split; [exact H|]. split.
    + rewrite Hw1, Hw2, app_assoc. reflexivity.
    + split; [|auto]. apply Forall_app. split.
      * eapply Forall_impl; [exact Hall1|]. cbn. intros ch ->. reflexivity.
      * eapply Forall_impl; [exact Hall2|]. cbn. intros ch ->. apply orb_true_r.
  - destruct Hin as [Hg Hin]. intros H.
    apply (IH Hin) in H as (y & w & H & Hw & Hall & Hcap).
    eexists _, w. split; [exact H|]. cbn [rest captures]. split; [exact Hw|].
    split; [exact Hall|]. intros Hx t Ht.
    apply list_lookup_insert_Some in Ht as [(-> & Ht & _) | [_ Ht]].
    + injection Ht as <-. unfold consumed. rewrite Hw, length_app.
      replace (length w + length (rest y) - length (rest y)) with (length w) by lia.
      rewrite take_app_length.
      eapply Forall_impl; [exact Hall|]. cbn. intros ch. apply Hg. reflexivity.
    + exact (Hcap Hx t Ht).
  - apply (star_loop_runs_on _ r). apply IH. exact Hin.
  - destruct (matcher r (clear (groups r) x) _) as [z'|] eqn:Hiter.
    + intros [= ->]. apply (IH Hin) in Hiter as (y & w & Hy & Hw & Hall & Hcap).
      destruct (length (rest y) =? length (rest x)); [discriminate|].
      exists y, w. split; [exact Hy|]. split; [exact Hw|]. split; [exact Hall|].
      intros H. apply Hcap, clear_captured_in, H.
    + intros Hc. exists x, []. split; [exact Hc|]. split; [reflexivity|].
      split; [constructor | auto].
Qed.

(** The text of the class group is made of dots, word characters and
    dashes. *)
Lemma group_classes_chars (line m : jsstring) :
  group line 2 = Some m -> Forall (fun ch => class_char ch = true) m.
Proof.
  unfold group, matches.
  destruct (exec 6 REGEX line) as [caps|] eqn:Hexec; [|discriminate].
  apply exec_Some in Hexec as (s' & y & Hm & ->). cbn [default id].
  rewrite list_lookup_insert_ne by lia. intros Hy.
  apply (matcher_runs_on REGEX class_char 2) in Hm as (y' & w & [= ->] & _ & _ & Hcap).
  - apply Hcap.
    + intros t Ht. cbn in Ht. discriminate.
    + destruct (captures y !! 2) as [[t|]|]; cbn in Hy; congruence.
  - cbn. repeat split; try (intros; discriminate); try (intros; lia).
    intros _ ch H. exact H.
Qed.

Lemma class_char_not_whitespace (ch : N) :
  class_char ch = true -> ascii_whitespace ch = false.
Proof.
  unfold class_char, ascii_whitespace, is_word, is_digit. intros H.
  repeat match goal with
         | |- context [(?a =? ?b)%N] => destruct (N.eqb_spec a b); [subst|]
         end; try reflexivity; vm_compute in H; discriminate.
Qed.

End Matcher.
(** ** Texts *)

Section Texts.

Lemma truthy_Some (v : option jsstring) (s : jsstring) : truthy v = Some s -> v = Some s.
Proof. destruct v as [[|c v]|]; simpl; congruence. Qed.

Lemma startsWith_single (c x : N) (s : jsstring) : startsWith [c] (x :: s) = (c =? x)%N.
Proof. simpl. apply andb_true_r. Qed.

(** Splitting on a one-unit separator: the first piece ends at the first
    separator, and the other pieces are those of the text after it. *)
Lemma split_scan_single (c : N) (acc s : jsstring) :
  split_scan [c] 0 acc s
  = if includes c s
    then (rev acc ++ before_first c s) :: split_scan [c] 0 [] (after_first c s)
    else [rev acc ++ s].
Proof.
  revert acc. induction s as [|x s IH]; intros acc.
  - simpl. rewrite app_nil_r. reflexivity.
  - cbn [split_scan]. rewrite startsWith_single. unfold includes. cbn [existsb].
    cbn [before_first after_first length Nat.sub].
    destruct (c =? x)%N eqn:Hcx; cbn [orb].
    + rewrite app_nil_r. reflexivity.
    + rewrite IH. fold (includes c s). destruct (includes c s).
      * simpl. rewrite <- app_assoc. reflexivity.
      * simpl. rewrite <- app_assoc. reflexivity.
Qed.

Lemma before_first_none (c : N) (s : jsstring) :
  includes c s = false -> before_first c s = s.
Proof.
  unfold includes. induction s as [|x s IH]; [reflexivity|].
  cbn [existsb before_first]. intros [Hx Hs]%orb_false_elim.
  rewrite Hx. f_equal. apply IH. exact Hs.
Qed.

Lemma after_first_none (c : N) (s : jsstring) :
  includes c s = false -> after_first c s = [].
Proof.
  unfold includes. induction s as [|x s IH]; [reflexivity|].
  cbn [existsb after_first]. intros [Hx Hs]%orb_false_elim. rewrite Hx. apply IH. exact Hs.
Qed.

Lemma before_after_first (c : N) (s : jsstring) :
  includes c s = true -> s = before_first c s ++ [c] ++ after_first c s.
Proof.
  unfold includes. induction s as [|x s IH]; [discriminate|].
  cbn [existsb before_first after_first].
  destruct (c =? x)%N eqn:Hx.
  - apply N.eqb_eq in Hx. subst x. reflexivity.
  - cbn [orb]. intros Hs. simpl. f_equal. apply IH. exact Hs.
Qed.

Lemma before_first_excludes (c : N) (s : jsstring) : includes c (before_first c s) = false.
Proof.
  unfold includes. induction s as [|x s IH]; [reflexivity|].
  cbn [before_first]. destruct (c =? x)%N eqn:Hx; [reflexivity|].
  cbn [existsb]. rewrite Hx. exact IH.
Qed.

Lemma split_single_first (c : N) (s : jsstring) :
  split [c] s !! 0 = Some (before_first c s).
Proof.
  unfold split. rewrite split_scan_single. destruct (includes c s) eqn:Hin; [reflexivity|].
  rewrite before_first_none by exact Hin. reflexivity.
Qed.

Lemma split_single_second (c : N) (s : jsstring) :
  includes c s = true ->
  split [c] s !! 1 = Some (before_first c (after_first c s)).
Proof.
  intros Hin. unfold split. rewrite split_scan_single, Hin.
  change ((?a :: ?l) !! 1) with (l !! 0).
  exact (split_single_first c (after_first c s)).
Qed.

(** The pieces of a split hold characters of the text only. *)
Lemma split_scan_chars (sep : jsstring) (skip : nat) (acc s piece : jsstring) (x : N) :
  piece ∈ split_scan sep skip acc s -> x ∈ piece -> x ∈ acc ∨ x ∈ s.
Proof.
  revert skip acc. induction s as [|c s IH]; intros skip acc Hp Hx.
  - cbn in Hp. apply list_elem_of_singleton in Hp. subst piece.
    left. apply list_elem_of_In, in_rev, list_elem_of_In in Hx. exact Hx.
  - cbn [split_scan] in Hp. destruct skip as [|k].
    + destruct (startsWith sep (c :: s)).
      * apply elem_of_cons in Hp as [-> | Hp].
        -- left. apply list_elem_of_In, in_rev, list_elem_of_In in Hx. exact Hx.
        -- destruct (IH _ _ Hp Hx) as [H | H]; [inversion H | right; right; exact H].
      * destruct (IH _ _ Hp Hx) as [H | H]; [|right; right; exact H].
        apply elem_of_cons in H as [-> | H]; [right; left | left; exact H].
    + destruct (IH _ _ Hp Hx) as [H | H]; [left; exact H | right; right; exact H].
Qed.

Lemma split_chars (sep s piece : jsstring) (x : N) :
  piece ∈ split sep s -> x ∈ piece -> x ∈ s.
Proof.
  unfold split. destruct sep as [|c sep].
  - intros Hp Hx. apply list_elem_of_fmap in Hp as (y & -> & Hy).
    apply list_elem_of_singleton in Hx. subst x. exact Hy.
  - intros Hp Hx. destruct (split_scan_chars _ _ _ _ _ _ Hp Hx) as [H | H];
      [inversion H | exact H].
Qed.

(** *** Tokens *)

Lemma tokens_scan_run (w acc s : jsstring) :
  Forall (fun c => ascii_whitespace c = false) w ->
  tokens_scan acc (w ++ s) = tokens_scan (rev w ++ acc) s.
Proof.
  intros Hw. revert acc. induction Hw as [|c w Hc _ IH]; intros acc; [reflexivity|].
  cbn [app tokens_scan]. rewrite Hc, IH. cbn [rev]. rewrite <- app_assoc. reflexivity.
Qed.

(** The tokens of a text made of tokens joined by spaces are these
    tokens. *)
Lemma tokens_scan_join (ts : list jsstring) :
  Forall token_ok ts -> tokens_scan [] (join 32 ts) = ts.
Proof.
  induction 1 as [|t ts [Hne Hws] _ IH]; [reflexivity|].
  assert (rev t ≠ []) as Hrev.
  { intros H. apply Hne. rewrite <- (rev_involutive t), H. reflexivity. }
  cbn [join]. destruct ts as [|t' ts].
  - rewrite <- (app_nil_r t) at 1. rewrite tokens_scan_run, app_nil_r by exact Hws.
    cbn [tokens_scan]. destruct (rev t) eqn:Ht; [congruence|].
    rewrite <- Ht, rev_involutive. reflexivity.
  - rewrite tokens_scan_run, app_nil_r by exact Hws.
    cbn [tokens_scan]. change (ascii_whitespace 32) with true. cbv iota.
    destruct (rev t) eqn:Ht; [congruence|].
    rewrite <- Ht, rev_involutive, IH. reflexivity.
Qed.

Lemma add_token_NoDup (set : list jsstring) (t : jsstring) :
  NoDup set -> NoDup (if decide (t ∈ set) then set else set ++ [t]).
Proof.
  intros Hnd. destruct (decide (t ∈ set)) as [Hin|Hout]; [exact Hnd|].
  apply NoDup_app. split; [exact Hnd|]. split.
  - intros x Hx Hx'. apply list_elem_of_singleton in Hx'. subst x. exact (Hout Hx).
  - apply NoDup_singleton.
Qed.

Lemma ordered_fold_spec (ts set : list jsstring) :
  NoDup set ->
  let r := foldl (fun set t => if decide (t ∈ set) then set else set ++ [t]) set ts in
  NoDup r ∧ ∀ x, x ∈ r ↔ x ∈ set ∨ x ∈ ts.
Proof.
  revert set. induction ts as [|t ts IH]; intros set Hnd; cbn [foldl].
  - split; [exact Hnd|]. intros x. split; [auto|]. intros [H|H]; [exact H | inversion H].
  - destruct (IH _ (add_token_NoDup set t Hnd)) as [Hr Hin]. split; [exact Hr|].
    intros x. rewrite Hin. destruct (decide (t ∈ set)) as [Ht|Ht].
    + split; [intros [H|H]; [left | right; right]; exact H|].
      intros [H|H]; [left; exact H|].
      apply elem_of_cons in H as [-> | H]; [left; exact Ht | right; exact H].
    + rewrite elem_of_app, list_elem_of_singleton, elem_of_cons. tauto.
Qed.

(** An ordered set holds each token of the list once. *)
Lemma ordered_set_spec (ts : list jsstring) :
  NoDup (ordered_set ts) ∧ ∀ x, x ∈ ordered_set ts ↔ x ∈ ts.
Proof.
  destruct (ordered_fold_spec ts [] (NoDup_nil_2)) as [Hnd Hin]. split; [exact Hnd|].
  intros x. unfold ordered_set. rewrite Hin. split; [intros [H|H]; [inversion H | exact H]|].
  auto.
Qed.

Lemma ordered_fold_NoDup (ts set : list jsstring) :
  NoDup (set ++ ts) ->
  foldl (fun set t => if decide (t ∈ set) then set else set ++ [t]) set ts = set ++ ts.
Proof.
  revert set. induction ts as [|t ts IH]; intros set Hnd; cbn [foldl].
  - rewrite app_nil_r. reflexivity.
  - rewrite decide_False.
    + rewrite IH by (rewrite <- app_assoc; exact Hnd). rewrite <- app_assoc. reflexivity.
    + apply NoDup_app in Hnd as (_ & Hdis & _). intros Hin. apply (Hdis t Hin). left.
Qed.

Lemma ordered_set_NoDup (ts : list jsstring) : NoDup ts -> ordered_set ts = ts.
Proof. intros Hnd. exact (ordered_fold_NoDup ts [] Hnd). Qed.

(** The class tokens of a line are not empty and have no white space. *)
Lemma line_classes_ok (line : jsstring) :
  Forall token_ok (default [] (line_classes line)).
Proof.
  unfold line_classes. destruct (truthy (group line 2)) as [m|] eqn:Hm; [|constructor].
  apply truthy_Some, group_classes_chars in Hm. cbn [fmap option_fmap option_map default].
  apply Forall_forall. intros t Ht. apply list_elem_of_filter in Ht as [Hne Ht].
  split; [exact Hne|]. apply Forall_forall. intros c Hc.
  apply class_char_not_whitespace. rewrite Forall_forall in Hm. apply Hm.
  exact (split_chars _ _ _ _ Ht Hc).
Qed.

End Texts.

(** ** Materialising one line *)

Section Materialise.

Variable rules : name_rules.
Variable decode : jsstring -> jsstring.

Lemma bind_assoc {A B C} (m : M A) (k : A -> M B) (k' : B -> M C) :
  bind (bind m k) k' = bind m (fun a => bind (k a) k').
Proof.
  apply functional_extensionality. intros st. unfold bind. destruct (m st); reflexivity.
Qed.

Lemma with_element_nil (h : nat) (e : element) (st : state) :
  doc st !! h = Some e -> with_element h e [] st = st.
Proof.
  intros He. unfold with_element. rewrite list_insert_id by exact He.
  rewrite app_nil_r. destruct st; reflexivity.
Qed.

Lemma with_element_twice (h : nat) (e1 e2 : element) (log1 log2 : list jsstring)
    (st : state) :
  with_element h e2 log2 (with_element h e1 log1 st) = with_element h e2 (log1 ++ log2) st.
Proof.
  unfold with_element. cbn [doc console parent SYMBOL_BETWEEN_ATTRIBUTES EVENTS objects].
  rewrite list_insert_insert_eq, app_assoc. reflexivity.
Qed.

(** *** Steps on the element *)

Section Steps.

Variables (objs : list Listener) (events : list nat) (h : nat).

Lemma local_ret : local_step objs events h inr [] (ret tt).
Proof.
  intros st e _ _ He. rewrite (with_element_nil h e st He). split; reflexivity.
Qed.

Lemma local_bind (f1 f2 : element -> exn + element) (log1 log2 : list jsstring)
    (m1 m2 : M unit) :
  local_step objs events h f1 log1 m1 -> local_step objs events h f2 log2 m2 ->
  local_step objs events h (and_then f1 f2) (log1 ++ log2) (m1 ;; m2).
Proof.
  intros H1 H2 st e Ho Hev He. unfold and_then, bind.
  specialize (H1 st e Ho Hev He). destruct (f1 e) as [x|e1].
  - destruct H1 as (e' & log' & -> & Hch). exists e', log'. split; [reflexivity | exact Hch].
  - destruct H1 as [-> Hch1].
    assert (doc (with_element h e1 log1 st) !! h = Some e1) as He1.
    { cbn. apply list_lookup_insert_eq. exact (lookup_lt_Some _ _ _ He). }
    specialize (H2 (with_element h e1 log1 st) e1 Ho Hev He1).
    destruct (f2 e1) as [x|e2].
    + destruct H2 as (e' & log' & -> & Hch). exists e', (log1 ++ log').
      rewrite with_element_twice. split; [reflexivity | congruence].
    + destruct H2 as [-> Hch2]. rewrite with_element_twice.
      split; [reflexivity | congruence].
Qed.

Lemma local_for_of {A} (step : A -> element -> exn + element) (log : A -> list jsstring)
    (body : A -> M unit) (l : list A) :
  (∀ a, local_step objs events h (step a) (log a) (body a)) ->
  local_step objs events h (steps step l) (concat (map log l)) (for_of l body).
Proof.
  intros Hbody. induction l as [|a l IH]; cbn [steps map concat for_of].
  - apply local_ret.
  - apply local_bind; [apply Hbody | exact IH].
Qed.

Lemma local_console (msg : jsstring) :
  local_step objs events h inr [msg] (console_error msg).
Proof.
  intros st e _ _ He. split; [|reflexivity].
  unfold console_error, modify, set_console, with_element.
  rewrite list_insert_id by exact He. reflexivity.
Qed.

Lemma local_on_element (method : element -> dom_exception + element) :
  (∀ e e', method e = inr e' -> children e' = children e) ->
  local_step objs events h (fun e => lift (method e)) [] (on_element h method).
Proof.
  intros Hch st e _ _ He. unfold on_element. rewrite He.
  destruct (method e) as [x|e'] eqn:Hm; cbn [lift].
  - exists e, []. rewrite (with_element_nil h e st He). split; reflexivity.
  - split; [|exact (Hch _ _ Hm)].
    unfold with_element, set_doc. rewrite app_nil_r. reflexivity.
Qed.

Lemma local_ext (f g : element -> exn + element) (log log' : list jsstring) (m : M unit) :
  (∀ e, f e = g e) -> log = log' ->
  local_step objs events h f log m -> local_step objs events h g log' m.
Proof. intros Hfg <- H st e Ho Hev He. rewrite <- Hfg. exact (H st e Ho Hev He). Qed.

Lemma classList_add_children (c : jsstring) (e e' : element) :
  classList_add c e = inr e' -> children e' = children e.
Proof.
  unfold classList_add. destruct (decide (c = [])); [discriminate|].
  destruct (existsb ascii_whitespace c); [discriminate|]. intros [= <-]. reflexivity.
Qed.

Lemma setAttribute_children (n v : jsstring) (e e' : element) :
  setAttribute rules n v e = inr e' -> children e' = children e.
Proof.
  unfold setAttribute. destruct (valid_attribute_name rules n); [|discriminate].
  intros [= <-]. reflexivity.
Qed.

Lemma local_add_class (c : jsstring) :
  local_step objs events h (class_step c) (syntax_log "class" [c]) (add_class h c).
Proof.
  unfold add_class, class_step, syntax_log. cbn [omap list_omap]. destruct (first_is_digit c).
  - apply local_console.
  - apply local_on_element. apply classList_add_children.
Qed.

Lemma local_add_attribute (item : jsstring) :
  local_step objs events h (attribute_step rules item) (syntax_log "attribute" [item])
    (add_attribute rules h item).
Proof.
  unfold add_attribute, attribute_step, attribute_name, attribute_value, syntax_log.
  cbn [omap list_omap]. destruct (first_is_digit item); [apply local_console|].
  change (u "=") with [61%N]. destruct (includes 61 (trim item)) eqn:Hin.
  - rewrite split_single_first, split_single_second by exact Hin. cbn [default].
    apply (local_on_element (setAttribute rules _ _)). apply setAttribute_children.
  - rewrite before_first_none, after_first_none by exact Hin.
    apply (local_on_element (setAttribute rules _ _)). apply setAttribute_children.
Qed.

Lemma local_total (f : element -> element) :
  (∀ e, children (f e) = children e) ->
  local_step objs events h (fun e => inr (f e)) [] (on_element h (fun e => inr (f e))).
Proof.
  intros Hch. apply (local_on_element (fun e => inr (f e))).
  intros e e' [= <-]. apply Hch.
Qed.

Lemma local_set_id (i : option jsstring) :
  local_step objs events h
    (fun e => inr (match i with Some i => set_id i e | None => e end)) []
    (match i with
     | Some i => on_element h (fun e => inr (set_id i e))
     | None => ret tt
     end).
Proof.
  destruct i as [i|]; [|apply local_ret]. apply (local_total (set_id i)). reflexivity.
Qed.

Lemma children_appendText (data : jsstring) (e : element) :
  children (appendText data e) = children e.
Proof. unfold children, appendText. cbn. rewrite omap_app. cbn. apply app_nil_r. Qed.

Lemma local_append_text (content : option jsstring) :
  local_step objs events h
    (fun e => inr (match content with
                   | Some text => appendText (decode text) e
                   | None => e
                   end)) []
    (match content with
     | Some text => on_element h (fun e => inr (appendText (decode text) e))
     | None => ret tt
     end).
Proof.
  destruct content as [text|]; [|apply local_ret].
  apply (local_total (appendText (decode text))). apply children_appendText.
Qed.

Lemma local_add_event (n : jsstring) :
  local_step objs events h (fun e => inr (event_step objs events n e))
    (syntax_log "event" [n]) (add_event h n).
Proof.
  unfold add_event, event_step, syntax_log. cbn [omap list_omap].
  destruct (first_is_digit n); [apply local_console|].
  intros st e Ho Hev He. unfold bind, gets. rewrite Ho, Hev.
  destruct (_searchForEvent objs events n) as [r|].
  - exact (local_total (addEventListener _ _ _) (fun _ => eq_refl) st e Ho Hev He).
  - exact (local_ret st e Ho Hev He).
Qed.

(** The loop over the event names adds the listeners that the names
    resolve to. *)
Lemma steps_events (names : list jsstring) (e : element) :
  steps (fun n e => inr (event_step objs events n e)) names e
  = inr (set_listeners (fun ls => ls ++ resolved objs events names) e).
Proof.
  revert e. induction names as [|n names IH]; intros e.
  - cbn. destruct e. unfold set_listeners. cbn. rewrite app_nil_r. reflexivity.
  - cbn [steps]. unfold and_then. rewrite IH. f_equal.
    unfold event_step, resolved. cbn [omap list_omap].
    destruct (first_is_digit n); [reflexivity|].
    destruct (_searchForEvent objs events n) as [r|]; [|reflexivity].
    destruct e. unfold set_listeners, addEventListener, set_listeners. cbn.
    rewrite <- app_assoc. reflexivity.
Qed.

End Steps.

Lemma syntax_log_concat (kind : string) (l : list jsstring) :
  concat (map (fun c => syntax_log kind [c]) l) = syntax_log kind l.
Proof.
  induction l as [|c l IH]; [reflexivity|].
  cbn [map concat]. rewrite IH. unfold syntax_log. cbn [omap list_omap].
  destruct (first_is_digit c); reflexivity.
Qed.

(** *** The element of a line, in closed form *)

(** A line without a tag makes [_createElementFromLine] throw, in the state
    in which it was called. *)
Lemma _createElementFromLine_throws (line : jsstring) (st : state) :
  line_tagname line = None ->
  _createElementFromLine rules decode line st = Thrown (parse_error line) st.
Proof.
  intros Htag. unfold _createElementFromLine, bind, gets. rewrite Htag. reflexivity.
Qed.

(** So does a line whose tag is not a valid element name, with the
    exception of the platform. *)
Lemma _createElementFromLine_invalid (line tag : jsstring) (st : state) :
  line_tagname line = Some tag ->
  valid_element_name rules tag = false ->
  _createElementFromLine rules decode line st
  = Thrown (DOMException InvalidCharacterError) st.
Proof.
  intros Htag Hval. unfold _createElementFromLine, bind, gets. rewrite Htag.
  unfold new_element, createElement. rewrite Hval. reflexivity.
Qed.

(** A line whose tag is a valid element name: [_createElementFromLine]
    stores [materialise] of the line after the elements that exist and
    writes the diagnostics of the line, or throws what [materialise] fails
    with, leaving an element that is attached to nothing. *)
Lemma _createElementFromLine_materialise (line tag : jsstring) (st : state) :
  line_tagname line = Some tag ->
  valid_element_name rules tag = true ->
  match materialise rules decode (SYMBOL_BETWEEN_ATTRIBUTES st) (objects st) (EVENTS st)
          line tag with
  | inr e =>
      _createElementFromLine rules decode line st
      = Returned (length (doc st))
          (State (doc st ++ [e])
                 (console st ++ materialise_log (SYMBOL_BETWEEN_ATTRIBUTES st) line)
                 (parent st) (SYMBOL_BETWEEN_ATTRIBUTES st) (EVENTS st) (objects st))
  | inl x =>
      ∃ e' log',
        children e' = []
        ∧ _createElementFromLine rules decode line st
          = Thrown x
              (State (doc st ++ [e']) (console st ++ log') (parent st)
                     (SYMBOL_BETWEEN_ATTRIBUTES st) (EVENTS st) (objects st))
  end.
Proof.
  intros Htag Hval.
  set (symbol := SYMBOL_BETWEEN_ATTRIBUTES st).
  set (n := length (doc st)).
  set (e0 := Element (to_lower tag) [] [] []).
  set (st0 := set_doc (fun _ => doc st ++ [e0]) st).
  pose proof (local_bind (objects st) (EVENTS st) n _ _ _ _ _ _
    (local_for_of _ _ n class_step _ (add_class n) (default [] (line_classes line))
       (local_add_class _ _ n))
    (local_bind _ _ n _ _ _ _ _ _
       (local_for_of _ _ n (attribute_step rules) _ (add_attribute rules n)
          (default [] (line_attributes symbol line)) (local_add_attribute _ _ n))
       (local_bind _ _ n _ _ _ _ _ _
          (local_set_id _ _ n (line_id line ≫= (fun i => truthy (Some i))))
          (local_bind _ _ n _ _ _ _ _ _
             (local_append_text _ _ n (line_content line))
             (local_for_of _ _ n _ _ (add_event n) (default [] (line_events line))
                (local_add_event _ _ n)))))) as Hscript.
  assert (doc st0 !! n = Some e0) as He0.
  { cbn. apply list_lookup_middle. reflexivity. }
  specialize (Hscript st0 e0 eq_refl eq_refl He0).
  assert (∀ e log, with_element n e log st0
                   = State (doc st ++ [e]) (console st ++ log) (parent st)
                           symbol (EVENTS st) (objects st)) as Hwith.
  { intros e log. unfold with_element. cbn.
    rewrite insert_app_r_alt by (fold n; lia). fold n. rewrite Nat.sub_diag. reflexivity. }
  set (script :=
         (for_of (default [] (line_classes line)) (add_class n) ;;
          for_of (default [] (line_attributes symbol line)) (add_attribute rules n) ;;
          match line_id line ≫= (fun i => truthy (Some i)) with
          | Some i => on_element n (fun e => inr (set_id i e))
          | None => ret tt
          end ;;
          match line_content line with
          | Some text => on_element n (fun e => inr (appendText (decode text) e))
          | None => ret tt
          end ;;
          for_of (default [] (line_events line)) (add_event n))%js) in Hscript.
  assert (_createElementFromLine rules decode line st
          = match script st0 with
            | Returned _ s' => Returned n s'
            | Thrown x s' => Thrown x s'
            | Diverged => Diverged
            end) as ->.
  { unfold _createElementFromLine. unfold bind at 1. unfold gets.
    rewrite Htag. fold symbol. unfold bind at 1. unfold new_element, createElement.
    rewrite Hval. fold n e0 st0.
    match goal with
    | |- bind ?a (fun _ => bind ?b (fun _ => bind ?c (fun _ => bind ?d
                    (fun _ => bind ?e ?k)))) st0 = _ =>
        transitivity (bind (bind a (fun _ => bind b (fun _ => bind c (fun _ => bind d
                                                       (fun _ => e))))) k st0);
        [rewrite !bind_assoc; reflexivity|]
    end.
    reflexivity. }
  unfold materialise. fold e0. unfold and_then at 1.
  unfold and_then at 1 in Hscript.
  destruct (steps class_step (default [] (line_classes line)) e0) as [x|e1];
    cbv beta iota in Hscript |- *.
  { destruct Hscript as (e' & log' & -> & Hch). exists e', log'.
    rewrite Hwith. split; [exact Hch | reflexivity]. }
  unfold and_then at 1 in Hscript.
  destruct (steps (attribute_step rules) (default [] (line_attributes symbol line)) e1)
    as [x|e2]; cbv beta iota in Hscript |- *.
  { destruct Hscript as (e' & log' & -> & Hch). exists e', log'.
    rewrite Hwith. split; [exact Hch | reflexivity]. }
  unfold and_then in Hscript. rewrite steps_events in Hscript.
  destruct Hscript as [-> _]. rewrite Hwith. f_equal. f_equal.
  rewrite !syntax_log_concat. reflexivity.
Qed.

(** *** Lines that the platform accepts *)

Lemma class_attr_classList (n : jsstring) (set : list jsstring) (ns : list node)
    (ls : list listener_entry) :
  Forall token_ok set -> NoDup set ->
  classList (Element n (class_attr set) ns ls) = set.
Proof.
  intros Hok Hnd. unfold classList. destruct set as [|t set]; [reflexivity|].
  unfold class_attr. cbn [attributes get_value]. rewrite decide_True by reflexivity.
  cbn [default id]. rewrite tokens_scan_join by exact Hok. apply ordered_set_NoDup, Hnd.
Qed.

(** The class tokens of a line never make the platform throw: the loop
    over them leaves the tokens that do not start with a digit, each once,
    in the [class] attribute. *)
Lemma steps_class_closed (n : jsstring) (cs set : list jsstring) (ns : list node)
    (ls : list listener_entry) :
  Forall token_ok cs -> Forall token_ok set -> NoDup set ->
  steps class_step cs (Element n (class_attr set) ns ls)
  = inr (Element n
           (class_attr (foldl (fun set t => if decide (t ∈ set) then set else set ++ [t])
                              set (filter (fun c => first_is_digit c = false) cs)))
           ns ls).
Proof.
  intros Hcs. revert set. induction Hcs as [|c cs [Hne Hws] _ IH]; intros set Hset Hnd;
    [reflexivity|].
  cbn [steps]. unfold and_then, class_step at 1.
  destruct (first_is_digit c) eqn:Hd.
  - rewrite filter_cons_False by congruence. apply IH; assumption.
  - rewrite filter_cons_True by exact Hd. cbn [foldl].
    unfold classList_add. rewrite decide_False by exact Hne.
    replace (existsb ascii_whitespace c) with false.
    2:{ symmetry. apply not_true_is_false. intros H.
        apply existsb_exists in H as (x & Hx & Hxw). rewrite Forall_forall in Hws.
        rewrite (Hws x) in Hxw; [discriminate|]. apply list_elem_of_In. exact Hx. }
    rewrite class_attr_classList by assumption. cbn [lift].
    set (set' := if decide (c ∈ set) then set else set ++ [c]).
    assert (set' ≠ []) as Hne'.
    { unfold set'. destruct (decide (c ∈ set)) as [Hin|_].
      - intros ->. inversion Hin.
      - destruct set; discriminate. }
    assert (Forall token_ok set') as Hset'.
    { unfold set'. destruct (decide (c ∈ set)); [exact Hset|].
      apply Forall_app. split; [exact Hset|]. repeat constructor; assumption. }
    assert (NoDup set') as Hnd' by (apply add_token_NoDup; exact Hnd).
    clearbody set'.
    assert (set_attributes (set_value (u "class") (join 32 set'))
              (Element n (class_attr set) ns ls)
            = Element n (class_attr set') ns ls) as ->.
    { unfold set_attributes. cbn [localName attributes childNodes listeners]. f_equal.
      assert (class_attr set' = [(u "class", join 32 set')]) as ->
        by (destruct set'; [congruence | reflexivity]).
      destruct set as [|t set]; [reflexivity|].
      unfold class_attr. cbn [set_value]. rewrite decide_True by reflexivity. reflexivity. }
    apply IH; assumption.
Qed.

(** The loop over the attribute items: it sets one attribute per item that
    does not start with a digit, when the platform accepts the names of
    all these items, and throws InvalidCharacterError otherwise. *)
Lemma steps_attribute_closed (items : list jsstring) (e : element) :
  steps (attribute_step rules) items e
  = if forallb (fun item => first_is_digit item
                            || valid_attribute_name rules (attribute_name item)) items
    then inr (set_attributes
                (fun attrs =>
                   foldl (fun attrs item =>
                            set_value (to_lower (attribute_name item)) (attribute_value item)
                              attrs)
                         attrs (filter (fun item => first_is_digit item = false) items))
                e)
    else inl (DOMException InvalidCharacterError).
Proof.
  revert e. induction items as [|item items IH]; intros e.
  - cbn. destruct e; reflexivity.
  - cbn [steps forallb]. unfold and_then, attribute_step at 1.
    destruct (first_is_digit item) eqn:Hd; cbn [orb andb].
    + rewrite filter_cons_False by congruence. apply IH.
    + rewrite filter_cons_True by exact Hd. unfold setAttribute.
      destruct (valid_attribute_name rules (attribute_name item)); cbn [lift andb];
        [|reflexivity].
      rewrite IH. destruct (forallb _ items); [|reflexivity].
      destruct e; reflexivity.
Qed.

(** What [materialise] gives, by cases on the attribute items. *)
Lemma materialise_closed (symbol : jsstring) (objs : list Listener) (events : list nat)
    (line tag : jsstring) :
  materialise rules decode symbol objs events line tag
  = if forallb (fun item => first_is_digit item
                            || valid_attribute_name rules (attribute_name item))
               (default [] (line_attributes symbol line))
    then inr (finish decode objs events line
                (Element (to_lower tag) (line_attribute_list symbol line) [] []))
    else inl (DOMException InvalidCharacterError).
Proof.
  unfold materialise, and_then.
  change (Element (to_lower tag) [] [] [])
    with (Element (to_lower tag) (class_attr []) [] []).
  rewrite (steps_class_closed (to_lower tag) _ [] [] [] (line_classes_ok line))
    by constructor.
  rewrite steps_attribute_closed.
  destruct (forallb _ _); reflexivity.
Qed.

Lemma extends_refl st : extends st st.
Proof.
  exists [], []. rewrite !app_nil_r. split; [destruct st; reflexivity | constructor].
Qed.



(** An accepted line gives the element that it describes. *)
Lemma element_of_accepted (symbol : jsstring) (objs : list Listener) (events : list nat)
    (line tag : jsstring) :
  line_tagname line = Some tag ->
  accepted rules symbol line ->
  valid_element_name rules tag = true
  ∧ materialise rules decode symbol objs events line tag
    = inr (element_of rules decode symbol objs events line)
  ∧ element_of rules decode symbol objs events line
    = finish decode objs events line
        (Element (to_lower tag) (line_attribute_list symbol line) [] []).
Proof.
  intros Htag Hacc. unfold accepted, rejection in Hacc. rewrite Htag in Hacc.
  destruct (valid_element_name rules tag); [|discriminate]. cbn [andb] in Hacc.
  split; [reflexivity|]. unfold element_of. rewrite Htag. cbn [default id].
  rewrite !materialise_closed. destruct (forallb _ _); [|discriminate].
  split; reflexivity.
Qed.


(** What [_createElementFromLine] does to a line, by cases on what the
    line is rejected for: an accepted line gives a new element, stored
    after the elements that exist; a rejected line makes it throw, and
    nothing that exists changes. *)
Lemma _createElementFromLine_outcome (line : jsstring) (st : state) :
  match rejection rules (SYMBOL_BETWEEN_ATTRIBUTES st) line with
  | None =>
      _createElementFromLine rules decode line st
      = Returned (length (doc st))
          (State (doc st ++ [element_of rules decode (SYMBOL_BETWEEN_ATTRIBUTES st)
                               (objects st) (EVENTS st) line])
                 (console st ++ materialise_log (SYMBOL_BETWEEN_ATTRIBUTES st) line)
                 (parent st) (SYMBOL_BETWEEN_ATTRIBUTES st) (EVENTS st) (objects st))
  | Some x =>
      ∃ st', _createElementFromLine rules decode line st = Thrown x st' ∧ extends st st'
  end.
Proof.
  destruct (rejection rules (SYMBOL_BETWEEN_ATTRIBUTES st) line) as [x|] eqn:Hrej.
  - unfold rejection in Hrej. destruct (line_tagname line) as [tag|] eqn:Htag.
    + destruct (valid_element_name rules tag) eqn:Hval; cbn [andb] in Hrej.
      * pose proof (_createElementFromLine_materialise line tag st Htag Hval) as Hrun.
        rewrite materialise_closed in Hrun.
        destruct (forallb _ _); [discriminate|]. injection Hrej as <-.
        destruct Hrun as (e' & log' & Hch & Hrun). eexists. split; [exact Hrun|].
        exists [e'], log'. split; [reflexivity|]. repeat constructor. exact Hch.
      * injection Hrej as <-. exists st.
        split; [apply (_createElementFromLine_invalid line tag); assumption
               | apply extends_refl].
    + injection Hrej as <-. exists st.
      split; [apply _createElementFromLine_throws; exact Htag | apply extends_refl].
  - unfold rejection in Hrej. destruct (line_tagname line) as [tag|] eqn:Htag;
      [|discriminate].
    destruct (element_of_accepted (SYMBOL_BETWEEN_ATTRIBUTES st) (objects st) (EVENTS st)
                line tag Htag) as (Hval & Hmat & _).
    { unfold accepted, rejection. rewrite Htag. exact Hrej. }
    pose proof (_createElementFromLine_materialise line tag st Htag Hval) as Hrun.
    rewrite Hmat in Hrun. exact Hrun.
Qed.

End Materialise.

(** ** The reconstruction loop *)




(** ** Blocks *)

Section Blocks.

Variable rules : name_rules.
Variable decode : jsstring -> jsstring.






(** *** The loop over the main lines runs the blocks of the lines *)

Lemma split_blocks_cons (line : jsstring) (lines : list jsstring) :
  split_blocks (line :: lines) = group_line line (split_blocks lines).
Proof. reflexivity. Qed.

Lemma split_blocks_flatten (lines : list jsstring) :
  lines = (split_blocks lines).1 ++ flatten (split_blocks lines).2.
Proof.
  induction lines as [|line lines IH]; [reflexivity|].
  rewrite split_blocks_cons. unfold group_line.
  destruct (_level line =? 0); simpl.
  - unfold flatten. simpl. f_equal. exact IH.
  - f_equal. exact IH.
Qed.



(** Lines with indentation in front of the lines add no block. *)
Lemma split_blocks_skip (pre rest : list jsstring) :
  Forall (fun l => _level l ≠ 0) pre ->
  (split_blocks (pre ++ rest)).2 = (split_blocks rest).2.
Proof.
  induction 1 as [|line pre Hline _ IH]; [reflexivity|].
  simpl. rewrite split_blocks_cons. unfold group_line.
  destruct (Nat.eqb_spec (_level line) 0); [contradiction | exact IH].
Qed.


(** The blocks of the lines from a main line on come last among the blocks
    of all the lines. *)
Lemma split_blocks_suffix (before after : list jsstring) (main : jsstring) :
  _level main = 0 ->
  ∃ bs0, (split_blocks (before ++ main :: after)).2
         = bs0 ++ (split_blocks (main :: after)).2.
Proof.
  intros Hmain. induction before as [|l before [bs0 IH]].
  - exists []. reflexivity.
  - simpl. rewrite split_blocks_cons. unfold group_line.
    destruct (_level l =? 0); simpl; rewrite IH.
    + eexists (_ :: bs0). reflexivity.
    + exists bs0. reflexivity.
Qed.

(** The index that [generate] takes for the end of a block: the index of
    the next main line, or the number of lines. *)
Lemma next_main_line (i : nat) (lines : list jsstring) :
  match mainLines_from i lines with
  | (_, next) :: _ => next
  | [] => i + length lines
  end = i + length (split_blocks lines).1.
Proof.
  revert i. induction lines as [|line lines IH]; intros i; [reflexivity|].
  simpl. rewrite split_blocks_cons. unfold group_line.
  destruct (_level line =? 0); simpl; [lia|].
  specialize (IH (S i)).
  destruct (mainLines_from (S i) lines) as [|[? ?] ?]; lia.
Qed.

Lemma split_blocks_take (lines : list jsstring) :
  take (length (split_blocks lines).1) lines = (split_blocks lines).1.
Proof.
  rewrite (split_blocks_flatten lines) at 2. apply take_app_length.
Qed.

(** The loop of [generate] over the main lines runs the blocks of the
    lines, one after the other. *)
Lemma blocks_loop_run_blocks (pre suf : list jsstring) :
  blocks_loop rules decode (pre ++ suf) (mainLines_from (length pre) suf)
  = run_blocks rules decode (split_blocks suf).2.
Proof.
  revert pre. induction suf as [|line suf IH]; intros pre; [reflexivity|].
  specialize (IH (pre ++ [line])).
  rewrite <- app_assoc, length_app in IH. simpl in IH.
  rewrite Nat.add_1_r in IH.
  simpl. rewrite split_blocks_cons. unfold group_line.
  destruct (_level line =? 0); simpl; [|exact IH].
  unfold run_blocks. simpl. fold (run_blocks rules decode (split_blocks suf).2).
  rewrite IH. f_equal. f_equal.
  pose proof (next_main_line (S (length pre)) suf) as Hnext.
  replace (match mainLines_from (S (length pre)) suf with
           | [] => length (pre ++ line :: suf)
           | (_, next) :: _ => next
           end) with (S (length pre) + length (split_blocks suf).1).
  - replace (S (length pre) + length (split_blocks suf).1 - (length pre + 1))
      with (length (split_blocks suf).1) by lia.
    replace (length pre + 1) with (length (pre ++ [line]))
      by (rewrite length_app; reflexivity).
    rewrite (cons_middle line pre suf), app_assoc, drop_app_length.
    apply split_blocks_take.
  - rewrite <- Hnext. destruct (mainLines_from (S (length pre)) suf) as [|[? ?] ?];
      [|reflexivity].
    rewrite length_app. simpl. lia.
Qed.

Lemma generate_lines_run_blocks (lines : list jsstring) :
  generate_lines rules decode lines = run_blocks rules decode (split_blocks lines).2.
Proof. exact (blocks_loop_run_blocks [] lines). Qed.


Lemma elem_of_flatten (bs : list (jsstring * list jsstring)) (l : jsstring) :
  l ∈ flatten bs -> ∃ b, b ∈ bs ∧ l ∈ b.1 :: b.2.
Proof.
  induction bs as [|b bs IH]; [intros H; inversion H|].
  change (flatten (b :: bs)) with ((b.1 :: b.2) ++ flatten bs).
  intros [Hl | Hl]%elem_of_app.
  - exists b. split; [left | exact Hl].
  - destruct (IH Hl) as (b' & Hb' & Hl'). exists b'. split; [right; exact Hb' | exact Hl'].
Qed.








(** C10. The lines that come before the first line without indentation are
    skipped: whatever they are, well-formed or not, compiling the template
    is compiling the lines from the first main line on, in the same state;
    when no line is a main line, nothing happens at all. *)
Theorem leading_nested_lines_skipped (template : jsstring) (pre rest : list jsstring)
    (st : state) :
  length (trim template) ≠ 0 ->
  _extractLinesFrom template = pre ++ rest ->
  Forall (fun l => _level l ≠ 0) pre ->
  generate rules decode template st = generate_lines rules decode rest st
  ∧ (∀ template', length (trim template') ≠ 0 -> _extractLinesFrom template' = rest ->
       generate rules decode template st = generate rules decode template' st)
  ∧ (rest = [] -> generate rules decode template st = Returned tt st).
Proof.
  intros Hlen Hlines Hpre.
  assert (Hgen : generate rules decode template st = generate_lines rules decode rest st).
  { unfold generate. destruct (decide _); [contradiction|].
    rewrite Hlines, !generate_lines_run_blocks, split_blocks_skip by exact Hpre.
    reflexivity. }
  split; [exact Hgen|]. split.
  - intros template' Hlen' Hlines'. rewrite Hgen. unfold generate.
    destruct (decide _); [contradiction|]. rewrite Hlines'. reflexivity.
  - intros ->. rewrite Hgen. reflexivity.
Qed.


End Blocks.

(** ** Detaching an element that is attached to nothing *)

Lemma filter_not_ElemRef (c : nat) (ns : list node) :
  c ∉ omap (fun n => match n with ElemRef h => Some h | TextNode _ => None end) ns ->
  filter (fun n => n ≠ ElemRef c) ns = ns.
Proof.
  induction ns as [|n ns IH]; [reflexivity|]. intros Hc.
  destruct n as [data | h]; simpl in Hc.
  - rewrite filter_cons_True by discriminate. f_equal. apply IH. exact Hc.
  - apply not_elem_of_cons in Hc as [Hne Hc].
    rewrite filter_cons_True by congruence. f_equal. apply IH. exact Hc.
Qed.

(** Detaching a node that is the child of no element changes nothing. *)
Lemma detach_unattached (c : nat) (d : document) :
  Forall (fun e => c ∉ children e) d -> detach c d = d.
Proof.
  unfold detach. induction 1 as [|e d He _ IH]; [reflexivity|].
  simpl. rewrite IH. f_equal. unfold set_childNodes.
  rewrite filter_not_ElemRef by exact He. destruct e; reflexivity.
Qed.

(** ** The tree that the reconstruction loop builds *)

Section Tree.

Implicit Types (P A B : list (nat * nat)) (d : document).

Lemma filter_none {X} (Q : X -> Prop) `{∀ x, Decision (Q x)} (l : list X) :
  Forall (fun x => ¬ Q x) l -> filter Q l = [].
Proof.
  induction 1 as [|x l Hx _ IH]; [reflexivity|].
  rewrite filter_cons_False by exact Hx. exact IH.
Qed.

Lemma parent_handle_cases (root : nat) A (depth : nat) :
  (Forall (fun e => e.2 + 1 ≠ depth) A ∧ parent_handle root A depth = root)
  ∨ (∃ e, e ∈ A ∧ e.2 + 1 = depth ∧ parent_handle root A depth = e.1).
Proof.
  unfold parent_handle.
  destruct (last (filter (fun e => e.2 + 1 = depth) A)) as [e|] eqn:Hlast.
  - right. exists e. apply last_Some_elem_of in Hlast.
    apply list_elem_of_filter in Hlast as [He Hin]. split; [exact Hin|].
    split; [exact He | reflexivity].
  - left. apply last_None in Hlast. split; [|reflexivity].
    apply Forall_forall. intros e Hin He.
    exact (filter_nil_not_elem_of _ _ e Hlast He Hin).
Qed.

Lemma parent_handle_last (root : nat) A (e : nat * nat) B (depth : nat) :
  e.2 + 1 = depth -> Forall (fun b => b.2 + 1 ≠ depth) B ->
  parent_handle root (A ++ e :: B) depth = e.1.
Proof.
  intros He HB. unfold parent_handle.
  rewrite filter_app, filter_cons_True by exact He.
  rewrite (filter_none _ B) by exact HB.
  rewrite last_snoc. reflexivity.
Qed.

Lemma parent_handle_none (root : nat) A (depth : nat) :
  Forall (fun b => b.2 + 1 ≠ depth) A -> parent_handle root A depth = root.
Proof. intros HA. unfold parent_handle. rewrite (filter_none _ A) by exact HA. reflexivity. Qed.

Lemma parent_handle_skip (root : nat) A (e : nat * nat) B (depth : nat) :
  e.2 + 1 ≠ depth ->
  parent_handle root (A ++ e :: B) depth = parent_handle root (A ++ B) depth.
Proof.
  intros He. unfold parent_handle.
  rewrite !filter_app, filter_cons_False by exact He. reflexivity.
Qed.

Lemma kids_from_app (root x : nat) (before : list (nat * nat)) A B :
  kids_from root x before (A ++ B)
  = kids_from root x before A ++ kids_from root x (before ++ A) B.
Proof.
  revert before. induction A as [|a A IH]; intros before.
  - rewrite app_nil_r. reflexivity.
  - cbn [app kids_from]. rewrite IH, <- !app_assoc. reflexivity.
Qed.

(** An entry that is no one's parent can be left out of what comes
    before. *)
Lemma kids_from_skip (root x : nat) A (e : nat * nat) (Y B : list (nat * nat)) :
  Forall (fun b => e.2 + 1 ≠ b.2) B ->
  kids_from root x (A ++ e :: Y) B = kids_from root x (A ++ Y) B.
Proof.
  intros HB. revert Y. induction HB as [|b B Hb _ IH]; intros Y; [reflexivity|].
  cbn [kids_from]. rewrite (parent_handle_skip root A e Y b.2 Hb).
  rewrite <- !app_assoc. cbn [app]. rewrite (IH (Y ++ [b])). reflexivity.
Qed.

Lemma elem_of_kids_from (root x h : nat) (before : list (nat * nat)) B :
  h ∈ kids_from root x before B ->
  ∃ B1 b B2, B = B1 ++ b :: B2 ∧ h = b.1
             ∧ parent_handle root (before ++ B1) b.2 = x.
Proof.
  revert before. induction B as [|b B IH]; intros before Hin.
  - cbn in Hin. apply elem_of_nil in Hin. contradiction.
  - cbn [kids_from] in Hin. apply elem_of_app in Hin as [Hin | Hin].
    + destruct (decide (parent_handle root before b.2 = x)) as [Hp|Hp].
      * apply list_elem_of_singleton in Hin. exists [], b, B.
        rewrite app_nil_r. split; [reflexivity|]. split; assumption.
      * apply elem_of_nil in Hin. contradiction.
    + destruct (IH _ Hin) as (B1 & b' & B2 & -> & Hh & Hp).
      exists (b :: B1), b', B2. split; [reflexivity|]. split; [exact Hh|].
      rewrite <- app_assoc in Hp. exact Hp.
Qed.

(** Two entries of a list without repeated handles that hold the same
    handle are the same entry. *)
Lemma NoDup_handles P (a b : nat * nat) :
  NoDup P.*1 -> a ∈ P -> b ∈ P -> a.1 = b.1 -> a = b.
Proof.
  intros Hnd Ha Hb Heq.
  apply list_elem_of_lookup in Ha as [i Hi]. apply list_elem_of_lookup in Hb as [j Hj].
  assert (i = j) as ->.
  { apply (NoDup_lookup P.*1 i j a.1 Hnd).
    - rewrite list_lookup_fmap, Hi. reflexivity.
    - rewrite list_lookup_fmap, Hj, Heq. reflexivity. }
  congruence.
Qed.

(** Taking the selected entry out of the pending list takes its node out
    of the children of its parent, where it came last, and changes nothing
    else. *)
Lemma kids_delete (root x : nat) P (i : nat) (e : nat * nat) :
  P !! i = Some e ->
  NoDup (root :: P.*1) ->
  parents_present P ->
  Forall (fun c => 1 ≤ c.2) P ->
  Forall (fun c => c.2 < e.2) (drop (S i) P) ->
  kids root x P
  = kids root x (delete i P)
    ++ (if decide (parent_handle root (take i P) e.2 = x) then [e.1] else []).
Proof.
  intros Hi Hnd Hpp Hpos Hafter.
  apply NoDup_cons in Hnd as [Hroot Hnd].
  pose proof (take_drop_middle P i e Hi) as HP.
  rewrite delete_take_drop. unfold kids.
  rewrite <- HP at 1. rewrite !kids_from_app. cbn [app kids_from].
  rewrite (kids_from_skip root x (take i P) e [] (drop (S i) P)).
  2:{ eapply Forall_impl; [exact Hafter|]. cbn. intros; lia. }
  rewrite (app_nil_r (take i P)), <- app_assoc. f_equal.
  destruct (decide (parent_handle root (take i P) e.2 = x)) as [Hpar|Hpar];
    [|rewrite app_nil_r; reflexivity].
  destruct (kids_from root x (take i P) (drop (S i) P)) as [|h K] eqn:HK; [reflexivity|].
  exfalso.
  assert (h ∈ kids_from root x (take i P) (drop (S i) P)) as Hin by (rewrite HK; left).
  apply elem_of_kids_from in Hin as (B1 & b & B2 & HB & _ & Hb).
  assert (b ∈ drop (S i) P) as Hbin
    by (rewrite HB; apply elem_of_app; right; left).
  assert (b.2 < e.2) as Hlt by (rewrite Forall_forall in Hafter; exact (Hafter b Hbin)).
  assert (1 ≤ b.2) as Hb1.
  { rewrite Forall_forall in Hpos. apply Hpos. rewrite <- HP.
    apply elem_of_app. right. right. exact Hbin. }
  destruct (Hpp i e Hi) as (j & e' & Hj & He' & Hdepth); [lia|].
  assert (e' ∈ take i P) as He'in.
  { apply list_elem_of_lookup. exists j. rewrite lookup_take_lt by exact Hj. exact He'. }
  assert (∀ c, c ∈ take i P ++ B1 -> c ∈ P) as Hsub.
  { intros c Hc. rewrite <- HP, HB.
    apply elem_of_app in Hc as [Hc|Hc]; apply elem_of_app;
      [left; exact Hc | right; right; apply elem_of_app; left; exact Hc]. }
  (* the parent of [e] is an entry of the list, one level above [e] *)
  destruct (parent_handle_cases root (take i P) e.2)
    as [[Hnone _] | (p & Hpin & Hpd & Hpe)].
  { rewrite Forall_forall in Hnone. exact (Hnone e' He'in Hdepth). }
  assert (p ∈ P) as HpP by (apply Hsub; apply elem_of_app; left; exact Hpin).
  (* the parent of [b] is the root, or an entry one level above [b] *)
  destruct (parent_handle_cases root (take i P ++ B1) b.2)
    as [[_ Hq] | (q & Hqin & Hqd & Hqe)].
  - apply Hroot. apply list_elem_of_fmap. exists p. split; [congruence | exact HpP].
  - assert (p = q) as ->.
    { apply (NoDup_handles P); [exact Hnd | exact HpP | apply Hsub; exact Hqin | congruence]. }
    lia.
Qed.

Lemma parents_present_delete P (i : nat) (e : nat * nat) :
  P !! i = Some e ->
  Forall (fun c => c.2 ≤ e.2) P ->
  parents_present P -> parents_present (delete i P).
Proof.
  intros Hi Hmax Hpp k c Hk Hc.
  assert (∀ j c', P !! j = Some c' -> c'.2 + 1 = c.2 -> c ∈ P -> j ≠ i) as Hne.
  { intros j c' Hj Hd Hin ->. rewrite Forall_forall in Hmax. specialize (Hmax c Hin).
    assert (c' = e) by congruence. subst. lia. }
  destruct (decide (k < i)) as [Hlt|Hge].
  - rewrite list_lookup_delete_lt in Hk by exact Hlt.
    destruct (Hpp k c Hk Hc) as (j & c' & Hj & Hc' & Hd).
    exists j, c'. split; [exact Hj|]. split; [|exact Hd].
    rewrite list_lookup_delete_lt by lia. exact Hc'.
  - rewrite list_lookup_delete_ge in Hk by lia.
    destruct (Hpp (S k) c Hk Hc) as (j & c' & Hj & Hc' & Hd).
    assert (j ≠ i) as Hji.
    { apply (Hne j c' Hc' Hd). apply list_elem_of_lookup. eauto. }
    destruct (decide (j < i)) as [Hlt|Hgt].
    + exists j, c'. split; [lia|]. split; [|exact Hd].
      rewrite list_lookup_delete_lt by exact Hlt. exact Hc'.
    + exists (j - 1), c'. split; [lia|]. split; [|exact Hd].
      rewrite list_lookup_delete_ge by lia.
      replace (S (j - 1)) with j by lia. exact Hc'.
Qed.

(** One turn of the loop, on a pending list whose depths are at least 1:
    the selected entry holds the greatest depth, every entry after it is
    less deep, and its node is prepended to the parent that the entries
    before it give. *)
Lemma attach_step_tree (root : nat) P (st : state) :
  P ≠ [] ->
  Forall (fun c => 1 ≤ c.2) P ->
  ∃ i e, P !! i = Some e
    ∧ Forall (fun c => c.2 ≤ e.2) P
    ∧ Forall (fun c => c.2 < e.2) (drop (S i) P)
    ∧ attach_step root P st
      = Returned (delete i P)
          (set_doc (prepend (parent_handle root (take i P) e.2) e.1) st).
Proof.
  intros Hne Hpos.
  destruct (_getIndexOfDeepestElement_spec P st Hne)
    as (max & i & e & _ & Hall & Hidx & Hi & H1 & Hn1).
  assert (e.2 = max ∧ Forall (fun c => c.2 < e.2) (drop (S i) P)) as [Hmax Hafter].
  { destruct (decide (max = 1)) as [-> | Hm].
    - specialize (H1 eq_refl). split.
      + rewrite Forall_lookup in Hall, Hpos.
        specialize (Hall _ _ Hi). specialize (Hpos _ _ Hi). cbn in *. lia.
      + rewrite drop_ge; [constructor | lia].
    - destruct (Hn1 Hm) as [Hd Hlast]. split; [exact Hd|].
      apply Forall_lookup. intros k c Hk. rewrite lookup_drop in Hk.
      rewrite Forall_lookup in Hall. specialize (Hall _ _ Hk). cbn in Hall.
      specialize (Hlast (S i + k) c ltac:(lia) Hk). lia. }
  exists i, e. split; [exact Hi|]. split; [rewrite Hmax; exact Hall|].
  split; [exact Hafter|].
  destruct (_getIndexOfNearestParentElementOf_spec P i e st Hi) as (r & Hr & Hspec).
  unfold attach_step, bind, at_index. rewrite Hidx, Hr.
  destruct r as [j|].
  - destruct Hspec as (nearest & Hj & Hnear & Hd & Hbetween).
    rewrite Hnear, Hi. cbn. do 3 f_equal.
    assert (take i P !! j = Some nearest) as Hj' by (rewrite lookup_take_lt; assumption).
    rewrite <- (take_drop_middle (take i P) j nearest Hj').
    symmetry. apply parent_handle_last; [lia|].
    apply Forall_lookup. intros k c Hk. rewrite lookup_drop in Hk.
    apply lookup_take_Some in Hk as [Hk Hlt].
    specialize (Hbetween (S j + k) c ltac:(lia) Hk). lia.
  - rewrite Hi. cbn. do 3 f_equal.
    symmetry. apply parent_handle_none.
    apply Forall_lookup. intros k c Hk. apply lookup_take_Some in Hk as [Hk Hlt].
    specialize (Hspec k c Hlt Hk). lia.
Qed.

Lemma unattached_step P (i : nat) (e : nat * nat) (par : nat) d :
  P !! i = Some e -> NoDup P.*1 -> unattached P d ->
  prepend par e.1 d = alter (set_childNodes (fun ns => ElemRef e.1 :: ns)) par d
  ∧ unattached (delete i P) (prepend par e.1 d).
Proof.
  intros Hi Hnd Hun.
  assert (e ∈ P) as Hin by (apply list_elem_of_lookup; eauto).
  assert (prepend par e.1 d = alter (set_childNodes (fun ns => ElemRef e.1 :: ns)) par d)
    as Heq.
  { unfold prepend. rewrite detach_unattached; [reflexivity|].
    eapply Forall_impl; [exact Hun|]. intros el Hel. exact (Hel e Hin). }
  split; [exact Heq|]. rewrite Heq. unfold unattached.
  apply Forall_alter.
  - eapply Forall_impl; [exact Hun|]. intros el Hel c Hc. apply Hel.
    exact (list_elem_of_delete_inv _ _ _ Hc).
  - intros el _ Hel c Hc. destruct el as [t at_ ns ls]. cbn.
    change (c.1 ∉ e.1 :: children (Element t at_ ns ls)).
    apply not_elem_of_cons. split.
    + intros Hce.
      assert (c ∈ P) as HcP by exact (list_elem_of_delete_inv _ _ _ Hc).
      assert (c = e) as -> by (apply (NoDup_handles P); assumption).
      pose proof (take_drop_middle P i e Hi) as HP.
      rewrite delete_take_drop in Hc. rewrite <- HP in Hnd.
      rewrite fmap_app, fmap_cons in Hnd.
      apply NoDup_app in Hnd as (_ & Hnot & Hnd). apply NoDup_cons in Hnd as [Hnot' _].
      apply elem_of_app in Hc as [Hc | Hc].
      * apply (Hnot e.1); [apply list_elem_of_fmap; eauto | left].
      * apply Hnot'. apply list_elem_of_fmap; eauto.
    + apply Hel. exact Hc.
Qed.

(** The loop on a well-formed pending list, in closed form. *)
Lemma attach_loop_tree_run (fuel root : nat) (pending : list (nat * nat)) (st : state) :
  NoDup (root :: pending.*1) ->
  Forall (fun e => 1 ≤ e.2) pending ->
  parents_present pending ->
  unattached pending (doc st) ->
  length pending ≤ fuel ->
  ∃ d', attach_loop fuel root pending st = Returned tt (set_doc (fun _ => d') st)
    ∧ ∀ x, d' !! x
           = set_childNodes (fun ns => map ElemRef (kids root x pending) ++ ns)
               <$> doc st !! x.
Proof.
  assert (∀ st, ∃ d', Returned tt st = Returned tt (set_doc (fun _ => d') st)
            ∧ ∀ x, d' !! x
                   = set_childNodes (fun ns => map ElemRef (kids root x []) ++ ns)
                       <$> doc st !! x) as Hnil.
  { intros st0. exists (doc st0). split; [destruct st0; reflexivity|].
    intros x. destruct (doc st0 !! x) as [[t at_ ns ls]|]; reflexivity. }
  revert pending st. induction fuel as [|fuel IH]; intros P st Hnd Hpos Hpp Hun Hlen.
  { destruct P; [apply Hnil | cbn in Hlen; lia]. }
  destruct P as [|c P]; [apply Hnil|].
  destruct (attach_step_tree root (c :: P) st) as (i & e & Hi & Hmax & Hafter & Hstep);
    [discriminate | exact Hpos |].
  pose proof Hnd as Hnd0. apply NoDup_cons in Hnd0 as [Hroot HndP].
  destruct (unattached_step (c :: P) i e (parent_handle root (take i (c :: P)) e.2)
              (doc st) Hi HndP Hun) as [Hprep Hun'].
  destruct (IH (delete i (c :: P))
               (set_doc (prepend (parent_handle root (take i (c :: P)) e.2) e.1) st))
    as (d' & Hloop & Hd').
  - apply NoDup_cons. rewrite list_fmap_delete. split.
    + intros Hin. apply Hroot. exact (list_elem_of_delete_inv _ _ _ Hin).
    + exact (sublist_NoDup _ _ HndP (sublist_delete _ i)).
  - apply Forall_delete. exact Hpos.
  - exact (parents_present_delete _ i e Hi Hmax Hpp).
  - exact Hun'.
  - rewrite length_delete by eauto. cbn in Hlen |- *. lia.
  - exists d'. split.
    + cbn [attach_loop]. unfold bind. rewrite Hstep, Hloop. destruct st; reflexivity.
    + intros x. rewrite Hd'. cbn [doc set_doc]. rewrite Hprep.
      rewrite (kids_delete root x (c :: P) i e Hi Hnd Hpp Hpos Hafter).
      destruct (decide (parent_handle root (take i (c :: P)) e.2 = x)) as [<-|Hne].
      * rewrite list_lookup_alter_eq.
        destruct (doc st !! _) as [[t at_ ns ls]|]; [|reflexivity].
        cbn. unfold set_childNodes. cbn. rewrite map_app, <- app_assoc. reflexivity.
      * rewrite list_lookup_alter_ne by exact Hne. rewrite app_nil_r. reflexivity.
Qed.

(** X12. The reconstruction loop builds the tree that the indentation
    describes.  Let the pending list hold distinct nodes, other than the
    root and not yet attached, with depths at least 1, each entry of depth
    2 or more coming after an entry one level up.  Then the loop returns,
    and at its end every element of the document has, ahead of the child
    nodes it had, the nodes of the entries whose parent it is, in the order
    of the list; the parent of an entry is the node of the last entry
    before it that is one level up, and the root when there is none. *)
Theorem attach_loop_tree (fuel root : nat) (pending : list (nat * nat)) (st : state) :
  NoDup (root :: pending.*1) ->
  Forall (fun e => 1 ≤ e.2) pending ->
  parents_present pending ->
  unattached pending (doc st) ->
  length pending ≤ fuel ->
  ∃ d', attach_loop fuel root pending st = Returned tt (set_doc (fun _ => d') st)
    ∧ ∀ x, d' !! x
           = set_childNodes (fun ns => map ElemRef (kids root x pending) ++ ns)
               <$> doc st !! x.
Proof. apply attach_loop_tree_run. Qed.

(** X12 on a pending list of three entries: a span and a div under the
    root, and a paragraph under the div. *)
Lemma attach_loop_tree_witness :
  ∃ d', attach_loop 3 1 example_pending example_tree_state
        = Returned tt (set_doc (fun _ => d') example_tree_state)
    ∧ ∀ x, d' !! x
           = set_childNodes (fun ns => map ElemRef (kids 1 x example_pending) ++ ns)
               <$> doc example_tree_state !! x.
Proof.
  apply (attach_loop_tree 3 1 example_pending example_tree_state).
  - apply (bool_decide_unpack (NoDup (1 :: example_pending.*1))). vm_compute. exact I.
  - repeat constructor.
  - intros i e Hi He. destruct i as [|[|[|i]]]; cbn in Hi; inversion Hi; subst; cbn in He;
      try lia. exists 1, (3, 1). split; [lia|]. split; reflexivity.
  - repeat constructor; intros e He; vm_compute; intros H; apply elem_of_nil in H;
      contradiction.
  - vm_compute. lia.
Defined.

(** In the example the root receives the span and the div, in this order,
    and the div receives the paragraph. *)
Example tree_example :
  ∃ st', attach_loop 3 1 example_pending example_tree_state = Returned tt st'
    ∧ (children <$> doc st') = [[]; [2; 3]; []; [4]; []].
Proof. eexists. split; vm_compute; reflexivity. Qed.

End Tree.

(** ** Trimming and splitting *)

Section Trimming.

Lemma trimStart_nonws_head (s : jsstring) : nonws_head (trimStart s).
Proof.
  induction s as [|c s IH]; [exact I|]. cbn [trimStart].
  destruct (is_whitespace c) eqn:Hc; [exact IH | exact Hc].
Qed.

Lemma trimStart_fix (s : jsstring) : nonws_head s -> trimStart s = s.
Proof. destruct s as [|c s]; [reflexivity|]. cbn [nonws_head trimStart]. intros ->. reflexivity. Qed.

Lemma trimStart_snoc (l : jsstring) (c : N) :
  is_whitespace c = false -> ∃ r, trimStart (l ++ [c]) = r ++ [c].
Proof.
  intros Hc. induction l as [|x l IH].
  - exists []. cbn [app trimStart]. rewrite Hc. reflexivity.
  - cbn [app trimStart]. destruct (is_whitespace x); [exact IH|].
    exists (x :: l). reflexivity.
Qed.

Lemma trim_trimmed (s : jsstring) : trimmed (trim s).
Proof.
  unfold trim, trimEnd, trimmed. split.
  - pose proof (trimStart_nonws_head s) as Hhead.
    destruct (trimStart s) as [|c t]; [exact I|]. cbn [nonws_head] in Hhead.
    cbn [rev]. destruct (trimStart_snoc (rev t) c Hhead) as [r ->].
    rewrite rev_app_distr. exact Hhead.
  - rewrite rev_involutive. apply trimStart_nonws_head.
Qed.

Lemma trimmed_trim (s : jsstring) : trimmed s -> trim s = s.
Proof.
  intros [Hhead Hlast]. unfold trim, trimEnd.
  rewrite (trimStart_fix s Hhead), (trimStart_fix (rev s) Hlast). apply rev_involutive.
Qed.

Lemma trim_idem (s : jsstring) : trim (trim s) = trim s.
Proof. apply trimmed_trim, trim_trimmed. Qed.

(** Whitespace added at the end of a trimmed text is trimmed away. *)
Lemma trim_snoc (s : jsstring) (c : N) :
  trimmed s -> is_whitespace c = true -> trim (s ++ [c]) = s.
Proof.
  intros [Hhead Hlast] Hc. unfold trim, trimEnd. destruct s as [|x s].
  - cbn [app trimStart]. rewrite Hc. reflexivity.
  - cbn [nonws_head] in Hhead. cbn [app trimStart]. rewrite Hhead.
    change (x :: s ++ [c]) with ((x :: s) ++ [c]).
    rewrite rev_app_distr. cbn [rev app trimStart]. rewrite Hc.
    change (rev s ++ [x]) with (rev (x :: s)).
    rewrite (trimStart_fix _ Hlast). apply rev_involutive.
Qed.


(** ... which, each followed by the separator, make up the text followed
    by the separator. *)
Lemma split_scan_concat (c : N) (acc s : jsstring) :
  concat (map (fun l => l ++ [c]) (split_scan [c] 0 acc s)) = rev acc ++ s ++ [c].
Proof.
  revert acc. induction s as [|x s IH]; intros acc.
  - cbn [split_scan map concat]. rewrite app_nil_r. reflexivity.
  - cbn [split_scan length Nat.sub]. rewrite startsWith_single.
    destruct (N.eqb_spec c x) as [<- | Hne].
    + cbn [map concat]. rewrite IH. cbn [rev app]. rewrite <- app_assoc. reflexivity.
    + rewrite IH. cbn [rev]. rewrite <- !app_assoc. reflexivity.
Qed.

Lemma map_fixed {A} (f : A -> A) (l : list A) :
  Forall (fun x => f x = x) l -> map f l = l.
Proof. induction 1 as [|x l Hx _ IH]; [reflexivity|]. simpl. rewrite Hx, IH. reflexivity. Qed.

Lemma indent_loop_zero (lines : list jsstring) (newTemplate : jsstring) :
  indent_loop 0 lines newTemplate
  = inr (newTemplate ++ concat (map (fun l => l ++ [10%N]) lines)).
Proof.
  revert newTemplate. induction lines as [|line lines IH]; intros newTemplate.
  - simpl. rewrite app_nil_r. reflexivity.
  - cbn [indent_loop]. change (0 <? 0)%Z with false. cbv iota.
    rewrite IH. change (repeat1 62 (Z.to_nat 0)) with (@nil N).
    cbn [map concat app]. rewrite <- !app_assoc. reflexivity.
Qed.

(** C5, amended. [indentTemplate] with 0 levels raises no error and
    returns the lines of the trimmed template, each trimmed, joined by line
    feeds; this is the trimmed template whenever no line of the trimmed
    template has whitespace at either end. *)
Theorem indentTemplate_zero (template : jsstring) :
  Forall (fun l => trim l = l) (split [10%N] (trim template)) ->
  indentTemplate template 0 = inr (trim template)
  ∧ ∀ t, indentTemplate t 0
         = inr (trim (concat (map (fun l => l ++ [10%N]) (_extractLinesFrom t)))).
Proof.
  intros Hlines.
  assert (Hgen : ∀ t, indentTemplate t 0
                      = inr (trim (concat (map (fun l => l ++ [10%N])
                                             (_extractLinesFrom t))))).
  { intros t. unfold indentTemplate. rewrite indent_loop_zero. reflexivity. }
  split; [|exact Hgen].
  rewrite Hgen. unfold _extractLinesFrom. rewrite (map_fixed trim _ Hlines).
  unfold split. rewrite split_scan_concat. cbn [rev app]. f_equal.
  apply trim_snoc; [apply trim_trimmed | reflexivity].
Qed.

End Trimming.

(** ** Indenting a template *)

Section Indent.

Variable rules : name_rules.
Variable decode : jsstring -> jsstring.

Lemma split_scan_not_nil (sep : jsstring) (skip : nat) (acc s : jsstring) :
  split_scan sep skip acc s ≠ [].
Proof.
  revert skip acc. induction s as [|x s IH]; intros skip acc; [discriminate|].
  cbn [split_scan]. destruct skip; [|apply IH].
  destruct (startsWith sep (x :: s)); [discriminate | apply IH].
Qed.

(** There is always at least one line. *)
Lemma _extractLinesFrom_not_nil (template : jsstring) : _extractLinesFrom template ≠ [].
Proof.
  unfold _extractLinesFrom, split.
  pose proof (split_scan_not_nil [10%N] 0 [] (trim template)) as H.
  destruct (split_scan _ _ _ _); [congruence | discriminate].
Qed.

Lemma indent_loop_nonneg (indentation : Z) (lines : list jsstring) (newTemplate : jsstring) :
  (0 ≤ indentation)%Z ->
  indent_loop indentation lines newTemplate
  = inr (newTemplate
         ++ concat (map (fun l => (repeat1 62 (Z.to_nat indentation) ++ l) ++ [10%N]) lines)).
Proof.
  intros Hpos. revert newTemplate. induction lines as [|line lines IH]; intros newTemplate.
  - simpl. rewrite app_nil_r. reflexivity.
  - cbn [indent_loop]. destruct (Z.ltb_spec indentation 0) as [Hneg|_]; [lia|].
    rewrite IH. cbn [map concat]. rewrite <- !app_assoc. reflexivity.
Qed.

(** X4. [indentTemplate] with a negative number of levels throws a
    RangeError, whatever the template. *)
Theorem indentTemplate_negative (template : jsstring) (indentation : Z) :
  (indentation < 0)%Z ->
  indentTemplate template indentation = inl RangeError.
Proof.
  intros Hneg. unfold indentTemplate.
  pose proof (_extractLinesFrom_not_nil template) as Hlines.
  destruct (_extractLinesFrom template) as [|line lines]; [congruence|].
  cbn [indent_loop]. destruct (Z.ltb_spec indentation 0); [reflexivity | lia].
Qed.

Lemma indentTemplate_negative_witness :
  (-1 < 0)%Z ∧ indentTemplate template_body (-1) = inl RangeError.
Proof. split; [lia | apply (indentTemplate_negative template_body (-1)); lia]. Defined.

(** *** Splitting what was joined *)

Lemma split_scan_app (c : N) (acc l s : jsstring) :
  c ∉ l -> split_scan [c] 0 acc (l ++ s) = split_scan [c] 0 (rev l ++ acc) s.
Proof.
  revert acc. induction l as [|x l IH]; intros acc Hc; [reflexivity|].
  apply not_elem_of_cons in Hc as [Hx Hl].
  cbn [app split_scan]. rewrite startsWith_single.
  destruct (N.eqb_spec c x) as [-> | _]; [congruence|].
  rewrite IH by exact Hl. cbn [rev]. rewrite <- app_assoc. reflexivity.
Qed.

Lemma split_scan_end (c : N) (acc l : jsstring) :
  c ∉ l -> split_scan [c] 0 acc l = [rev acc ++ l].
Proof.
  intros Hc. rewrite <- (app_nil_r l) at 1. rewrite split_scan_app by exact Hc.
  cbn [split_scan]. rewrite rev_app_distr, rev_involutive. reflexivity.
Qed.

(** Lines without [c], joined by [c], are found again by splitting. *)
Lemma split_join (c : N) (ls : list jsstring) :
  ls ≠ [] -> Forall (fun l => c ∉ l) ls -> split [c] (join c ls) = ls.
Proof.
  intros Hne Hall. unfold split.
  induction Hall as [|l ls Hl Hls IH]; [congruence|].
  destruct ls as [|l' ls].
  - cbn [join]. apply (split_scan_end c [] l Hl).
  - change (join c (l :: l' :: ls)) with (l ++ c :: join c (l' :: ls)).
    rewrite split_scan_app by exact Hl. cbn [split_scan length Nat.sub].
    rewrite startsWith_single, N.eqb_refl, app_nil_r, rev_involutive.
    f_equal. apply IH. discriminate.
Qed.

Lemma concat_join (c : N) (ls : list jsstring) :
  ls ≠ [] -> concat (map (fun l => l ++ [c]) ls) = join c ls ++ [c].
Proof.
  intros Hne. induction ls as [|l ls IH]; [congruence|].
  destruct ls as [|l' ls].
  - simpl. rewrite app_nil_r. reflexivity.
  - change (join c (l :: l' :: ls)) with (l ++ c :: join c (l' :: ls)).
    specialize (IH ltac:(discriminate)). cbn [map concat] in IH |- *. rewrite IH.
    rewrite <- !app_assoc. reflexivity.
Qed.

Lemma nonws_head_app (s1 s2 : jsstring) : s1 ≠ [] -> nonws_head s1 -> nonws_head (s1 ++ s2).
Proof. destruct s1; [congruence | intros _ H; exact H]. Qed.

(** Solid lines joined by a line feed make a solid text. *)
Lemma join_solid (ls : list jsstring) :
  ls ≠ [] -> Forall solid ls -> solid (join 10 ls).
Proof.
  intros Hne Hall. induction Hall as [|l ls Hl Hls IH]; [congruence|].
  destruct ls as [|l' ls]; [exact Hl|].
  change (join 10 (l :: l' :: ls)) with (l ++ 10%N :: join 10 (l' :: ls)).
  destruct Hl as [Hlne [Hhead _]].
  destruct IH as [Hjne [_ Hlast]]; [discriminate|].
  split; [destruct l; [congruence | discriminate]|]. split.
  - apply nonws_head_app; assumption.
  - rewrite rev_app_distr. cbn [rev]. rewrite <- app_assoc.
    apply nonws_head_app; [|exact Hlast].
    intros H. apply (f_equal (@rev N)) in H. rewrite rev_involutive in H. exact (Hjne H).
Qed.

Lemma elem_of_rev {A} (x : A) (l : list A) : x ∈ rev l ↔ x ∈ l.
Proof. rewrite !list_elem_of_In. symmetry. apply in_rev. Qed.

Lemma rev_replicate {A} (n : nat) (x : A) : rev (replicate n x) = replicate n x.
Proof.
  induction n as [|n IH]; [reflexivity|]. cbn [replicate rev]. rewrite IH.
  clear IH. induction n as [|n IH]; [reflexivity|]. simpl. rewrite IH. reflexivity.
Qed.

Lemma elem_of_trimStart (x : N) (s : jsstring) : x ∈ trimStart s -> x ∈ s.
Proof.
  induction s as [|c s IH]; [intros H; exact H|]. cbn [trimStart].
  destruct (is_whitespace c); [intros H; right; exact (IH H) | intros H; exact H].
Qed.

Lemma elem_of_trim (x : N) (s : jsstring) : x ∈ trim s -> x ∈ s.
Proof.
  unfold trim, trimEnd. intros H. rewrite elem_of_rev in H.
  apply elem_of_trimStart in H. rewrite elem_of_rev in H.
  apply elem_of_trimStart in H. exact H.
Qed.

Lemma split_scan_no_sep (c : N) (acc s : jsstring) :
  c ∉ acc -> Forall (fun l => c ∉ l) (split_scan [c] 0 acc s).
Proof.
  revert acc. induction s as [|x s IH]; intros acc Hacc.
  - cbn [split_scan]. constructor; [|constructor]. rewrite elem_of_rev. exact Hacc.
  - cbn [split_scan length Nat.sub]. rewrite startsWith_single.
    destruct (N.eqb_spec c x) as [<- | Hne].
    + constructor; [rewrite elem_of_rev; exact Hacc|]. apply IH. apply not_elem_of_nil.
    + apply IH. apply not_elem_of_cons. split; assumption.
Qed.

(** The lines of a template hold no line feed. *)
Lemma _extractLinesFrom_no_line_feed (template : jsstring) :
  Forall (fun l => 10%N ∉ l) (_extractLinesFrom template).
Proof.
  unfold _extractLinesFrom, split. apply Forall_map.
  eapply Forall_impl; [apply (split_scan_no_sep 10 [] (trim template)), not_elem_of_nil|].
  intros l Hl H. apply Hl. exact (elem_of_trim _ _ H).
Qed.

Lemma trimmed_nil : trimmed [].
Proof. split; exact I. Qed.

(** A trimmed line behind at least one marker is solid. *)
Lemma marked_solid (n : nat) (l : jsstring) :
  1 ≤ n -> trimmed l -> solid (repeat1 62 n ++ l).
Proof.
  intros Hn [_ Hlast]. destruct n as [|n]; [lia|]. split; [discriminate|]. split.
  - reflexivity.
  - rewrite rev_app_distr. destruct (rev l) as [|x r] eqn:Hr.
    + unfold repeat1. cbn [app]. rewrite rev_replicate. reflexivity.
    + exact Hlast.
Qed.

Lemma _level_markers (n : nat) (l : jsstring) :
  _level (repeat1 62 n ++ l) = n + _level l.
Proof. induction n as [|n IH]; [reflexivity|]. simpl. rewrite <- IH. reflexivity. Qed.

(** [indentTemplate] with at least one level, line by line. *)
Lemma indentTemplate_lines (template : jsstring) (indentation : Z) :
  (1 ≤ indentation)%Z ->
  let marked := map (fun l => repeat1 62 (Z.to_nat indentation) ++ l)
                    (_extractLinesFrom template) in
  indentTemplate template indentation = inr (join 10 marked)
  ∧ solid (join 10 marked)
  ∧ _extractLinesFrom (join 10 marked) = marked.
Proof.
  intros Hpos marked.
  assert (Hne : marked ≠ []).
  { subst marked. pose proof (_extractLinesFrom_not_nil template).
    destruct (_extractLinesFrom template); [congruence | discriminate]. }
  assert (Hsolid : Forall solid marked).
  { subst marked. apply Forall_map. unfold _extractLinesFrom. apply Forall_map.
    apply Forall_forall. intros l _. apply marked_solid; [lia | apply trim_trimmed]. }
  assert (Hnolf : Forall (fun l => 10%N ∉ l) marked).
  { subst marked. apply Forall_map.
    eapply Forall_impl; [apply _extractLinesFrom_no_line_feed|].
    intros l Hl [H | H]%elem_of_app; [|exact (Hl H)].
    unfold repeat1 in H. apply elem_of_replicate in H as [H _]. discriminate. }
  pose proof (join_solid marked Hne Hsolid) as Hjoin.
  split; [|split; [exact Hjoin|]].
  - unfold indentTemplate. rewrite indent_loop_nonneg by lia. cbn [app].
    rewrite <- (map_map (fun l => repeat1 62 (Z.to_nat indentation) ++ l)
                        (fun l => l ++ [10%N])).
    fold marked. rewrite concat_join by exact Hne.
    rewrite trim_snoc; [reflexivity | exact (proj2 Hjoin) | reflexivity].
  - unfold _extractLinesFrom. rewrite (trimmed_trim _ (proj2 Hjoin)).
    rewrite split_join by assumption.
    apply map_fixed. eapply Forall_impl; [exact Hsolid|].
    intros l [_ Hl]. apply trimmed_trim. exact Hl.
Qed.

(** X5. [indentTemplate] with at least one level puts that many markers in
    front of every line of the template, the lines being those that
    [_extractLinesFrom] gives: read again, the result has the same lines,
    each one that many levels deeper. *)
Theorem indentTemplate_shifts_lines (template : jsstring) (indentation : Z) :
  (1 ≤ indentation)%Z ->
  ∃ r,
    indentTemplate template indentation = inr r
    ∧ _extractLinesFrom r
      = map (fun l => repeat1 62 (Z.to_nat indentation) ++ l) (_extractLinesFrom template)
    ∧ map _level (_extractLinesFrom r)
      = map (fun l => Z.to_nat indentation + _level l) (_extractLinesFrom template).
Proof.
  intros Hpos. destruct (indentTemplate_lines template indentation Hpos) as (Hrun & _ & Hlines).
  eexists. split; [exact Hrun|]. split; [exact Hlines|].
  rewrite Hlines, map_map. apply map_ext. intros l. apply _level_markers.
Qed.

Lemma indentTemplate_shifts_lines_witness :
  (1 ≤ 2)%Z
  ∧ ∃ r,
      indentTemplate template_body 2 = inr r
      ∧ _extractLinesFrom r
        = map (fun l => repeat1 62 (Z.to_nat 2) ++ l) (_extractLinesFrom template_body)
      ∧ map _level (_extractLinesFrom r)
        = map (fun l => Z.to_nat 2 + _level l) (_extractLinesFrom template_body).
Proof.
  split; [lia|]. apply (indentTemplate_shifts_lines template_body 2). lia.
Defined.

(** X6. A template indented by at least one level has no main line:
    compiled on its own it appends nothing and raises nothing, whatever
    its lines are. *)
Theorem indented_template_compiles_to_nothing (template : jsstring) (indentation : Z)
    (st : state) :
  (1 ≤ indentation)%Z ->
  ∃ r, indentTemplate template indentation = inr r
    ∧ generate rules decode r st = Returned tt st.
Proof.
  intros Hpos. destruct (indentTemplate_lines template indentation Hpos) as (Hrun & _ & Hlines).
  eexists. split; [exact Hrun|].
  unfold generate. destruct (decide _); [reflexivity|].
  rewrite Hlines, generate_lines_run_blocks.
  rewrite <- (app_nil_r (map _ _)), split_blocks_skip; [reflexivity|].
  apply Forall_map. apply Forall_forall. intros l _. simpl.
  rewrite _level_markers. lia.
Qed.

Lemma trimStart_whitespace (s : jsstring) :
  Forall (fun c => is_whitespace c = true) s -> trimStart s = [].
Proof. induction 1 as [|c s Hc _ IH]; [reflexivity|]. cbn [trimStart]. rewrite Hc. exact IH. Qed.

(** X7. A template made of whitespace only, the empty template among
    them, compiles to nothing: [generate] returns and the builder and the
    document are as they were. *)
Theorem whitespace_template_compiles_to_nothing (template : jsstring) (st : state) :
  Forall (fun c => is_whitespace c = true) template ->
  generate rules decode template st = Returned tt st.
Proof.
  intros Hws. unfold generate, trim, trimEnd.
  rewrite (trimStart_whitespace _ Hws). reflexivity.
Qed.


End Indent.

(** ** The tree that a block builds *)

Section BlockTree.

Variable rules : name_rules.
Variable decode : jsstring -> jsstring.


Lemma children_append (h : nat) (e : element) :
  children (set_childNodes (fun ns => ns ++ [ElemRef h]) e) = children e ++ [h].
Proof.
  destruct e as [t at_ ns ls]. unfold children. cbn [childNodes set_childNodes].
  induction ns as [|[text|k] ns IH]; cbn; [reflexivity | exact IH | f_equal; exact IH].
Qed.



Lemma pending_from_length (n : nat) (lines : list jsstring) :
  length (pending_from n lines) = length lines.
Proof. revert n. induction lines as [|l lines IH]; intros n; cbn; [|rewrite IH]; reflexivity. Qed.













(** *** The forest that a template builds *)





(** *** Templates without indentation *)






End BlockTree.

(** ** Events, attributes and lines *)

Section Lines.

Variable rules : name_rules.
Variable decode : jsstring -> jsstring.

(** A line that names an event has a tag. *)
Lemma line_events_tagname (line n : jsstring) :
  n ∈ default [] (line_events line) -> is_Some (line_tagname line).
Proof.
  unfold line_events. destruct (truthy (group line 6)) as [v|] eqn:Hv; simpl.
  - intros _. apply truthy_Some in Hv. exact (group_tagname line 6 v Hv).
  - intros H. inversion H.
Qed.

(** A name that the registry does not know brings no listener. *)
Lemma resolved_unknown (objs : list Listener) (events : list nat) (n : jsstring)
    (names : list jsstring) :
  _searchForEvent objs events n = None ->
  resolved objs events names = resolved objs events (filter (fun m => m ≠ n) names).
Proof.
  intros Hn. unfold resolved. induction names as [|m names IH]; [reflexivity|].
  destruct (decide (m = n)) as [-> | Hne].
  - rewrite filter_cons_False by (intros H; apply H; reflexivity).
    cbn [omap list_omap]. rewrite Hn. destruct (first_is_digit n); exact IH.
  - rewrite filter_cons_True by exact Hne. cbn [omap list_omap].
    destruct (if first_is_digit m then None else _); [f_equal|]; exact IH.
Qed.

(** The element that [finish] gives from an element that has neither
    children nor listeners. *)
Lemma finish_fields (objs : list Listener) (events : list nat) (line tag : jsstring)
    (attrs : list (jsstring * jsstring)) :
  finish decode objs events line (Element tag attrs [] [])
  = Element tag
      (match line_id line ≫= (fun i => truthy (Some i)) with
       | Some i => set_value (u "id") i attrs
       | None => attrs
       end)
      (match line_content line with
       | Some text => [TextNode (decode text)]
       | None => []
       end)
      (resolved objs events (default [] (line_events line))).
Proof.
  unfold finish. cbv zeta.
  destruct (line_id line ≫= _), (line_content line); reflexivity.
Qed.

(** C8, amended. A line that names an event unknown to the registry has a
    tag.  When the platform accepts the tag as an element name and the
    names of the attribute items as attribute names, the line is
    materialised without an exception, and its element has all that the
    line describes (the tag in lower case, the attributes of the classes
    and the items, the id, the text) with the listeners of the other
    names of the line: the unknown name brings none.  Otherwise the
    platform's InvalidCharacterError is thrown, whatever the registry
    holds. *)
Theorem unknown_event_ignored (line n : jsstring) (st : state) :
  n ∈ default [] (line_events line) ->
  _searchForEvent (objects st) (EVENTS st) n = None ->
  ∃ tag,
    line_tagname line = Some tag
    ∧ match rejection rules (SYMBOL_BETWEEN_ATTRIBUTES st) line with
      | Some x =>
          x = DOMException InvalidCharacterError
          ∧ ∃ st', _createElementFromLine rules decode line st = Thrown x st'
                   ∧ extends st st'
      | None =>
          _createElementFromLine rules decode line st
          = Returned (length (doc st))
              (State (doc st
                      ++ [Element (to_lower tag)
                            (match line_id line ≫= (fun i => truthy (Some i)) with
                             | Some i =>
                                 set_value (u "id") i
                                   (line_attribute_list (SYMBOL_BETWEEN_ATTRIBUTES st) line)
                             | None => line_attribute_list (SYMBOL_BETWEEN_ATTRIBUTES st) line
                             end)
                            (match line_content line with
                             | Some text => [TextNode (decode text)]
                             | None => []
                             end)
                            (resolved (objects st) (EVENTS st)
                               (filter (fun m => m ≠ n) (default [] (line_events line))))])
                     (console st ++ materialise_log (SYMBOL_BETWEEN_ATTRIBUTES st) line)
                     (parent st) (SYMBOL_BETWEEN_ATTRIBUTES st) (EVENTS st) (objects st))
      end.
Proof.
  intros Hin Hunknown.
  destruct (line_events_tagname line n Hin) as [tag Htag].
  exists tag. split; [exact Htag|].
  pose proof (_createElementFromLine_outcome rules decode line st) as Hrun.
  destruct (rejection rules (SYMBOL_BETWEEN_ATTRIBUTES st) line) as [x|] eqn:Hrej.
  - split; [|exact Hrun]. unfold rejection in Hrej. rewrite Htag in Hrej.
    destruct (_ && _); congruence.
  - rewrite Hrun.
    destruct (element_of_accepted rules decode (SYMBOL_BETWEEN_ATTRIBUTES st) (objects st)
                (EVENTS st) line tag Htag Hrej) as (_ & _ & ->).
    rewrite finish_fields, <- (resolved_unknown _ _ n) by exact Hunknown. reflexivity.
Qed.

(** *** Attributes *)

Lemma get_value_set_value (q n v : jsstring) (attrs : list (jsstring * jsstring)) :
  get_value q (set_value n v attrs) = if decide (n = q) then Some v else get_value q attrs.
Proof.
  induction attrs as [|[n' v'] attrs IH]; cbn [set_value get_value].
  - reflexivity.
  - destruct (decide (n' = n)) as [-> | Hne]; cbn [get_value].
    + destruct (decide (n = q)); reflexivity.
    + rewrite IH. destruct (decide (n' = q)) as [-> | Hq]; [|reflexivity].
      rewrite decide_False by congruence. reflexivity.
Qed.

(** Setting a value adds the name at the end, if it is not there. *)
Lemma set_value_names (n v : jsstring) (attrs : list (jsstring * jsstring)) :
  (set_value n v attrs).*1 = if decide (n ∈ attrs.*1) then attrs.*1 else attrs.*1 ++ [n].
Proof.
  induction attrs as [|[n' v'] attrs IH]; cbn [set_value fmap list_fmap fst].
  - rewrite decide_False by (intros H; inversion H). reflexivity.
  - destruct (decide (n' = n)) as [-> | Hne]; cbn [fmap list_fmap fst].
    + rewrite decide_True by left. reflexivity.
    + fold (fmap (M := list) (@fst jsstring jsstring)). rewrite IH.
      destruct (decide (n ∈ attrs.*1)) as [Hin|Hout].
      * rewrite decide_True by (right; exact Hin). reflexivity.
      * rewrite decide_False; [reflexivity|].
        intros [H|H]%elem_of_cons; [congruence | exact (Hout H)].
Qed.

Lemma set_value_NoDup (n v : jsstring) (attrs : list (jsstring * jsstring)) :
  NoDup attrs.*1 -> NoDup (set_value n v attrs).*1.
Proof. intros Hnd. rewrite set_value_names. apply add_token_NoDup. exact Hnd. Qed.

(** [e.setAttribute(name, value)], seen through [getAttribute]. *)
Lemma getAttribute_setAttribute (q n v : jsstring) (e e' : element) :
  setAttribute rules n v e = inr e' ->
  getAttribute q e' = if decide (to_lower n = to_lower q) then Some v else getAttribute q e.
Proof.
  unfold setAttribute, getAttribute. destruct (valid_attribute_name rules n); [|discriminate].
  intros [= <-]. cbn [attributes set_attributes]. apply get_value_set_value.
Qed.

(** C4, amended. An attribute item that starts with a digit writes a
    diagnostic and gives no attribute.  Any other item is trimmed; its
    name is the text before the first equals sign and its value the text
    between the first equals sign and the second one, or the end of the
    item when there is no second one (so the value is all the text after
    the first equals sign exactly when that text holds no equals sign); an
    item without equals sign is its own name and has the empty value.  If
    the platform accepts the name as an attribute name, the element
    receives the attribute that has the name in lower case, with that
    value, in the place of the attribute of that name if there is one:
    reading the name back gives the value, and the other attributes are as
    they were.  If it does not, the platform's InvalidCharacterError is
    thrown and nothing changes. *)
Theorem attribute_item_split (h : nat) (attr : jsstring) (st : state) (e : element) :
  doc st !! h = Some e ->
  let name := before_first 61 (trim attr) in
  let rest := after_first 61 (trim attr) in
  let value := before_first 61 rest in
  if first_is_digit attr
  then add_attribute rules h attr st
       = Returned tt
           (set_console
              (fun out => out ++ [u "HTMLBuilder: invalid syntax for attribute name '"
                                  ++ attr ++ u "'"]) st)
  else
    (if includes 61 (trim attr)
     then trim attr = name ++ [61%N] ++ rest ∧ (includes 61 rest = false -> value = rest)
     else name = trim attr ∧ value = [])
    ∧ if valid_attribute_name rules name
      then ∃ e',
             add_attribute rules h attr st
             = Returned tt (set_doc (fun d => <[h := e']> d) st)
             ∧ e' = set_attributes (set_value (to_lower name) value) e
             ∧ getAttribute name e' = Some value
             ∧ ∀ q, to_lower q ≠ to_lower name -> getAttribute q e' = getAttribute q e
      else add_attribute rules h attr st = Thrown (DOMException InvalidCharacterError) st.
Proof.
  intros He name rest value. unfold add_attribute. cbv zeta.
  destruct (first_is_digit attr); [reflexivity|].
  assert (on_element h (setAttribute rules name value) st
          = if valid_attribute_name rules name
            then Returned tt
                   (set_doc (fun d => <[h := set_attributes (set_value (to_lower name) value) e]> d)
                            st)
            else Thrown (DOMException InvalidCharacterError) st) as Hset.
  { unfold on_element, setAttribute. rewrite He.
    destruct (valid_attribute_name rules name); reflexivity. }
  assert (∀ e', e' = set_attributes (set_value (to_lower name) value) e ->
                getAttribute name e' = Some value
                ∧ ∀ q, to_lower q ≠ to_lower name -> getAttribute q e' = getAttribute q e)
    as Hget.
  { intros e' ->. unfold getAttribute. cbn [attributes set_attributes]. split.
    - rewrite get_value_set_value, decide_True by reflexivity. reflexivity.
    - intros q Hq. rewrite get_value_set_value, decide_False by congruence. reflexivity. }
  destruct (includes 61 (trim attr)) eqn:Hin.
  - change (u "=") with [61%N].
    rewrite split_single_first, split_single_second by exact Hin. cbn [default id].
    fold name rest value. split.
    + split; [apply before_after_first; exact Hin | apply before_first_none].
    + rewrite Hset. destruct (valid_attribute_name rules name); [|reflexivity].
      eexists. split; [reflexivity|]. split; [reflexivity|]. apply Hget. reflexivity.
  - assert (name = trim attr) as Hname by (apply before_first_none; exact Hin).
    assert (value = []) as Hvalue
      by (unfold value, rest; rewrite after_first_none by exact Hin; reflexivity).
    split; [split; assumption|].
    replace (setAttribute rules (trim attr) []) with (setAttribute rules name value)
      by congruence.
    rewrite Hset.
    destruct (valid_attribute_name rules name); [|reflexivity].
    eexists. split; [reflexivity|]. split; [reflexivity|]. apply Hget. reflexivity.
Qed.

End Lines.

(** ** The tag of a line *)

Section Tag.

Variable rules : name_rules.
Variable decode : jsstring -> jsstring.

Lemma matcher_optional (r : regex) :
  optional r = true ->
  ∀ x c, (∀ y, is_Some (c y)) -> is_Some (matcher r x c).
Proof.
  induction r as [p | r1 IH1 r2 IH2 | g r IH | r _ | r _]; cbn [optional matcher];
    intros Hopt x c Hc.
  - discriminate.
  - apply andb_true_iff in Hopt as [H1 H2].
    apply IH1; [exact H1|]. intros y. apply IH2; [exact H2 | exact Hc].
  - apply IH; [exact Hopt|]. intros y. apply Hc.
  - cbn [star_loop]. destruct (matcher r _ _); [eauto | apply Hc].
  - destruct (matcher r _ _); [eauto | apply Hc].
Qed.

Lemma after_run_length (p : N -> bool) (s : jsstring) : length (after_run p s) ≤ length s.
Proof.
  induction s as [|c s IH]; [reflexivity|]. cbn [after_run].
  destruct (p c); simpl; lia.
Qed.

Lemma run_take (p : N -> bool) (s : jsstring) :
  take (length s - length (after_run p s)) s = run p s.
Proof.
  induction s as [|c s IH]; [reflexivity|]. cbn [after_run run].
  destruct (p c).
  - pose proof (after_run_length p s).
    replace (length (c :: s) - length (after_run p s))
      with (S (length s - length (after_run p s))) by (simpl; lia).
    cbn [take]. rewrite IH. reflexivity.
  - rewrite Nat.sub_diag. reflexivity.
Qed.

(** A starred character class before a continuation that cannot fail takes
    the longest run of the class. *)
Lemma star_loop_run (p : N -> bool) (fuel : nat) (s : jsstring)
    (caps : list (option jsstring)) (c : cont) :
  (∀ y, is_Some (c y)) ->
  length s < fuel ->
  star_loop fuel (matcher (Chr p)) [] (MState s caps) c = c (MState (after_run p s) caps).
Proof.
  intros Hc. revert fuel. induction s as [|ch s IH]; intros fuel Hfuel;
    (destruct fuel as [|fuel]; [simpl in Hfuel; lia|]); cbn [star_loop]; unfold clear;
    cbn [foldr rest captures matcher after_run].
  - reflexivity.
  - destruct (p ch); [|reflexivity].
    destruct (Nat.eqb_spec (length s) (length (ch :: s))) as [Heq|_]; [simpl in Heq; lia|].
    rewrite IH by (simpl in Hfuel; lia).
    destruct (Hc (MState (after_run p s) caps)) as [z ->]. reflexivity.
Qed.

Lemma matcher_Cat (r1 r2 : regex) (x : mstate) (c : cont) :
  matcher (Cat r1 r2) x c = matcher r1 x (fun y => matcher r2 y c).
Proof. reflexivity. Qed.

Lemma matcher_Capture (i : nat) (r : regex) (x : mstate) (c : cont) :
  matcher (Capture i r) x c
  = matcher r x (fun y => c (MState (rest y) (<[i := Some (consumed x y)]> (captures y)))).
Proof. reflexivity. Qed.

Lemma matcher_Chr (p : N -> bool) (x : mstate) (c : cont) :
  matcher (Chr p) x c
  = match rest x with
    | ch :: s => if p ch then c (MState s (captures x)) else None
    | [] => None
    end.
Proof. reflexivity. Qed.

Lemma matcher_Star (r : regex) (x : mstate) (c : cont) :
  matcher (Star r) x c = star_loop (S (length (rest x))) (matcher r) (groups r) x c.
Proof. reflexivity. Qed.

(** A pattern that opens with the group of the tag and goes on with an
    optional rest matches wherever a word character stands, and captures
    the run of word characters from there. *)
Lemma tag_match (r2 : regex) (ch : N) (s : jsstring) (caps : list (option jsstring)) :
  optional r2 = true -> 1 ∉ groups r2 -> 1 < length caps ->
  is_word ch = true ->
  ∃ z, matcher (Cat (Capture 1 (Plus word)) r2) (MState (ch :: s) caps) Some = Some z
    ∧ captures z !! 1 = Some (Some (ch :: run is_word s)).
Proof.
  intros Hopt Hgroups Hcaps Hch. unfold Plus, word.
  rewrite matcher_Cat, matcher_Capture, matcher_Cat, matcher_Chr. cbn [rest captures].
  rewrite Hch, matcher_Star. cbn [rest groups].
  rewrite star_loop_run; [|intros y; apply matcher_optional; [exact Hopt | eauto] | lia].
  cbn [rest captures].
  destruct (matcher_optional r2 Hopt
              (MState (after_run is_word s)
                 (<[1 := Some (consumed (MState (ch :: s) caps)
                                        (MState (after_run is_word s) caps))]> caps)) Some)
    as [z Hz]; [eauto|].
  exists z. split; [exact Hz|].
  apply matcher_carries_on in Hz as (y & [= ->] & _ & Hsame).
  rewrite Hsame by exact Hgroups. cbn [captures].
  rewrite list_lookup_insert_eq by exact Hcaps.
  unfold consumed. cbn [rest].
  pose proof (after_run_length is_word s).
  replace (length (ch :: s) - length (after_run is_word s))
    with (S (length s - length (after_run is_word s))) by (simpl; lia).
  cbn [take]. rewrite run_take. reflexivity.
Qed.

Lemma tag_no_match (r2 : regex) (s : jsstring) (caps : list (option jsstring)) :
  match s with ch :: _ => is_word ch = false | [] => True end ->
  matcher (Cat (Capture 1 (Plus word)) r2) (MState s caps) Some = None.
Proof.
  intros Hs. unfold Plus, word.
  rewrite matcher_Cat, matcher_Capture, matcher_Cat, matcher_Chr. cbn [rest].
  destruct s as [|ch s]; [reflexivity|]. rewrite Hs. reflexivity.
Qed.

Lemma REGEX_rest :
  ∃ r2, REGEX = Cat (Capture 1 (Plus word)) r2 ∧ optional r2 = true ∧ 1 ∉ groups r2.
Proof.
  eexists. split; [reflexivity|]. split; [reflexivity|]. cbn.
  intros H. repeat (apply elem_of_cons in H as [H | H]; [discriminate|]). inversion H.
Qed.

Lemma exec_REGEX_first_word (line : jsstring) :
  match exec 6 REGEX line with
  | Some caps => first_word line ≠ [] ∧ caps !! 1 = Some (Some (first_word line))
  | None => first_word line = []
  end.
Proof.
  destruct REGEX_rest as (r2 & -> & Hopt & Hgroups).
  induction line as [|ch line IH]; cbn [exec first_word].
  - rewrite tag_no_match by exact I. reflexivity.
  - destruct (is_word ch) eqn:Hch.
    + destruct (tag_match r2 ch line (replicate 7 None) Hopt Hgroups) as (z & -> & Hz);
        [simpl; lia | exact Hch |].
      split; [discriminate|]. rewrite list_lookup_insert_ne by lia. exact Hz.
    + rewrite tag_no_match by exact Hch. exact IH.
Qed.

(** X8. The tag of a line is its first word: the run of word characters
    (letters, digits, underscore) that starts at the first word character
    of the line, wherever that is.  A line has no tag exactly when it
    holds no word character at all; [_createElementFromLine] then throws
    the parse error of the line and leaves everything as it was, and it
    throws an error of its own on no other line.  A line whose tag the
    platform does not accept as an element name makes it throw the
    platform's InvalidCharacterError, everything being left as it was. *)
Theorem line_tagname_first_word (line : jsstring) (st : state) :
  line_tagname line = match first_word line with [] => None | tag => Some tag end
  ∧ (line_tagname line = None ↔ Forall (fun c => is_word c = false) line)
  ∧ (Forall (fun c => is_word c = false) line ->
     _createElementFromLine rules decode line st = Thrown (parse_error line) st)
  ∧ (∀ msg st', _createElementFromLine rules decode line st = Thrown (Error msg) st' ->
                Forall (fun c => is_word c = false) line)
  ∧ (valid_element_name rules (first_word line) = false -> first_word line ≠ [] ->
     _createElementFromLine rules decode line st
     = Thrown (DOMException InvalidCharacterError) st).
Proof.
  assert (Htag : line_tagname line
                 = match first_word line with [] => None | tag => Some tag end).
  { unfold line_tagname, group, matches.
    pose proof (exec_REGEX_first_word line) as H.
    destruct (exec 6 REGEX line) as [caps|].
    - destruct H as [Hne Hcaps]. change (default [] (Some caps)) with caps.
      rewrite Hcaps. simpl. destruct (first_word line); [congruence | reflexivity].
    - rewrite H. reflexivity. }
  assert (Hnone : line_tagname line = None ↔ Forall (fun c => is_word c = false) line).
  { rewrite Htag. clear Htag.
    induction line as [|ch line IH]; cbn [first_word].
    - split; [constructor | reflexivity].
    - destruct (is_word ch) eqn:Hch.
      + split; [discriminate|]. intros H. inversion H; congruence.
      + rewrite IH. split; [intros H; constructor; assumption
                           | intros H; inversion H; assumption]. }
  split; [exact Htag|]. split; [exact Hnone|]. split; [|split].
  - intros Hline. apply _createElementFromLine_throws, Hnone, Hline.
  - intros msg st' Hthrow. apply Hnone.
    destruct (line_tagname line) as [tag|] eqn:Hsome; [|reflexivity].
    pose proof (_createElementFromLine_outcome rules decode line st) as Hrun.
    unfold rejection in Hrun. rewrite Hsome in Hrun.
    destruct (_ && _); [congruence|]. destruct Hrun as (st'' & Hrun & _). congruence.
  - intros Hinvalid Hne. apply (_createElementFromLine_invalid _ _ _ (first_word line)).
    + rewrite Htag. destruct (first_word line); [congruence | reflexivity].
    + exact Hinvalid.
Qed.

End Tag.

(** ** The element of a line *)

Section Element.

Variable rules : name_rules.
Variable decode : jsstring -> jsstring.

Lemma accepted_tagname (symbol line : jsstring) :
  accepted rules symbol line -> ∃ tag, line_tagname line = Some tag.
Proof.
  unfold accepted, rejection. destruct (line_tagname line) as [tag|]; [eauto | discriminate].
Qed.

(** What [_createElementFromLine] gives for an accepted line, field by
    field. *)
Lemma _createElementFromLine_fields (line tag : jsstring) (st : state) :
  line_tagname line = Some tag ->
  accepted rules (SYMBOL_BETWEEN_ATTRIBUTES st) line ->
  _createElementFromLine rules decode line st
  = Returned (length (doc st))
      (State (doc st
              ++ [Element (to_lower tag)
                    (match line_id line ≫= (fun i => truthy (Some i)) with
                     | Some i =>
                         set_value (u "id") i
                           (line_attribute_list (SYMBOL_BETWEEN_ATTRIBUTES st) line)
                     | None => line_attribute_list (SYMBOL_BETWEEN_ATTRIBUTES st) line
                     end)
                    (match line_content line with
                     | Some text => [TextNode (decode text)]
                     | None => []
                     end)
                    (resolved (objects st) (EVENTS st) (default [] (line_events line)))])
             (console st ++ materialise_log (SYMBOL_BETWEEN_ATTRIBUTES st) line)
             (parent st) (SYMBOL_BETWEEN_ATTRIBUTES st) (EVENTS st) (objects st)).
Proof.
  intros Htag Hacc.
  pose proof (_createElementFromLine_outcome rules decode line st) as Hrun.
  unfold accepted in Hacc. rewrite Hacc in Hrun. rewrite Hrun.
  destruct (element_of_accepted rules decode (SYMBOL_BETWEEN_ATTRIBUTES st) (objects st)
              (EVENTS st) line tag Htag Hacc) as (_ & _ & ->).
  rewrite finish_fields. reflexivity.
Qed.

(** The value that a name has after the items are gone through. *)
Lemma get_value_fold (q : jsstring) (items : list jsstring)
    (attrs : list (jsstring * jsstring)) :
  get_value q
    (foldl (fun attrs item =>
              set_value (to_lower (attribute_name item)) (attribute_value item) attrs)
           attrs items)
  = match last_value q items with
    | Some v => Some v
    | None => get_value q attrs
    end.
Proof.
  induction items as [|item items IH] using rev_ind; [reflexivity|].
  rewrite foldl_app. cbn [foldl]. rewrite get_value_set_value.
  unfold last_value in *. rewrite filter_app.
  destruct (decide (to_lower (attribute_name item) = q)) as [Hq|Hq].
  - rewrite filter_cons_True by exact Hq. rewrite filter_nil, last_snoc. reflexivity.
  - rewrite filter_cons_False by exact Hq. rewrite filter_nil, app_nil_r. exact IH.
Qed.

Lemma fold_set_value_NoDup (items : list jsstring) (attrs : list (jsstring * jsstring)) :
  NoDup attrs.*1 ->
  NoDup (foldl (fun attrs item =>
                  set_value (to_lower (attribute_name item)) (attribute_value item) attrs)
               attrs items).*1.
Proof.
  revert attrs. induction items as [|item items IH]; intros attrs Hnd; [exact Hnd|].
  cbn [foldl]. apply IH, set_value_NoDup, Hnd.
Qed.

Lemma class_attr_NoDup (set : list jsstring) : NoDup (class_attr set).*1.
Proof. destruct set; [apply NoDup_nil_2 | apply NoDup_singleton]. Qed.

Lemma line_attribute_list_NoDup (symbol line : jsstring) :
  NoDup (line_attribute_list symbol line).*1.
Proof. apply fold_set_value_NoDup, class_attr_NoDup. Qed.

(** The class tokens of a line that count, each once. *)
Lemma class_tokens_set (line : jsstring) :
  Forall token_ok (ordered_set (class_tokens line))
  ∧ NoDup (ordered_set (class_tokens line)).
Proof.
  destruct (ordered_set_spec (class_tokens line)) as [Hnd Hin]. split; [|exact Hnd].
  apply Forall_forall. intros t Ht. apply Hin in Ht.
  unfold class_tokens in Ht. apply list_elem_of_filter in Ht as [_ Ht].
  pose proof (line_classes_ok line) as Hok. rewrite Forall_forall in Hok. exact (Hok t Ht).
Qed.

(** The class list is read off the [class] attribute alone. *)
Lemma classList_get_value (e e' : element) :
  get_value (u "class") (attributes e) = get_value (u "class") (attributes e') ->
  classList e = classList e'.
Proof. unfold classList. intros ->. reflexivity. Qed.

(** X9. The classes of the element of an accepted line.  If no attribute
    item that counts is named [class] (in any case of the letters), they
    are the class tokens of the line that do not start with a digit, each
    once and in the order of their first occurrence: a token that starts
    with a digit is left out, a repeated token counts once, and neither
    hinders the others.  If such an item is there, the value of the last
    one replaces what the tokens gave, and the classes are the words of
    that value. *)
Theorem element_classes (line : jsstring) (st : state) :
  accepted rules (SYMBOL_BETWEEN_ATTRIBUTES st) line ->
  ∃ e st',
    _createElementFromLine rules decode line st = Returned (length (doc st)) st'
    ∧ doc st' = doc st ++ [e]
    ∧ NoDup (classList e)
    ∧ classList e
      = match last_value (u "class") (attribute_items (SYMBOL_BETWEEN_ATTRIBUTES st) line) with
        | Some v => ordered_set (tokens_scan [] v)
        | None => ordered_set (class_tokens line)
        end
    ∧ (last_value (u "class") (attribute_items (SYMBOL_BETWEEN_ATTRIBUTES st) line) = None ->
       ∀ c, c ∈ classList e
            ↔ c ∈ default [] (line_classes line) ∧ first_is_digit c = false).
Proof.
  intros Hacc. destruct (accepted_tagname _ _ Hacc) as [tag Htag].
  eexists _, _. split; [exact (_createElementFromLine_fields line tag st Htag Hacc)|].
  split; [reflexivity|]. split; [apply ordered_set_spec|].
  set (e := Element _ _ _ _).
  assert (get_value (u "class") (attributes e)
          = match last_value (u "class")
                    (attribute_items (SYMBOL_BETWEEN_ATTRIBUTES st) line) with
            | Some v => Some v
            | None => get_value (u "class") (class_attr (ordered_set (class_tokens line)))
            end) as Hclass.
  { subst e. cbn [attributes]. rewrite <- get_value_fold.
    destruct (line_id line ≫= _); [|reflexivity].
    rewrite get_value_set_value, decide_False by discriminate. reflexivity. }
  destruct (class_tokens_set line) as [Hok Hnd].
  assert (classList e
          = match last_value (u "class")
                    (attribute_items (SYMBOL_BETWEEN_ATTRIBUTES st) line) with
            | Some v => ordered_set (tokens_scan [] v)
            | None => ordered_set (class_tokens line)
            end) as Hlist.
  { destruct (last_value _ _) as [v|].
    - unfold classList. rewrite Hclass. reflexivity.
    - rewrite (classList_get_value e
                 (Element [] (class_attr (ordered_set (class_tokens line))) [] []) Hclass).
      apply class_attr_classList; assumption. }
  split; [exact Hlist|]. intros Hnone c. rewrite Hlist, Hnone.
  destruct (ordered_set_spec (class_tokens line)) as [_ ->].
  unfold class_tokens. rewrite list_elem_of_filter. tauto.
Qed.

(** X10. The attributes of the element of an accepted line.  No two of
    them have the same name.  The value that [getAttribute] gives for a
    name is, the name being taken in lower case: for [id], the id of the
    line when the line has one that is not empty; otherwise the value of
    the last attribute item that does not start with a digit and has that
    name in lower case (of several items with one name the last one
    counts); otherwise, for [class], the class tokens of the line that
    count, joined by spaces, when there are some; and nothing in all other
    cases. *)
Theorem element_attributes (line q : jsstring) (st : state) :
  accepted rules (SYMBOL_BETWEEN_ATTRIBUTES st) line ->
  ∃ e st',
    _createElementFromLine rules decode line st = Returned (length (doc st)) st'
    ∧ doc st' = doc st ++ [e]
    ∧ NoDup (attributes e).*1
    ∧ getAttribute q e
      = let from_items :=
          match last_value (to_lower q)
                  (attribute_items (SYMBOL_BETWEEN_ATTRIBUTES st) line) with
          | Some v => Some v
          | None => get_value (to_lower q) (class_attr (ordered_set (class_tokens line)))
          end in
        match line_id line ≫= (fun i => truthy (Some i)) with
        | Some i => if decide (to_lower q = u "id") then Some i else from_items
        | None => from_items
        end.
Proof.
  intros Hacc. destruct (accepted_tagname _ _ Hacc) as [tag Htag].
  eexists _, _. split; [exact (_createElementFromLine_fields line tag st Htag Hacc)|].
  split; [reflexivity|]. unfold getAttribute. cbn [attributes]. cbv zeta.
  rewrite <- get_value_fold. fold (line_attribute_list (SYMBOL_BETWEEN_ATTRIBUTES st) line).
  destruct (line_id line ≫= _) as [i|].
  - split; [apply set_value_NoDup, line_attribute_list_NoDup|].
    rewrite get_value_set_value.
    destruct (decide (u "id" = to_lower q)) as [Hq|Hq].
    + rewrite decide_True by congruence. reflexivity.
    + rewrite decide_False by congruence. reflexivity.
  - split; [apply line_attribute_list_NoDup | reflexivity].
Qed.

(** *** Tag, id, text and diagnostics *)

Lemma get_value_id_class_attr (set : list jsstring) : get_value (u "id") (class_attr set) = None.
Proof. destruct set; reflexivity. Qed.

(** X11. What [_createElementFromLine] does with a line.  Without a tag
    it throws the parse error of the line; with a tag that the platform
    does not accept as an element name it throws the platform's
    InvalidCharacterError; in both cases everything is left as it was.
    With an attribute item that does not start with a digit and whose name
    the platform does not accept, it throws the InvalidCharacterError
    after the element was made, and nothing that exists has changed.
    Otherwise it adds one element at the end of the document and changes
    nothing that exists: no element, and neither the container, the
    separator, the registry nor the objects.  The element has the tag of
    the line in lower case; its id is the id of the line when that is not
    empty, and what the attribute items give to [id] otherwise; it has
    one text node with the decoded content when the line has a content
    that is not empty, and no child otherwise.  The console receives one
    diagnostic for each class token, attribute item and event name that
    starts with a digit, in this order, and nothing else. *)
Theorem element_tag_id_text (line : jsstring) (st : state) :
  match line_tagname line with
  | None => _createElementFromLine rules decode line st = Thrown (parse_error line) st
  | Some tag =>
      if valid_element_name rules tag
      then
        if forallb (fun item => first_is_digit item
                                || valid_attribute_name rules (attribute_name item))
                   (default [] (line_attributes (SYMBOL_BETWEEN_ATTRIBUTES st) line))
        then
          ∃ e,
            _createElementFromLine rules decode line st
            = Returned (length (doc st))
                (State (doc st ++ [e])
                       (console st
                        ++ syntax_log "class" (default [] (line_classes line))
                        ++ syntax_log "attribute"
                             (default [] (line_attributes (SYMBOL_BETWEEN_ATTRIBUTES st) line))
                        ++ syntax_log "event" (default [] (line_events line)))
                       (parent st) (SYMBOL_BETWEEN_ATTRIBUTES st) (EVENTS st) (objects st))
            ∧ localName e = to_lower tag
            ∧ getAttribute (u "id") e
              = match line_id line ≫= (fun i => truthy (Some i)) with
                | Some i => Some i
                | None => last_value (u "id")
                            (attribute_items (SYMBOL_BETWEEN_ATTRIBUTES st) line)
                end
            ∧ childNodes e = match line_content line with
                             | Some text => [TextNode (decode text)]
                             | None => []
                             end
        else
          ∃ st', _createElementFromLine rules decode line st
                 = Thrown (DOMException InvalidCharacterError) st'
                 ∧ extends st st'
      else _createElementFromLine rules decode line st
           = Thrown (DOMException InvalidCharacterError) st
  end.
Proof.
  destruct (line_tagname line) as [tag|] eqn:Htag;
    [|apply _createElementFromLine_throws; exact Htag].
  destruct (valid_element_name rules tag) eqn:Hvalid;
    [|exact (_createElementFromLine_invalid rules decode line tag st Htag Hvalid)].
  destruct (forallb _ _) eqn:Hitems.
  - assert (accepted rules (SYMBOL_BETWEEN_ATTRIBUTES st) line) as Hacc
      by (unfold accepted, rejection; rewrite Htag, Hvalid, Hitems; reflexivity).
    eexists. split; [exact (_createElementFromLine_fields line tag st Htag Hacc)|].
    split; [reflexivity|]. split; [|reflexivity].
    unfold getAttribute. cbn [attributes].
    destruct (line_id line ≫= _) as [i|].
    + apply get_value_set_value.
    + unfold line_attribute_list.
      rewrite (get_value_fold (u "id")), get_value_id_class_attr.
      destruct (last_value _ _); reflexivity.
  - pose proof (_createElementFromLine_outcome rules decode line st) as Hrun.
    unfold rejection in Hrun. rewrite Htag, Hvalid, Hitems in Hrun. exact Hrun.
Qed.

End Element.

(** ** The event registry *)

Lemma _searchForEvent_app (objs : list Listener) (evs1 evs2 : list nat) (n : jsstring) :
  _searchForEvent objs (evs1 ++ evs2) n
  = match _searchForEvent objs evs1 n with
    | Some ev => Some ev
    | None => _searchForEvent objs evs2 n
    end.
Proof.
  induction evs1 as [|ev evs1 IH]; [reflexivity|].
  cbn [app _searchForEvent]. destruct (decide _); [reflexivity | exact IH].
Qed.

Lemma get_object_alter_ne (objs : list Listener) (f : Listener -> Listener) (r r' : nat) :
  r ≠ r' -> get_object (alter f r objs) r' = get_object objs r'.
Proof. intros Hne. unfold get_object. rewrite list_lookup_alter_ne by exact Hne. reflexivity. Qed.

Lemma get_object_alter_eq (objs : list Listener) (f : Listener -> Listener) (r : nat) :
  is_Some (objs !! r) -> get_object (alter f r objs) r = f (get_object objs r).
Proof.
  intros [o Ho]. unfold get_object. rewrite list_lookup_alter_eq, Ho. reflexivity.
Qed.

(** Rewriting an object that the registry does not hold changes no
    resolution. *)
Lemma _searchForEvent_alter (objs : list Listener) (f : Listener -> Listener) (event : nat)
    (events : list nat) (n : jsstring) :
  event ∉ events ->
  _searchForEvent (alter f event objs) events n = _searchForEvent objs events n.
Proof.
  induction events as [|r events IH]; intros Hout; [reflexivity|].
  apply not_elem_of_cons in Hout as [Hne Hout]. cbn [_searchForEvent].
  rewrite get_object_alter_ne by exact Hne. rewrite IH by exact Hout. reflexivity.
Qed.


Lemma remove_first_startsWith (p s : jsstring) :
  startsWith p s = true -> remove_first p s = drop (length p) s.
Proof. intros H. destruct s; simpl in *; rewrite H; reflexivity. Qed.

Lemma get_object_name (objs : list Listener) (r : nat) (n : jsstring) :
  name (get_object objs r) = Some n -> is_Some (objs !! r).
Proof. unfold get_object. destruct (objs !! r); [eauto | discriminate]. Qed.

(** What [bindEvent] does with an object that has the three fields: the
    name is rewritten in the object, and the reference is registered. *)
Lemma bindEvent_returns (event : nat) (n t : jsstring) (cb : nat) (st : state) :
  name (get_object (objects st) event) = Some n -> n ≠ [] ->
  type (get_object (objects st) event) = Some t -> t ≠ [] ->
  callback (get_object (objects st) event) = Some cb ->
  bindEvent event st
  = Returned tt
      (State (doc st) (console st) (parent st) (SYMBOL_BETWEEN_ATTRIBUTES st)
             (EVENTS st ++ [event])
             (if startsWith (u "on") n
              then alter (set_name (Some (drop 2 n))) event (objects st)
              else objects st)).
Proof.
  intros Hn Hne Ht Hte Hcb. unfold bindEvent, bind, gets. rewrite Hn, Ht, Hcb.
  destruct n as [|c n]; [congruence|]. destruct t as [|c' t]; [congruence|]. cbn [truthy].
  destruct (startsWith (u "on") (c :: n)) eqn:Hon; [|reflexivity].
  rewrite (remove_first_startsWith _ _ Hon). reflexivity.
Qed.

(** X1. [bindEvent] throws exactly when the object lacks a name or has an
    empty one, lacks a type or has an empty one, or lacks a callback; it
    then leaves the builder and the object as they were, so that no
    partial event is ever registered. *)
Theorem bindEvent_missing_field (event : nat) (st : state) :
  let o := get_object (objects st) event in
  ((∃ msg, bindEvent event st = Thrown (Error msg) st)
   ↔ (name o = None ∨ name o = Some [] ∨ type o = None ∨ type o = Some []
      ∨ callback o = None))
  ∧ ((∃ st', bindEvent event st = Returned tt st')
     ↔ ¬ (name o = None ∨ name o = Some [] ∨ type o = None ∨ type o = Some []
          ∨ callback o = None)).
Proof.
  intros o. unfold bindEvent, bind, gets. fold o.
  destruct (name o) as [[|c n]|], (type o) as [[|c' t]|], (callback o) as [cb|];
    cbn [truthy]; try destruct (startsWith (u "on") (c :: n));
    cbv [throw modify ret];
    (split; split;
     [ try (intros [? H]; discriminate H); intros _; tauto
     | try (intros _; eexists; reflexivity);
       intros H; exfalso;
       repeat (destruct H as [H | H]; [discriminate H|]); discriminate H
     | try (intros [? H]; discriminate H); intros _ H;
       repeat (destruct H as [H | H]; [discriminate H|]); discriminate H
     | try (intros _; eexists; reflexivity);
       intros H; exfalso; apply H; tauto ]).
Qed.

(** X2. Registration and lookup.  [bindEvent] registers the object it is
    given, not a copy: the registry receives the reference, and the name
    is rewritten in the object itself when it starts with [on]; no other
    object and nothing else of the builder changes.  When the object was
    not registered before, every name that the registry knew still
    resolves to the object it resolved to, and the name under which the new
    object is stored resolves to it only if that name was unknown: the
    first registration of a name wins. *)
Theorem bindEvent_first_registration_wins (event : nat) (n t : jsstring) (cb : nat)
    (st : state) (m : jsstring) :
  name (get_object (objects st) event) = Some n -> n ≠ [] ->
  type (get_object (objects st) event) = Some t -> t ≠ [] ->
  callback (get_object (objects st) event) = Some cb ->
  event ∉ EVENTS st ->
  ∃ st' stored,
    bindEvent event st = Returned tt st'
    ∧ stored = (if startsWith (u "on") n then drop 2 n else n)
    ∧ (doc st', console st', parent st', SYMBOL_BETWEEN_ATTRIBUTES st')
      = (doc st, console st, parent st, SYMBOL_BETWEEN_ATTRIBUTES st)
    ∧ EVENTS st' = EVENTS st ++ [event]
    ∧ get_object (objects st') event
      = set_name (Some stored) (get_object (objects st) event)
    ∧ (∀ r, r ≠ event -> get_object (objects st') r = get_object (objects st) r)
    ∧ _searchForEvent (objects st') (EVENTS st') m
      = match _searchForEvent (objects st) (EVENTS st) m with
        | Some ev => Some ev
        | None => if decide (m = stored) then Some event else None
        end.
Proof.
  intros Hn Hne Ht Hte Hcb Hfresh. eexists _, _.
  split; [exact (bindEvent_returns event n t cb st Hn Hne Ht Hte Hcb)|].
  split; [reflexivity|]. split; [reflexivity|]. split; [reflexivity|].
  cbn [objects EVENTS]. pose proof (get_object_name _ _ _ Hn) as Hsome.
  set (objs' := if startsWith (u "on") n then _ else _).
  assert (get_object objs' event
          = set_name (Some (if startsWith (u "on") n then drop 2 n else n))
                     (get_object (objects st) event)) as Hevent.
  { subst objs'. destruct (startsWith (u "on") n).
    - apply get_object_alter_eq. exact Hsome.
    - destruct (get_object (objects st) event) as [n' t' cb' o']. cbn [name] in Hn.
      subst n'. reflexivity. }
  assert (∀ r, r ≠ event -> get_object objs' r = get_object (objects st) r) as Hother.
  { intros r Hr. subst objs'. destruct (startsWith (u "on") n); [|reflexivity].
    apply get_object_alter_ne. congruence. }
  assert (∀ k, _searchForEvent objs' (EVENTS st) k = _searchForEvent (objects st) (EVENTS st) k)
    as Hsearch.
  { intros k. subst objs'. destruct (startsWith (u "on") n); [|reflexivity].
    apply _searchForEvent_alter. exact Hfresh. }
  split; [exact Hevent|]. split; [exact Hother|].
  rewrite _searchForEvent_app, Hsearch.
  destruct (_searchForEvent (objects st) (EVENTS st) m); [reflexivity|].
  cbn [_searchForEvent]. rewrite Hevent. cbn [name set_name].
  destruct (decide (m = _)) as [Hm|Hm].
  - rewrite decide_True by congruence. reflexivity.
  - rewrite decide_False by congruence. reflexivity.
Qed.


(** ** Worked instances *)

Lemma deepest_element_selection_witness :
  [(1, 1); (2, 2); (3, 2); (4, 1)] ≠ []
  ∧ Forall (fun c => 1 ≤ c.2) [(1, 1); (2, 2); (3, 2); (4, 1)]
  ∧ ∃ max i e,
      _maxLevel [(1, 1); (2, 2); (3, 2); (4, 1)] example_state = Returned max example_state
      ∧ Forall (fun c => c.2 ≤ max) [(1, 1); (2, 2); (3, 2); (4, 1)]
      ∧ _getIndexOfDeepestElement [(1, 1); (2, 2); (3, 2); (4, 1)] example_state
        = Returned i example_state
      ∧ [(1, 1); (2, 2); (3, 2); (4, 1)] !! i = Some e
      ∧ e.2 = max
      ∧ (∀ j c, i < j -> [(1, 1); (2, 2); (3, 2); (4, 1)] !! j = Some c -> c.2 ≠ max)
      ∧ (max = 1 -> i = length [(1, 1); (2, 2); (3, 2); (4, 1)] - 1).
Proof.
  split; [discriminate|]. split; [repeat constructor|].
  apply (deepest_element_selection [(1, 1); (2, 2); (3, 2); (4, 1)] example_state).
  - discriminate.
  - repeat constructor.
Defined.

Lemma attach_step_nearest_parent_prepend_witness :
  [(1, 1); (2, 2)] ≠ []
  ∧ 0 < length (doc example_block_state)
  ∧ Forall (fun c => c.1 < length (doc example_block_state)) [(1, 1); (2, 2)]
  ∧ ∃ i deepest par e st',
      _getIndexOfDeepestElement [(1, 1); (2, 2)] example_block_state
      = Returned i example_block_state
      ∧ [(1, 1); (2, 2)] !! i = Some deepest
      ∧ ((∃ j nearest, j < i ∧ [(1, 1); (2, 2)] !! j = Some nearest
            ∧ Z.of_nat nearest.2 = (Z.of_nat deepest.2 - 1)%Z
            ∧ (∀ k c, j < k < i -> [(1, 1); (2, 2)] !! k = Some c ->
                      Z.of_nat c.2 ≠ (Z.of_nat deepest.2 - 1)%Z)
            ∧ par = nearest.1
            ∧ delete i [(1, 1); (2, 2)] !! j = Some nearest)
         ∨ ((∀ k c, k < i -> [(1, 1); (2, 2)] !! k = Some c ->
                    Z.of_nat c.2 ≠ (Z.of_nat deepest.2 - 1)%Z)
            ∧ par = 0))
      ∧ doc example_block_state !! par = Some e
      ∧ attach_step 0 [(1, 1); (2, 2)] example_block_state
        = Returned (delete i [(1, 1); (2, 2)]) st'
      ∧ length (delete i [(1, 1); (2, 2)]) + 1 = length [(1, 1); (2, 2)]
      ∧ doc st' !! par
        = Some (set_childNodes
                  (fun ns => ElemRef deepest.1 :: filter (fun n => n ≠ ElemRef deepest.1) ns)
                  e).
Proof.
  split; [discriminate|]. split; [simpl; lia|].
  split; [repeat constructor; simpl; lia|].
  apply (attach_step_nearest_parent_prepend 0 [(1, 1); (2, 2)] example_block_state).
  - discriminate.
  - simpl; lia.
  - repeat constructor; simpl; lia.
Defined.



Lemma attribute_item_split_witness :
  doc example_state !! 0 = Some (Element (u "body") [] [] [])
  ∧ ∃ e', add_attribute dom_names 0 (u " Data-x=1 ") example_state
          = Returned tt (set_doc (fun d => <[0 := e']> d) example_state)
      ∧ attributes e' = [(u "data-x", u "1")]
      ∧ getAttribute (u "Data-x") e' = Some (u "1").
Proof.
  split; [reflexivity|].
  pose proof (attribute_item_split dom_names 0 (u " Data-x=1 ") example_state
                (Element (u "body") [] [] []) eq_refl) as H.
  cbv zeta in H. change (first_is_digit (u " Data-x=1 ")) with false in H.
  cbv iota in H. destruct H as [_ H].
  change (valid_attribute_name dom_names (before_first 61 (trim (u " Data-x=1 "))))
    with true in H.
  cbv iota in H. destruct H as (e' & Hrun & He & Hget & _).
  exists e'. split; [exact Hrun|]. split; [rewrite He; reflexivity | exact Hget].
Defined.

(** C4 fails on the item [a=b=c]: the value set is [b], not the text [b=c]
    that follows the first equals sign. *)
Lemma attribute_value_counterexample :
  after_first 61 (u "a=b=c") = u "b=c"
  ∧ ∃ st', add_attribute dom_names 0 (u "a=b=c") example_state = Returned tt st'
      ∧ attributes <$> doc st' !! 0 = Some [(u "a", u "b")].
Proof.
  split; [reflexivity|]. eexists. split; vm_compute; reflexivity.
Qed.

(** The empty item that a separator at the end of the bracket leaves has
    the empty name, which the platform refuses: the line [input[required;]]
    gives no element to the builder, and the exception is thrown after the
    first item was set. *)
Example empty_attribute_item :
  line_attributes (u ";") (u "input[required;]") = Some [u "required"; []]
  ∧ _createElementFromLine dom_names no_decoding (u "input[required;]") example_state
    = Thrown (DOMException InvalidCharacterError)
        (set_doc (fun d => d ++ [Element (u "input") [(u "required", [])] [] []])
                 example_state).
Proof. split; vm_compute; reflexivity. Qed.

Lemma indentTemplate_zero_witness :
  Forall (fun l => trim l = l) (split [10%N] (trim (u " " ++ template_main ++ [10%N])))
  ∧ indentTemplate (u " " ++ template_main ++ [10%N]) 0 = inr template_main.
Proof.
  split.
  - change (split [10%N] (trim (u " " ++ template_main ++ [10%N])))
      with [u "div"; u ">p"].
    repeat constructor.
  - apply (indentTemplate_zero (u " " ++ template_main ++ [10%N])).
    change (split [10%N] (trim (u " " ++ template_main ++ [10%N])))
      with [u "div"; u ">p"].
    repeat constructor.
Defined.

(** C5 fails on [template_indented]: the space that opens its second line
    is kept by [trim] and removed by [indentTemplate]. *)
Lemma indent_zero_counterexample :
  indentTemplate template_indented 0 = inr (u "a" ++ [10%N] ++ u "b")
  ∧ trim template_indented = u "a" ++ [10%N] ++ u " b"
  ∧ indentTemplate template_indented 0 ≠ inr (trim template_indented).
Proof.
  split; [reflexivity|]. split; [reflexivity|]. vm_compute. discriminate.
Qed.



(** A line without tag stops [generate] before an empty line is reached:
    on the lines [-], the empty line and [b], the parse error is that of
    the first line. *)
Example tagless_line_before_blank_line :
  _extractLinesFrom (u "-" ++ [10; 10]%N ++ u "b") = [u "-"; []; u "b"]
  ∧ generate dom_names no_decoding (u "-" ++ [10; 10]%N ++ u "b") example_state
    = Thrown (parse_error (u "-")) example_state.
Proof. split; vm_compute; reflexivity. Qed.

(** A line whose tag the platform refuses stops [generate] before a line
    without tag is reached: on the lines [1a] and [>] the exception is the
    platform's, not the parse error. *)
Example invalid_name_before_tagless_line :
  _extractLinesFrom (u "1a" ++ [10%N] ++ u ">") = [u "1a"; u ">"]
  ∧ line_tagname (u ">") = None
  ∧ generate dom_names no_decoding (u "1a" ++ [10%N] ++ u ">") example_state
    = Thrown (DOMException InvalidCharacterError) example_state.
Proof. split; [|split]; vm_compute; reflexivity. Qed.



Lemma unknown_event_ignored_witness :
  u "nope" ∈ default [] (line_events (u "a#i@click;nope"))
  ∧ _searchForEvent (objects example_state) (EVENTS example_state) (u "nope") = None
  ∧ ∃ st', _createElementFromLine dom_names no_decoding (u "a#i@click;nope") example_state
           = Returned 1 st'
      ∧ doc st' !! 1
        = Some (Element (u "a") [(u "id", u "i")] []
                  [ListenerEntry (Some (u "click")) (Some 7) None]).
Proof.
  assert (Hin : u "nope" ∈ default [] (line_events (u "a#i@click;nope"))).
  { change (default [] (line_events (u "a#i@click;nope"))) with [u "click"; u "nope"].
    right. left. }
  split; [exact Hin|]. split; [reflexivity|].
  destruct (unknown_event_ignored dom_names no_decoding (u "a#i@click;nope") (u "nope")
              example_state Hin eq_refl) as (tag & Htag & Hrun).
  change (rejection dom_names (SYMBOL_BETWEEN_ATTRIBUTES example_state)
            (u "a#i@click;nope")) with (@None exn) in Hrun.
  cbv iota in Hrun.
  change (line_tagname (u "a#i@click;nope")) with (Some (u "a")) in Htag.
  injection Htag as <-.
  eexists. split; [exact Hrun|]. reflexivity.
Defined.

(** C8 fails on the line [1abc@nope]: it names an event that the registry
    does not know, and materialising it throws, as the platform does not
    take [1abc] for the name of an element. *)
Lemma unknown_event_counterexample :
  u "nope" ∈ default [] (line_events (u "1abc@nope"))
  ∧ _searchForEvent (objects example_state) (EVENTS example_state) (u "nope") = None
  ∧ _createElementFromLine dom_names no_decoding (u "1abc@nope") example_state
    = Thrown (DOMException InvalidCharacterError) example_state.
Proof.
  split; [|split; vm_compute; reflexivity].
  change (default [] (line_events (u "1abc@nope"))) with [u "nope"]. left.
Qed.

Lemma leading_nested_lines_skipped_witness :
  length (trim template_skipped) ≠ 0
  ∧ _extractLinesFrom template_skipped = [u ">>x"; u ">"] ++ _extractLinesFrom template_main
  ∧ Forall (fun l => _level l ≠ 0) [u ">>x"; u ">"]
  ∧ generate dom_names no_decoding template_skipped example_state
    = generate dom_names no_decoding template_main example_state.
Proof.
  assert (Hlen : length (trim template_skipped) ≠ 0) by (vm_compute; discriminate).
  assert (Hpre : Forall (fun l => _level l ≠ 0) [u ">>x"; u ">"])
    by (repeat constructor; vm_compute; discriminate).
  split; [exact Hlen|]. split; [reflexivity|]. split; [exact Hpre|].
  destruct (leading_nested_lines_skipped dom_names no_decoding template_skipped
              [u ">>x"; u ">"] (_extractLinesFrom template_main) example_state Hlen eq_refl
              Hpre)
    as (_ & Hsame & _).
  apply Hsame; [vm_compute; discriminate | reflexivity].
Defined.

(** The nesting example: [div], under it [span(A)] and a second [div],
    and [p(B)] under the second [div].  The container receives the root;
    the root has the two children in the order of the template, and the
    second of them has the one child. *)
Example nesting_example :
  ∃ st', generate dom_names no_decoding
           (u "div" ++ [10%N] ++ u ">span(A)" ++ [10%N] ++ u ">div" ++ [10%N] ++ u ">>p(B)")
           example_state = Returned tt st'
    ∧ (fun e => (localName e, childNodes e)) <$> doc st'
      = [(u "body", [ElemRef 1]);
         (u "div", [ElemRef 2; ElemRef 3]);
         (u "span", [TextNode (u "A")]);
         (u "div", [ElemRef 4]);
         (u "p", [TextNode (u "B")])].
Proof. eexists. split; vm_compute; reflexivity. Qed.

(** The tag of a line is its first word, wherever it stands. *)
Example first_word_example :
  line_tagname (u "  .. my_tag2-x(y)") = Some (u "my_tag2")
  ∧ line_tagname (u ">>-(.)") = None.
Proof. split; vm_compute; reflexivity. Qed.

(** The line of the round-trip example, group by group, and its element. *)
Example round_trip_line :
  let line := u "tag.classA.classB#myid(Hello)[data-x=1]@click" in
  line_tagname line = Some (u "tag")
  ∧ line_classes line = Some [u "classA"; u "classB"]
  ∧ line_id line = Some (u "myid")
  ∧ line_content line = Some (u "Hello")
  ∧ line_attributes (u ";") line = Some [u "data-x=1"]
  ∧ line_events line = Some [u "click"]
  ∧ _createElementFromLine dom_names no_decoding line example_state
    = Returned 1
        (set_doc (fun d => d ++ [Element (u "tag")
                                   [(u "class", u "classA classB"); (u "data-x", u "1");
                                    (u "id", u "myid")]
                                   [TextNode (u "Hello")]
                                   [ListenerEntry (Some (u "click")) (Some 7) None]])
                 example_state).
Proof. vm_compute. repeat split. Qed.

Lemma indented_template_compiles_to_nothing_witness :
  (1 ≤ 1)%Z
  ∧ ∃ r, indentTemplate template_blank 1 = inr r
      ∧ generate dom_names no_decoding r example_state = Returned tt example_state.
Proof.
  split; [lia|].
  apply (indented_template_compiles_to_nothing dom_names no_decoding template_blank 1 example_state).
  lia.
Defined.

Lemma whitespace_template_compiles_to_nothing_witness :
  Forall (fun c => is_whitespace c = true) [32; 10; 9; 13]%N
  ∧ generate dom_names no_decoding [32; 10; 9; 13]%N example_state = Returned tt example_state.
Proof.
  split; [repeat constructor|].
  apply (whitespace_template_compiles_to_nothing dom_names no_decoding [32; 10; 9; 13]%N example_state).
  repeat constructor.
Defined.

Lemma bindEvent_first_registration_wins_witness :
  name (get_object (objects example_registry_state) 1) = Some (u "extend")
  ∧ u "extend" ≠ []
  ∧ type (get_object (objects example_registry_state) 1) = Some (u "click")
  ∧ u "click" ≠ []
  ∧ callback (get_object (objects example_registry_state) 1) = Some 8
  ∧ (1 ∉ EVENTS example_registry_state)
  ∧ ∃ st' stored,
      bindEvent 1 example_registry_state = Returned tt st'
      ∧ stored = (if startsWith (u "on") (u "extend") then drop 2 (u "extend") else u "extend")
      ∧ (doc st', console st', parent st', SYMBOL_BETWEEN_ATTRIBUTES st')
        = (doc example_registry_state, console example_registry_state,
           parent example_registry_state, SYMBOL_BETWEEN_ATTRIBUTES example_registry_state)
      ∧ EVENTS st' = EVENTS example_registry_state ++ [1]
      ∧ get_object (objects st') 1
        = set_name (Some stored) (get_object (objects example_registry_state) 1)
      ∧ (∀ r, r ≠ 1 -> get_object (objects st') r
                       = get_object (objects example_registry_state) r)
      ∧ _searchForEvent (objects st') (EVENTS st') (u "extend")
        = match _searchForEvent (objects example_registry_state)
                  (EVENTS example_registry_state) (u "extend") with
          | Some ev => Some ev
          | None => if decide (u "extend" = stored) then Some 1 else None
          end.
Proof.
  assert (Hfresh : 1 ∉ EVENTS example_registry_state).
  { intros [H|H]%elem_of_cons; [discriminate H | inversion H]. }
  split; [reflexivity|]. split; [discriminate|]. split; [reflexivity|].
  split; [discriminate|]. split; [reflexivity|]. split; [exact Hfresh|].
  apply (bindEvent_first_registration_wins 1 (u "extend") (u "click") 8
           example_registry_state (u "extend"));
    [reflexivity | discriminate | reflexivity | discriminate | reflexivity | exact Hfresh].
Defined.


(** The registry holds the objects of the caller, not copies.  An object
    named [ononx] that is registered twice is renamed twice: after the
    first call it is found under [onx]; after the second call the registry
    holds it twice, its name is [x], and [onx] resolves to nothing. *)
Example bindEvent_same_object_twice :
  match bindEvent 3 example_registry_state with
  | Returned _ st1 =>
      EVENTS st1 = [0; 3]
      ∧ _searchForEvent (objects st1) (EVENTS st1) (u "onx") = Some 3
      ∧ match bindEvent 3 st1 with
        | Returned _ st2 =>
            EVENTS st2 = [0; 3; 3]
            ∧ name (get_object (objects st2) 3) = Some (u "x")
            ∧ _searchForEvent (objects st2) (EVENTS st2) (u "onx") = None
            ∧ _searchForEvent (objects st2) (EVENTS st2) (u "x") = Some 3
        | _ => False
        end
  | _ => False
  end.
Proof. vm_compute. repeat split. Qed.

(** A listener is read off the object when the line is materialised: a
    name that is found brings the type, the callback and the options that
    the object then has. *)
Example listener_of_registered_object :
  match bindEvent 2 example_registry_state with
  | Returned _ st1 =>
      listeners (element_of dom_names no_decoding (u ";") (objects st1) (EVENTS st1)
                   (u "button@close;click;onclose"))
      = [ListenerEntry (Some (u "click")) (Some 9) None;
         ListenerEntry (Some (u "click")) (Some 7) None]
  | _ => False
  end.
Proof. vm_compute. reflexivity. Qed.

Lemma element_classes_witness :
  accepted dom_names (SYMBOL_BETWEEN_ATTRIBUTES example_state) line_rich
  ∧ ∃ e st',
      _createElementFromLine dom_names no_decoding line_rich example_state
      = Returned (length (doc example_state)) st'
      ∧ doc st' = doc example_state ++ [e]
      ∧ NoDup (classList e)
      ∧ classList e
        = match last_value (u "class")
                  (attribute_items (SYMBOL_BETWEEN_ATTRIBUTES example_state) line_rich) with
          | Some v => ordered_set (tokens_scan [] v)
          | None => ordered_set (class_tokens line_rich)
          end
      ∧ (last_value (u "class")
           (attribute_items (SYMBOL_BETWEEN_ATTRIBUTES example_state) line_rich) = None ->
         ∀ c, c ∈ classList e
              ↔ c ∈ default [] (line_classes line_rich) ∧ first_is_digit c = false).
Proof.
  split; [reflexivity|].
  apply (element_classes dom_names no_decoding line_rich example_state). reflexivity.
Defined.

(** The classes of [line_rich], and the classes of a line with an
    attribute item named [class]: the item comes after the tokens and
    replaces them. *)
Example element_classes_example :
  classList (element_of dom_names no_decoding (u ";") [] [] line_rich) = [u "a"; u "b"]
  ∧ classList (element_of dom_names no_decoding (u ";") [] [] (u "div.a.b[class=c  d c]"))
    = [u "c"; u "d"].
Proof. split; vm_compute; reflexivity. Qed.

Lemma element_attributes_witness :
  accepted dom_names (SYMBOL_BETWEEN_ATTRIBUTES example_state) line_rich
  ∧ ∃ e st',
      _createElementFromLine dom_names no_decoding line_rich example_state
      = Returned (length (doc example_state)) st'
      ∧ doc st' = doc example_state ++ [e]
      ∧ NoDup (attributes e).*1
      ∧ getAttribute (u "X") e
        = let from_items :=
            match last_value (to_lower (u "X"))
                    (attribute_items (SYMBOL_BETWEEN_ATTRIBUTES example_state) line_rich) with
            | Some v => Some v
            | None => get_value (to_lower (u "X"))
                        (class_attr (ordered_set (class_tokens line_rich)))
            end in
          match line_id line_rich ≫= (fun i => truthy (Some i)) with
          | Some i => if decide (to_lower (u "X") = u "id") then Some i else from_items
          | None => from_items
          end.
Proof.
  split; [reflexivity|].
  apply (element_attributes dom_names no_decoding line_rich (u "X") example_state).
  reflexivity.
Defined.

(** The attributes of [line_rich], in the order in which they were first
    set, and those of a line with an id and an attribute item named [id]:
    the id of the line is set last and wins. *)
Example element_attributes_example :
  attributes (element_of dom_names no_decoding (u ";") [] [] line_rich)
  = [(u "class", u "a b"); (u "x", u "2"); (u "hidden", []); (u "id", u "myid")]
  ∧ attributes (element_of dom_names no_decoding (u ";") [] [] (u "div#x[id=y]"))
    = [(u "id", u "x")]
  ∧ attributes (element_of dom_names no_decoding (u ";") [] [] (u "div[id=y]"))
    = [(u "id", u "y")].
Proof. repeat split; vm_compute; reflexivity. Qed.

Lemma element_tag_id_text_witness :
  ∃ e,
    _createElementFromLine dom_names no_decoding line_rich example_state
    = Returned (length (doc example_state))
        (State (doc example_state ++ [e])
               (console example_state
                ++ syntax_log "class" (default [] (line_classes line_rich))
                ++ syntax_log "attribute"
                     (default [] (line_attributes
                                    (SYMBOL_BETWEEN_ATTRIBUTES example_state) line_rich))
                ++ syntax_log "event" (default [] (line_events line_rich)))
               (parent example_state) (SYMBOL_BETWEEN_ATTRIBUTES example_state)
               (EVENTS example_state) (objects example_state))
    ∧ localName e = to_lower (u "tag")
    ∧ getAttribute (u "id") e
      = match line_id line_rich ≫= (fun i => truthy (Some i)) with
        | Some i => Some i
        | None => last_value (u "id")
                    (attribute_items (SYMBOL_BETWEEN_ATTRIBUTES example_state) line_rich)
        end
    ∧ childNodes e = match line_content line_rich with
                     | Some text => [TextNode (no_decoding text)]
                     | None => []
                     end.
Proof.
  exact (element_tag_id_text dom_names no_decoding line_rich example_state).
Defined.

(** The diagnostics of [line_rich]: one for the class token, one for the
    attribute item and one for the event name that start with a digit. *)
Example element_diagnostics_example :
  materialise_log (u ";") line_rich
  = [u "HTMLBuilder: invalid syntax for class name '1bad'";
     u "HTMLBuilder: invalid syntax for attribute name '2y'";
     u "HTMLBuilder: invalid syntax for event name '9'"].
Proof. vm_compute. reflexivity. Qed.




(** The tree of the example: the container holds the section, the section
    the span and the div, and the div the two paragraphs. *)
Example block_example :
  ∃ st', block dom_names no_decoding (u "section#s") example_block_lines example_container_state
         = Returned tt st'
    ∧ (children <$> doc st') = [[1]; [2; 3]; []; [4; 5]; []; []].
Proof. eexists. split; vm_compute; reflexivity. Qed.



(** The forest of the example: the container holds the list and the
    paragraph, the list its two items, and the second item the bold
    text. *)
Example forest_example :
  ∃ st', generate dom_names no_decoding template_forest example_container_state = Returned tt st'
    ∧ (children <$> doc st') = [[1; 5]; [2; 3]; []; [4]; []; []]
    ∧ (localName <$> doc st') = [u "body"; u "ul"; u "li"; u "li"; u "b"; u "p"].
Proof. eexists. split; [|split]; vm_compute; reflexivity. Qed.
